(** Shallow embedding of ext/lv2/gstlv2.c (the GStreamer bridge for LV2
    plugins) and the properties of its class synthesis, property accessors,
    lifecycle hooks, processing hook and discovery scan. *)

From Stdlib Require Import ZArith Lia SpecFloat Ascii String.
From stdpp Require Import base option list sorting strings gmap.

Local Open Scope Z_scope.

(** * Machine numbers *)

(** [guint] is a 32-bit unsigned integer: arithmetic on it wraps. *)
Definition G_MAXUINT : Z := 4294967295.
Definition guint_wrap (z : Z) : Z := z mod (G_MAXUINT + 1).
Definition guint_add (a b : Z) : Z := guint_wrap (a + b).
Definition guint_sub (a b : Z) : Z := guint_wrap (a - b).
Definition guint_mul (a b : Z) : Z := guint_wrap (a * b).

Definition G_MININT : Z := -2147483648.
Definition G_MAXINT : Z := 2147483647.

(** [gfloat] is IEEE 754 binary32, in the representation of the standard
    library's specification of floating-point numbers. *)
Definition gfloat : Type := spec_float.
Definition gfloat_prec : Z := 24.
Definition gfloat_emax : Z := 128.

Definition gfloat_0 : gfloat := S754_zero false.            (* 0.0f *)
Definition gfloat_1 : gfloat := S754_finite false 8388608 (-23).  (* 1.0f *)

Definition gfloat_lt (a b : gfloat) : bool := SFltb a b.     (* a < b *)
Definition gfloat_gt (a b : gfloat) : bool := SFltb b a.     (* a > b *)

(** Conversion [gint] to [gfloat]: round to nearest, ties to even. *)
Definition gint_to_gfloat (z : Z) : gfloat :=
  binary_normalize gfloat_prec gfloat_emax z 0 false.

(** Conversion [gfloat] to [gint] discards the fractional part.  C leaves
    the conversion undefined for NaN, the infinities and values whose
    integral part is outside the range of [gint]: [None] then. *)
Definition gfloat_to_gint (f : gfloat) : option Z :=
  match f with
  | S754_zero _ => Some 0
  | S754_finite s m e =>
      let mag := if 0 <=? e then Z.pos m * 2 ^ e else Z.pos m / 2 ^ (- e) in
      let z := if s then - mag else mag in
      if bool_decide (G_MININT ≤ z ≤ G_MAXINT) then Some z else None
  | _ => None
  end.

#[global] Instance spec_float_eq_dec : EqDecision spec_float.
Proof. solve_decision. Defined.

(** * The SLV2 data the bridge reads *)

(** An [SLV2Value] is an RDF node: a URI or a string literal. *)
Inductive SLV2Value : Type :=
  | slv2_value_new_uri (s : string)
  | slv2_value_new_string (s : string).

#[global] Instance SLV2Value_eq_dec : EqDecision SLV2Value.
Proof. solve_decision. Defined.

Definition slv2_value_equals (a b : SLV2Value) : bool := bool_decide (a = b).

Definition slv2_value_as_string (v : SLV2Value) : string :=
  match v with slv2_value_new_uri s | slv2_value_new_string s => s end.

(** The vocabulary terms resolved once in [plugin_init]. *)
Definition NS_LV2 : string := "http://lv2plug.in/ns/lv2core#".
Definition NS_PG : string := "http://lv2plug.in/ns/dev/port-groups#".

Definition audio_class : SLV2Value := slv2_value_new_uri (NS_LV2 +:+ "AudioPort").
Definition control_class : SLV2Value := slv2_value_new_uri (NS_LV2 +:+ "ControlPort").
Definition input_class : SLV2Value := slv2_value_new_uri (NS_LV2 +:+ "InputPort").
Definition output_class : SLV2Value := slv2_value_new_uri (NS_LV2 +:+ "OutputPort").
Definition integer_prop : SLV2Value := slv2_value_new_uri (NS_LV2 +:+ "integer").
Definition toggled_prop : SLV2Value := slv2_value_new_uri (NS_LV2 +:+ "toggled").
Definition in_place_broken_pred : SLV2Value :=
  slv2_value_new_uri (NS_LV2 +:+ "inPlaceBroken").
Definition in_group_pred : SLV2Value := slv2_value_new_uri (NS_PG +:+ "inGroup").
Definition lv2_symbol_pred : SLV2Value := slv2_value_new_string (NS_LV2 +:+ "symbol").

(** One port of a plugin, as the SLV2 queries of the bridge see it. *)
Record SLV2Port : Type := {
  port_symbol : string;                           (* slv2_port_get_symbol *)
  port_classes : list SLV2Value;                  (* slv2_port_is_a *)
  port_properties : list SLV2Value;               (* slv2_port_has_property *)
  port_values : list (SLV2Value * SLV2Value);     (* predicate, object *)
  port_default : option gfloat;                   (* slv2_port_get_range *)
  port_minimum : option gfloat;
  port_maximum : option gfloat;
}.

Record SLV2Plugin : Type := {
  plugin_uri : string;
  plugin_name : option string;
  plugin_author_name : option string;
  plugin_ports : list SLV2Port;                   (* in declared index order *)
  plugin_features : list SLV2Value;
  plugin_subject_values : list (SLV2Value * SLV2Value * SLV2Value);
                                                  (* subject, predicate, object *)
}.

Definition slv2_port_is_a (port : SLV2Port) (class : SLV2Value) : bool :=
  bool_decide (class ∈ port_classes port).

Definition slv2_port_has_property (port : SLV2Port) (prop : SLV2Value) : bool :=
  bool_decide (prop ∈ port_properties port).

Definition slv2_port_get_value (port : SLV2Port) (pred : SLV2Value) : list SLV2Value :=
  (filter (λ pv, pv.1 = pred) (port_values port)).*2.

Definition slv2_plugin_get_value_for_subject
    (p : SLV2Plugin) (subject pred : SLV2Value) : list SLV2Value :=
  (filter (λ t, t.1.1 = subject ∧ t.1.2 = pred) (plugin_subject_values p)).*2.

Definition slv2_plugin_has_feature (p : SLV2Plugin) (f : SLV2Value) : bool :=
  bool_decide (f ∈ plugin_features p).

(** [slv2_plugin_get_port_by_index]; the index is a [guint]/[gint]. *)
Definition slv2_plugin_get_port_by_index (p : SLV2Plugin) (j : Z) : option SLV2Port :=
  if 0 <=? j then plugin_ports p !! Z.to_nat j else None.

(** * The class structures of the bridge *)

(** The structures of gstlv2.h, by the fields this file uses.  The port
    number and the pad slot are kept as the values the port loop gives
    them. *)
Record GstLV2Port : Type := {
  port_index : Z;   (* index: the LV2 port number *)
  port_pad : Z;     (* pad: the pad slot *)
}.

Record GstLV2Group : Type := {
  group_uri : SLV2Value;
  group_pad : Z;
  group_symbol : option SLV2Value;   (* None is the NULL symbol *)
  group_ports : list GstLV2Port;
}.

Inductive GstPadDirection : Type := GST_PAD_UNKNOWN | GST_PAD_SRC | GST_PAD_SINK.

(** One call of [gst_signal_processor_class_add_pad_template]. *)
Record PadTemplate : Type := {
  templ_name : option string;
  templ_direction : GstPadDirection;
  templ_index : Z;
  templ_channels : Z;
}.

Record GstElementDetails : Type := {
  longname : string;
  klass_tags : string;
  description : string;
  author : string;
}.

#[global] Instance GstLV2Port_eq_dec : EqDecision GstLV2Port.
Proof. solve_decision. Defined.
#[global] Instance GstLV2Group_eq_dec : EqDecision GstLV2Group.
Proof. solve_decision. Defined.
#[global] Instance GstPadDirection_eq_dec : EqDecision GstPadDirection.
Proof. solve_decision. Defined.
#[global] Instance PadTemplate_eq_dec : EqDecision PadTemplate.
Proof. solve_decision. Defined.

(** [GstLV2Class], with the fields of its parent [GstSignalProcessorClass]
    and [GstElementClass] that [gst_lv2_base_init] fills in. *)
Record GstLV2Class : Type := {
  num_group_in : Z;
  num_group_out : Z;
  num_audio_in : Z;
  num_audio_out : Z;
  num_control_in : Z;
  num_control_out : Z;
  pad_templates : list PadTemplate;
  details : GstElementDetails;
  can_process_in_place : bool;
  plugin : SLV2Plugin;
  in_groups : list GstLV2Group;
  out_groups : list GstLV2Group;
  audio_in_ports : list GstLV2Port;
  audio_out_ports : list GstLV2Port;
  control_in_ports : list GstLV2Port;
  control_out_ports : list GstLV2Port;
}.

(** * gst_lv2_class_find_group *)

(** The position of the first group with the given URI; the C function
    returns the address of that array element, or NULL. *)
Definition gst_lv2_class_find_group (groups : list GstLV2Group) (uri : SLV2Value)
    : option nat :=
  fst <$> list_find (λ g, slv2_value_equals (group_uri g) uri = true) groups.

(** * gst_lv2_base_init: finding ports and groups *)

(** The arrays and the two pad counters the port loop updates. *)
Record PortScan : Type := {
  in_pad_index : Z;
  out_pad_index : Z;
  scan_in_groups : list GstLV2Group;
  scan_out_groups : list GstLV2Group;
  scan_audio_in : list GstLV2Port;
  scan_audio_out : list GstLV2Port;
  scan_control_in : list GstLV2Port;
  scan_control_out : list GstLV2Port;
}.

Definition scan_start : PortScan :=
  {| in_pad_index := 0; out_pad_index := 0;
     scan_in_groups := []; scan_out_groups := [];
     scan_audio_in := []; scan_audio_out := [];
     scan_control_in := []; scan_control_out := [] |}.

Definition scan_groups (is_input : bool) (st : PortScan) : list GstLV2Group :=
  if is_input then scan_in_groups st else scan_out_groups st.

Definition set_scan_groups (is_input : bool) (gs : list GstLV2Group) (st : PortScan)
    : PortScan :=
  if is_input
  then {| in_pad_index := in_pad_index st; out_pad_index := out_pad_index st;
          scan_in_groups := gs; scan_out_groups := scan_out_groups st;
          scan_audio_in := scan_audio_in st; scan_audio_out := scan_audio_out st;
          scan_control_in := scan_control_in st;
          scan_control_out := scan_control_out st |}
  else {| in_pad_index := in_pad_index st; out_pad_index := out_pad_index st;
          scan_in_groups := scan_in_groups st; scan_out_groups := gs;
          scan_audio_in := scan_audio_in st; scan_audio_out := scan_audio_out st;
          scan_control_in := scan_control_in st;
          scan_control_out := scan_control_out st |}.

(** [is_input ? in_pad_index++ : out_pad_index++]: the value before the
    increment, and the scan with the counter advanced. *)
Definition next_pad_index (is_input : bool) (st : PortScan) : Z * PortScan :=
  if is_input
  then (in_pad_index st,
        {| in_pad_index := guint_add (in_pad_index st) 1;
           out_pad_index := out_pad_index st;
           scan_in_groups := scan_in_groups st; scan_out_groups := scan_out_groups st;
           scan_audio_in := scan_audio_in st; scan_audio_out := scan_audio_out st;
           scan_control_in := scan_control_in st;
           scan_control_out := scan_control_out st |})
  else (out_pad_index st,
        {| in_pad_index := in_pad_index st;
           out_pad_index := guint_add (out_pad_index st) 1;
           scan_in_groups := scan_in_groups st; scan_out_groups := scan_out_groups st;
           scan_audio_in := scan_audio_in st; scan_audio_out := scan_audio_out st;
           scan_control_in := scan_control_in st;
           scan_control_out := scan_control_out st |}).

Definition append_audio (is_input : bool) (desc : GstLV2Port) (st : PortScan) : PortScan :=
  if is_input
  then {| in_pad_index := in_pad_index st; out_pad_index := out_pad_index st;
          scan_in_groups := scan_in_groups st; scan_out_groups := scan_out_groups st;
          scan_audio_in := scan_audio_in st ++ [desc];
          scan_audio_out := scan_audio_out st;
          scan_control_in := scan_control_in st;
          scan_control_out := scan_control_out st |}
  else {| in_pad_index := in_pad_index st; out_pad_index := out_pad_index st;
          scan_in_groups := scan_in_groups st; scan_out_groups := scan_out_groups st;
          scan_audio_in := scan_audio_in st;
          scan_audio_out := scan_audio_out st ++ [desc];
          scan_control_in := scan_control_in st;
          scan_control_out := scan_control_out st |}.

Definition append_control (is_input : bool) (desc : GstLV2Port) (st : PortScan)
    : PortScan :=
  if is_input
  then {| in_pad_index := in_pad_index st; out_pad_index := out_pad_index st;
          scan_in_groups := scan_in_groups st; scan_out_groups := scan_out_groups st;
          scan_audio_in := scan_audio_in st; scan_audio_out := scan_audio_out st;
          scan_control_in := scan_control_in st ++ [desc];
          scan_control_out := scan_control_out st |}
  else {| in_pad_index := in_pad_index st; out_pad_index := out_pad_index st;
          scan_in_groups := scan_in_groups st; scan_out_groups := scan_out_groups st;
          scan_audio_in := scan_audio_in st; scan_audio_out := scan_audio_out st;
          scan_control_in := scan_control_in st;
          scan_control_out := scan_control_out st ++ [desc] |}.

(** [g_array_append_val (group->ports, desc)] on the group at position [i]. *)
Definition group_append_port (desc : GstLV2Port) (g : GstLV2Group) : GstLV2Group :=
  {| group_uri := group_uri g; group_pad := group_pad g;
     group_symbol := group_symbol g; group_ports := group_ports g ++ [desc] |}.

(** The body of the port loop for port number [j]. *)
Definition scan_port (lv2plugin : SLV2Plugin) (j : Z) (port : SLV2Port) (st : PortScan)
    : PortScan :=
  let is_input := slv2_port_is_a port input_class in
  let desc := {| port_index := j; port_pad := 0 |} in
  match slv2_port_get_value port in_group_pred with
  | group_uri :: _ =>
      (* port is part of a group *)
      let groups := scan_groups is_input st in
      let '(i, groups, st) :=
        match gst_lv2_class_find_group groups group_uri with
        | Some i => (i, groups, st)
        | None =>
            let '(pad, st) := next_pad_index is_input st in
            let g := {| group_uri := group_uri; group_pad := pad;
                        group_symbol :=
                          head (slv2_plugin_get_value_for_subject lv2plugin group_uri
                                  lv2_symbol_pred);
                        group_ports := [] |} in
            (length groups, groups ++ [g], st)
        end in
      set_scan_groups is_input (alter (group_append_port desc) i groups) st
  | [] =>
      (* port is not part of a group *)
      if slv2_port_is_a port audio_class then
        let '(pad, st) := next_pad_index is_input st in
        append_audio is_input {| port_index := j; port_pad := pad |} st
      else if slv2_port_is_a port control_class then
        append_control is_input desc st
      else
        (* unknown port type *)
        st
  end.

(** [for (j = ...; j < slv2_plugin_get_num_ports (lv2plugin); j++)] over the
    ports from number [j] on. *)
Fixpoint scan_ports (lv2plugin : SLV2Plugin) (j : Z) (ports : list SLV2Port)
    (st : PortScan) : PortScan :=
  match ports with
  | [] => st
  | port :: rest =>
      scan_ports lv2plugin (guint_add j 1) rest (scan_port lv2plugin j port st)
  end.

(** * gst_lv2_base_init *)

Definition group_pad_template (dir : GstPadDirection) (j : nat) (group : GstLV2Group)
    : PadTemplate :=
  {| templ_name := slv2_value_as_string <$> group_symbol group;
     templ_direction := dir;
     templ_index := Z.of_nat j;
     templ_channels := Z.of_nat (length (group_ports group)) |}.

Definition port_pad_template (lv2plugin : SLV2Plugin) (dir : GstPadDirection) (j : nat)
    (desc : GstLV2Port) : PadTemplate :=
  {| templ_name :=
       port_symbol <$> slv2_plugin_get_port_by_index lv2plugin (port_index desc);
     templ_direction := dir;
     templ_index := Z.of_nat j;
     templ_channels := 1 |}.

(** The class tags chosen from the three counts. *)
Definition base_init_klass_tags (num_audio_in num_audio_out num_control_out : Z)
    : string :=
  if num_audio_in =? 0 then "Source/Audio/LV2"
  else if num_audio_out =? 0 then
    if num_control_out =? 0 then "Sink/Audio/LV2" else "Sink/Analyzer/Audio/LV2"
  else "Filter/Effect/Audio/LV2".

Definition gst_lv2_base_init (lv2plugin : SLV2Plugin) : GstLV2Class :=
  (* find ports and groups *)
  let st := scan_ports lv2plugin 0 (plugin_ports lv2plugin) scan_start in
  let num_group_in := Z.of_nat (length (scan_in_groups st)) in
  let num_group_out := Z.of_nat (length (scan_out_groups st)) in
  let num_audio_in := Z.of_nat (length (scan_audio_in st)) in
  let num_audio_out := Z.of_nat (length (scan_audio_out st)) in
  let num_control_in := Z.of_nat (length (scan_control_in st)) in
  let num_control_out := Z.of_nat (length (scan_control_out st)) in
  let templates :=
    (* add input group pad templates *)
    imap (group_pad_template GST_PAD_SINK) (scan_in_groups st)
    (* add output group pad templates *)
    ++ imap (group_pad_template GST_PAD_SRC) (scan_out_groups st)
    (* add non-grouped input port pad templates *)
    ++ imap (port_pad_template lv2plugin GST_PAD_SINK) (scan_audio_in st)
    (* add non-grouped output port pad templates *)
    ++ imap (port_pad_template lv2plugin GST_PAD_SINK) (scan_audio_out st) in
  (* construct the element details struct *)
  let longname := default "no description available" (plugin_name lv2plugin) in
  let details :=
    {| longname := longname;
       klass_tags := base_init_klass_tags num_audio_in num_audio_out num_control_out;
       description := longname;
       author := default "no author available" (plugin_author_name lv2plugin) |} in
  {| num_group_in := num_group_in; num_group_out := num_group_out;
     num_audio_in := num_audio_in; num_audio_out := num_audio_out;
     num_control_in := num_control_in; num_control_out := num_control_out;
     pad_templates := templates;
     details := details;
     can_process_in_place := negb (slv2_plugin_has_feature lv2plugin in_place_broken_pred);
     plugin := lv2plugin;
     in_groups := scan_in_groups st; out_groups := scan_out_groups st;
     audio_in_ports := scan_audio_in st; audio_out_ports := scan_audio_out st;
     control_in_ports := scan_control_in st;
     control_out_ports := scan_control_out st |}.

(** * gst_lv2_class_get_param_spec *)

Definition G_PARAM_READABLE : Z := Z.shiftl 1 0.
Definition G_PARAM_WRITABLE : Z := Z.shiftl 1 1.
Definition G_PARAM_CONSTRUCT : Z := Z.shiftl 1 2.
Definition G_PARAM_USER_SHIFT : Z := 8.
Definition GST_PARAM_CONTROLLABLE : Z := Z.shiftl 1 (G_PARAM_USER_SHIFT + 1).

(** The three constructors of parameter specifications the bridge calls,
    with their arguments: name, (minimum, maximum,) default, flags.  The
    bridge passes [gfloat] values for the [gint] arguments of
    [g_param_spec_int]; such an argument is [None] where C leaves its
    conversion undefined. *)
Inductive GParamSpec : Type :=
  | g_param_spec_boolean (name : string) (default_value : bool) (flags : Z)
  | g_param_spec_int (name : string) (minimum maximum default_value : option Z)
      (flags : Z)
  | g_param_spec_float (name : string) (minimum maximum default_value : gfloat)
      (flags : Z).

Inductive GType : Type := G_TYPE_BOOLEAN | G_TYPE_INT | G_TYPE_FLOAT | G_TYPE_OTHER.

Definition value_type (pspec : GParamSpec) : GType :=
  match pspec with
  | g_param_spec_boolean _ _ _ => G_TYPE_BOOLEAN
  | g_param_spec_int _ _ _ _ _ => G_TYPE_INT
  | g_param_spec_float _ _ _ _ _ => G_TYPE_FLOAT
  end.

(** The two messages [gst_lv2_class_get_param_spec] logs with GST_WARNING. *)
Inductive Warning : Type :=
  | warn_lower_bound (uri : string) (lower def : gfloat)
      (* "%s has lower bound %f > default %f" *)
  | warn_upper_bound (uri : string) (upper def : gfloat).
      (* "%s has upper bound %f < default %f" *)

Definition gst_lv2_class_get_param_name (lv2plugin : SLV2Plugin) (portnum : Z)
    : option string :=
  port_symbol <$> slv2_plugin_get_port_by_index lv2plugin portnum.

(** The specification built for one port, and the warnings logged on the
    way, oldest first. *)
Definition param_spec_of_port (lv2plugin : SLV2Plugin) (port : SLV2Port)
    : GParamSpec * list Warning :=
  let name := port_symbol port in
  let perms := G_PARAM_READABLE in
  let perms :=
    if slv2_port_is_a port input_class
    then Z.lor perms (Z.lor G_PARAM_WRITABLE G_PARAM_CONSTRUCT) else perms in
  let perms :=
    if slv2_port_is_a port control_class
    then Z.lor perms GST_PARAM_CONTROLLABLE else perms in
  if slv2_port_has_property port toggled_prop then
    (g_param_spec_boolean name false perms, [])
  else
    let def := default gfloat_0 (port_default port) in
    let lower := default gfloat_0 (port_minimum port) in
    let upper := default gfloat_1 (port_maximum port) in
    let '(lower, w1) :=
      if gfloat_lt def lower
      then (def, [warn_lower_bound (plugin_uri lv2plugin) lower def])
      else (lower, []) in
    let '(upper, w2) :=
      if gfloat_gt def upper
      then (def, [warn_upper_bound (plugin_uri lv2plugin) upper def])
      else (upper, []) in
    if slv2_port_has_property port integer_prop then
      (g_param_spec_int name (gfloat_to_gint lower) (gfloat_to_gint upper)
         (gfloat_to_gint def) perms, w1 ++ w2)
    else
      (g_param_spec_float name lower upper def perms, w1 ++ w2).

(** [None] when the plugin has no port of that number (the C code would
    then pass a NULL port on). *)
Definition gst_lv2_class_get_param_spec (klass : GstLV2Class) (portnum : Z)
    : option (GParamSpec * list Warning) :=
  let lv2plugin := plugin klass in
  port ← slv2_plugin_get_port_by_index lv2plugin portnum;
  Some (param_spec_of_port lv2plugin port).

(** * gst_lv2_class_init: the installed properties *)

(** [g_object_class_install_property (klass, id, p)] for the control inputs
    and then the control outputs: the list of (property id, specification)
    in installation order. *)
Definition gst_lv2_class_init (klass : GstLV2Class)
    : option (list (Z * GParamSpec) * list Warning) :=
  ins ← mapM (λ d, gst_lv2_class_get_param_spec klass (port_index d))
           (control_in_ports klass);
  outs ← mapM (λ d, gst_lv2_class_get_param_spec klass (port_index d))
            (control_out_ports klass);
  Some (imap (λ i pw, (Z.of_nat i + 1, pw.1)) ins
        ++ imap (λ i pw, (num_control_in klass + Z.of_nat i + 1, pw.1)) outs,
        concat (ins.*2) ++ concat (outs.*2)).

(** * The element instance and the calls it makes *)

Definition SLV2Instance : Type := Z.

(** Addresses handed to the plugin: a position in a framework buffer, or
    one of the element's control slots. *)
Inductive Pointer : Type :=
  | ptr_buffer (base : Z) (offset : Z)     (* base + offset, in gfloat units *)
  | ptr_control_in (slot : Z)              (* &gsp->control_in[slot] *)
  | ptr_control_out (slot : Z).            (* &gsp->control_out[slot] *)

Definition ptr_add (p : Pointer) (n : Z) : Pointer :=
  match p with
  | ptr_buffer b o => ptr_buffer b (o + n)
  | ptr_control_in i => ptr_control_in (i + n)
  | ptr_control_out i => ptr_control_out (i + n)
  end.

Record GstSignalProcessorGroup : Type := { buffer : Pointer }.

(** [GstLV2] with the fields of its parent [GstSignalProcessor]. *)
Record GstLV2 : Type := {
  group_in : list GstSignalProcessorGroup;
  group_out : list GstSignalProcessorGroup;
  audio_in : list Pointer;
  audio_out : list Pointer;
  control_in : list gfloat;
  control_out : list gfloat;
  lv2_plugin : SLV2Plugin;
  instance : option SLV2Instance;          (* None is NULL *)
  activated : bool;
}.

(** What leaves the element: calls into SLV2 and failed precondition
    checks (g_return_if_fail and its relatives log a critical message and
    return). *)
Inductive Call : Type :=
  | g_return_if_fail_warning (expr : string)
  | slv2_plugin_instantiate_call (uri : string) (sample_rate : Z)
      (ret : option SLV2Instance)
  | slv2_instance_connect_port_call (inst : SLV2Instance) (port : Z) (data : Pointer)
  | slv2_instance_activate_call (inst : SLV2Instance)
  | slv2_instance_deactivate_call (inst : SLV2Instance)
  | slv2_instance_free_call (inst : SLV2Instance)
  | slv2_instance_run_call (inst : SLV2Instance) (nframes : Z).

Record World : Type := {
  self : GstLV2;
  trace : list Call;                               (* oldest first *)
  instantiations : list (option SLV2Instance);     (* what the next calls of
                                                      slv2_plugin_instantiate return *)
}.

Inductive Fault : Type :=
  | assertion_failed        (* g_assert_not_reached: the process aborts *)
  | undefined_behaviour.    (* NULL dereference or access outside an array *)

Inductive Outcome (A : Type) : Type :=
  | Returns (a : A) (w : World)
  | Faults (f : Fault).
Arguments Returns {A} a w.
Arguments Faults {A} f.

Definition M (A : Type) : Type := World → Outcome A.

#[global] Instance M_ret : MRet M := λ A a w, Returns a w.
#[global] Instance M_bind : MBind M := λ A B f m w,
  match m w with
  | Returns a w' => f a w'
  | Faults e => Faults e
  end.

Definition get_self : M GstLV2 := λ w, Returns (self w) w.

Definition put_self (lv2 : GstLV2) : M unit := λ w,
  Returns () {| self := lv2; trace := trace w; instantiations := instantiations w |}.

Definition emit (c : Call) : M unit := λ w,
  Returns () {| self := self w; trace := trace w ++ [c];
                instantiations := instantiations w |}.

Definition fault {A : Type} (f : Fault) : M A := λ _, Faults f.

(** Reading element [i] of a C array. *)
Definition array_get {A : Type} (l : list A) (i : Z) : M A :=
  match (if 0 <=? i then l !! Z.to_nat i else None) with
  | Some a => mret a
  | None => fault undefined_behaviour
  end.

Fixpoint for_each {A : Type} (l : list A) (body : A → M unit) : M unit :=
  match l with
  | [] => mret ()
  | a :: rest => body a;; for_each rest body
  end.

(** [for (i = 0; i < n; i++) body]. *)
Definition for_upto (n : Z) (body : Z → M unit) : M unit :=
  for_each (seqZ 0 n) body.

Definition slv2_plugin_instantiate (p : SLV2Plugin) (sample_rate : Z)
    : M (option SLV2Instance) := λ w,
  let ret := default None (head (instantiations w)) in
  Returns ret
    {| self := self w;
       trace := trace w ++ [slv2_plugin_instantiate_call (plugin_uri p) sample_rate ret];
       instantiations := tail (instantiations w) |}.

(** The SLV2 instance functions dereference the instance.  They are kept
    as the calls the bridge makes.  What the plugin then does with the memory
    connected to it (during a run it reads the input buffers and writes the
    output buffers and the control output slots) is not followed: the
    control slots of the model hold what the bridge itself has stored, and
    the statements on a run speak of the calls made. *)
Definition with_instance (inst : option SLV2Instance) (c : SLV2Instance → Call)
    : M unit :=
  match inst with
  | Some h => emit (c h)
  | None => fault undefined_behaviour
  end.

Definition slv2_instance_connect_port (inst : option SLV2Instance) (port : Z)
    (data : Pointer) : M unit :=
  with_instance inst (λ h, slv2_instance_connect_port_call h port data).
Definition slv2_instance_activate (inst : option SLV2Instance) : M unit :=
  with_instance inst slv2_instance_activate_call.
Definition slv2_instance_deactivate (inst : option SLV2Instance) : M unit :=
  with_instance inst slv2_instance_deactivate_call.
Definition slv2_instance_free (inst : option SLV2Instance) : M unit :=
  with_instance inst slv2_instance_free_call.
Definition slv2_instance_run (inst : option SLV2Instance) (nframes : Z) : M unit :=
  with_instance inst (λ h, slv2_instance_run_call h nframes).

Definition set_instance (inst : option SLV2Instance) (lv2 : GstLV2) : GstLV2 :=
  {| group_in := group_in lv2; group_out := group_out lv2;
     audio_in := audio_in lv2; audio_out := audio_out lv2;
     control_in := control_in lv2; control_out := control_out lv2;
     lv2_plugin := lv2_plugin lv2; instance := inst; activated := activated lv2 |}.

Definition set_activated (b : bool) (lv2 : GstLV2) : GstLV2 :=
  {| group_in := group_in lv2; group_out := group_out lv2;
     audio_in := audio_in lv2; audio_out := audio_out lv2;
     control_in := control_in lv2; control_out := control_out lv2;
     lv2_plugin := lv2_plugin lv2; instance := instance lv2; activated := b |}.

Definition set_control_in (cs : list gfloat) (lv2 : GstLV2) : GstLV2 :=
  {| group_in := group_in lv2; group_out := group_out lv2;
     audio_in := audio_in lv2; audio_out := audio_out lv2;
     control_in := cs; control_out := control_out lv2;
     lv2_plugin := lv2_plugin lv2; instance := instance lv2;
     activated := activated lv2 |}.

(** * gst_lv2_init *)

(** The fields [gst_lv2_init] sets, on an object whose parent part (the
    buffer and control arrays) the framework has laid out. *)
Definition gst_lv2_init (lv2 : GstLV2) (klass : GstLV2Class) : GstLV2 :=
  {| group_in := group_in lv2; group_out := group_out lv2;
     audio_in := audio_in lv2; audio_out := audio_out lv2;
     control_in := control_in lv2; control_out := control_out lv2;
     lv2_plugin := plugin klass; instance := None; activated := false |}.

(** * gst_lv2_set_property and gst_lv2_get_property *)

Inductive GValue : Type :=
  | g_value_boolean (b : bool)
  | g_value_int (z : Z)
  | g_value_float (f : gfloat).

(** GLib's getters return 0 on a value of another type. *)
Definition g_value_get_boolean (v : GValue) : bool :=
  match v with g_value_boolean b => b | _ => false end.
Definition g_value_get_int (v : GValue) : Z :=
  match v with g_value_int z => z | _ => 0 end.
Definition g_value_get_float (v : GValue) : gfloat :=
  match v with g_value_float f => f | _ => gfloat_0 end.

(** [gsp->control_in[prop_id] = x]. *)
Definition store_control_in (prop_id : Z) (x : gfloat) : M unit :=
  lv2 ← get_self;
  if bool_decide (0 ≤ prop_id < Z.of_nat (length (control_in lv2))) then
    put_self (set_control_in (<[Z.to_nat prop_id := x]> (control_in lv2)) lv2)
  else fault undefined_behaviour.

Definition gst_lv2_set_property (klass : GstLV2Class) (prop_id : Z) (value : GValue)
    (pspec_value_type : GType) : M unit :=
  (* remember, properties have an offset of 1 *)
  let prop_id := guint_sub prop_id 1 in
  (* only input ports *)
  if negb (prop_id <? num_control_in klass) then
    emit (g_return_if_fail_warning "prop_id < gsp_class->num_control_in")
  else
    (* now see what type it is *)
    match pspec_value_type with
    | G_TYPE_BOOLEAN =>
        store_control_in prop_id (if g_value_get_boolean value then gfloat_0 else gfloat_1)
    | G_TYPE_INT => store_control_in prop_id (gint_to_gfloat (g_value_get_int value))
    | G_TYPE_FLOAT => store_control_in prop_id (g_value_get_float value)
    | G_TYPE_OTHER => fault assertion_failed
    end.

(** [CLAMP (x, low, high)] on a [gfloat] with [gint] limits: the limits are
    converted to [gfloat] for the comparisons and for the result. *)
Definition CLAMP (x : gfloat) (low high : Z) : gfloat :=
  if gfloat_gt x (gint_to_gfloat high) then gint_to_gfloat high
  else if gfloat_lt x (gint_to_gfloat low) then gint_to_gfloat low
  else x.

(** The type switch of [gst_lv2_get_property], reading [controls[prop_id]];
    [None] when no value is set (g_return_if_reached). *)
Definition get_property_value (pspec_value_type : GType) (controls : list gfloat)
    (prop_id : Z) : M (option GValue) :=
  match pspec_value_type with
  | G_TYPE_BOOLEAN =>
      x ← array_get controls prop_id;
      mret (Some (g_value_boolean (gfloat_gt x gfloat_0)))
  | G_TYPE_INT =>
      x ← array_get controls prop_id;
      match gfloat_to_gint (CLAMP x G_MININT G_MAXINT) with
      | Some z => mret (Some (g_value_int z))
      | None => fault undefined_behaviour
      end
  | G_TYPE_FLOAT =>
      x ← array_get controls prop_id;
      mret (Some (g_value_float x))
  | G_TYPE_OTHER => emit (g_return_if_fail_warning "should not be reached");; mret None
  end.

Definition gst_lv2_get_property (klass : GstLV2Class) (prop_id : Z)
    (pspec_value_type : GType) : M (option GValue) :=
  lv2 ← get_self;
  (* remember, properties have an offset of 1 *)
  let prop_id := guint_sub prop_id 1 in
  if prop_id <? num_control_in klass then
    get_property_value pspec_value_type (control_in lv2) prop_id
  else if prop_id <? guint_add (num_control_in klass) (num_control_out klass) then
    get_property_value pspec_value_type (control_out lv2)
      (guint_sub prop_id (num_control_in klass))
  else
    emit (g_return_if_fail_warning "should not be reached");; mret None.

(** * The lifecycle hooks *)

Definition gst_lv2_setup (klass : GstLV2Class) (sample_rate : Z) : M bool :=
  lv2 ← get_self;
  if negb (bool_decide (activated lv2 = false)) then
    emit (g_return_if_fail_warning "lv2->activated == FALSE");; mret false
  else
    inst ← slv2_plugin_instantiate (plugin klass) sample_rate;
    put_self (set_instance inst lv2);;
    if negb (bool_decide (inst ≠ None)) then
      emit (g_return_if_fail_warning "lv2->instance != NULL");; mret false
    else
      (* connect the control ports *)
      for_upto (num_control_in klass) (λ i,
        desc ← array_get (control_in_ports klass) i;
        slv2_instance_connect_port inst (port_index desc) (ptr_control_in i));;
      for_upto (num_control_out klass) (λ i,
        desc ← array_get (control_out_ports klass) i;
        slv2_instance_connect_port inst (port_index desc) (ptr_control_out i));;
      mret true.

Definition gst_lv2_start : M bool :=
  lv2 ← get_self;
  if negb (bool_decide (activated lv2 = false)) then
    emit (g_return_if_fail_warning "lv2->activated == FALSE");; mret false
  else if negb (bool_decide (instance lv2 ≠ None)) then
    emit (g_return_if_fail_warning "lv2->instance != NULL");; mret false
  else
    slv2_instance_activate (instance lv2);;
    put_self (set_activated true lv2);;
    mret true.

Definition gst_lv2_stop : M unit :=
  lv2 ← get_self;
  if negb (bool_decide (activated lv2 = true)) then
    emit (g_return_if_fail_warning "lv2->activated == TRUE")
  else if negb (bool_decide (instance lv2 ≠ None)) then
    emit (g_return_if_fail_warning "lv2->instance != NULL")
  else
    slv2_instance_deactivate (instance lv2);;
    put_self (set_activated false lv2).

Definition gst_lv2_cleanup : M unit :=
  lv2 ← get_self;
  if negb (bool_decide (activated lv2 = false)) then
    emit (g_return_if_fail_warning "lv2->activated == FALSE")
  else if negb (bool_decide (instance lv2 ≠ None)) then
    emit (g_return_if_fail_warning "lv2->instance != NULL")
  else
    slv2_instance_free (instance lv2);;
    put_self (set_instance None lv2).

(** * gst_lv2_process *)

(** The inner loop over the ports of one group, bound into the buffer of
    the framework group [gst_groups[i]]. *)
Definition connect_group (inst : option SLV2Instance)
    (gst_groups : list GstSignalProcessorGroup) (i : Z) (lv2_group : GstLV2Group)
    (nframes : Z) : M unit :=
  for_upto (Z.of_nat (length (group_ports lv2_group))) (λ j,
    lv2_port ← array_get (group_ports lv2_group) j;
    gst_group ← array_get gst_groups i;
    slv2_instance_connect_port inst (port_index lv2_port)
      (ptr_add (buffer gst_group) (guint_mul j nframes))).

Definition gst_lv2_process (klass : GstLV2Class) (nframes : Z) : M unit :=
  lv2 ← get_self;
  for_upto (num_group_in klass) (λ i,
    lv2_group ← array_get (in_groups klass) i;
    connect_group (instance lv2) (group_in lv2) i lv2_group nframes);;
  for_upto (num_audio_in klass) (λ i,
    lv2_port ← array_get (audio_in_ports klass) i;
    data ← array_get (audio_in lv2) i;
    slv2_instance_connect_port (instance lv2) (port_index lv2_port) data);;
  for_upto (num_group_out klass) (λ i,
    lv2_group ← array_get (out_groups klass) i;
    connect_group (instance lv2) (group_out lv2) i lv2_group nframes);;
  for_upto (num_audio_out klass) (λ i,
    lv2_port ← array_get (audio_out_ports klass) i;
    data ← array_get (audio_out lv2) i;
    slv2_instance_connect_port (instance lv2) (port_index lv2_port) data);;
  slv2_instance_run (instance lv2) nframes.

(** * lv2_plugin_discover *)

Definition G_CSET_A_2_Z : string := "ABCDEFGHIJKLMNOPQRSTUVWXYZ".
Definition G_CSET_a_2_z : string := "abcdefghijklmnopqrstuvwxyz".
Definition G_CSET_DIGITS : string := "0123456789".

Fixpoint strchr (s : string) (c : ascii) : bool :=
  match s with
  | EmptyString => false
  | String c' s' => if Ascii.eqb c' c then true else strchr s' c
  end.

(** [g_strcanon]: every character outside [valid_chars] becomes
    [substitutor]. *)
Fixpoint g_strcanon (s : string) (valid_chars : string) (substitutor : ascii) : string :=
  match s with
  | EmptyString => EmptyString
  | String c s' =>
      String (if strchr valid_chars c then c else substitutor)
             (g_strcanon s' valid_chars substitutor)
  end.

(** The type name constructed from the plugin URI. *)
Definition lv2_type_name (lv2plugin : SLV2Plugin) : string :=
  g_strcanon (plugin_uri lv2plugin)
    (G_CSET_A_2_Z +:+ G_CSET_a_2_z +:+ G_CSET_DIGITS +:+ "-+") "-"%char.

(** What the type system holds for one registered type name: the class
    data of its type info and its "slv2-plugin" qdata, when set. *)
Record GTypeNode : Type := {
  class_data : option SLV2Plugin;
  slv2_plugin_qdata : option SLV2Plugin;
}.

(** The GObject type system, keyed by type name (a GType is identified
    with the name it was registered under; 0 is [None]), and the element
    factories registered with GStreamer. *)
Record GTypeSystem : Type := {
  types : gmap string GTypeNode;
  element_factories : list (string * string);      (* factory name, type *)
}.

Definition g_type_from_name (ts : GTypeSystem) (name : string) : option string :=
  match types ts !! name with
  | Some _ => Some name
  | None => None
  end.

Section discover.

(** GLib's check of a new type name and the success of
    [gst_element_register] are decided outside this file. *)
Variable check_type_name : string → bool.
Variable element_register_ok : string → bool.

Definition g_type_register_static (type_name : string) (lv2plugin : SLV2Plugin)
    (ts : GTypeSystem) : option string * GTypeSystem :=
  if check_type_name type_name
  then (Some type_name,
        {| types := <[type_name := {| class_data := Some lv2plugin;
                                      slv2_plugin_qdata := None |}]> (types ts);
           element_factories := element_factories ts |})
  else (None, ts).

Definition g_type_set_qdata (type : option string) (lv2plugin : SLV2Plugin)
    (ts : GTypeSystem) : GTypeSystem :=
  match type with
  | Some name =>
      {| types := alter (λ n, {| class_data := class_data n;
                                 slv2_plugin_qdata := Some lv2plugin |}) name (types ts);
         element_factories := element_factories ts |}
  | None => ts
  end.

Definition gst_element_register (name : string) (type : option string)
    (ts : GTypeSystem) : bool * GTypeSystem :=
  match type with
  | Some t =>
      if element_register_ok name
      then (true, {| types := types ts;
                     element_factories := element_factories ts ++ [(name, t)] |})
      else (false, ts)
  | None => (false, ts)
  end.

(** The body of the loop of [lv2_plugin_discover] for one plugin; the
    boolean tells whether [g_type_register_static] was called. *)
Definition discover_plugin (lv2plugin : SLV2Plugin) (ts : GTypeSystem)
    : bool * GTypeSystem :=
  (* construct the type name from plugin URI *)
  let type_name := lv2_type_name lv2plugin in
  (* if it's already registered, drop it *)
  match g_type_from_name ts type_name with
  | Some _ => (false, ts)
  | None =>
      (* create the type *)
      let '(type, ts) := g_type_register_static type_name lv2plugin ts in
      let ts := g_type_set_qdata type lv2plugin ts in
      let '(_, ts) := gst_element_register type_name type ts in
      (true, ts)
  end.

(** The scan: the return value, whether each plugin went through
    registration, and the type system afterwards. *)
Fixpoint discover_loop (plugins : list SLV2Plugin) (ts : GTypeSystem)
    : list bool * GTypeSystem :=
  match plugins with
  | [] => ([], ts)
  | lv2plugin :: rest =>
      let '(r, ts) := discover_plugin lv2plugin ts in
      let '(rs, ts) := discover_loop rest ts in
      (r :: rs, ts)
  end.

Definition lv2_plugin_discover (plugins : list SLV2Plugin) (ts : GTypeSystem)
    : bool * list bool * GTypeSystem :=
  let '(rs, ts) := discover_loop plugins ts in
  (true, rs, ts).

End discover.

(** * Definitions used in the statements *)

(** The world with further calls recorded. *)
Definition add_trace (w : World) (cs : list Call) : World :=
  {| self := self w; trace := trace w ++ cs; instantiations := instantiations w |}.

Definition guint_range (z : Z) : Prop := 0 ≤ z ≤ G_MAXUINT.

(** ** Sample plugins and elements *)

Definition gfloat_1_5 : gfloat := S754_finite false 12582912 (-23).   (* 1.5f *)
Definition gfloat_2 : gfloat := S754_finite false 8388608 (-22).      (* 2.0f *)

Definition make_port (symbol : string) (classes properties : list SLV2Value)
    (group : list SLV2Value) (def lower upper : option gfloat) : SLV2Port :=
  {| port_symbol := symbol; port_classes := classes; port_properties := properties;
     port_values := (λ g, (in_group_pred, g)) <$> group;
     port_default := def; port_minimum := lower; port_maximum := upper |}.

Definition make_plugin (uri : string) (ports : list SLV2Port)
    (subject_values : list (SLV2Value * SLV2Value * SLV2Value)) : SLV2Plugin :=
  {| plugin_uri := uri; plugin_name := None; plugin_author_name := None;
     plugin_ports := ports; plugin_features := [];
     plugin_subject_values := subject_values |}.

(** A mono amplifier: one audio input, one audio output, a gain control
    input and a level control output, none of them in a group. *)
Definition amp_plugin : SLV2Plugin :=
  make_plugin "http://example.org/amp"
    [ make_port "in" [audio_class; input_class] [] [] None None None;
      make_port "out" [audio_class; output_class] [] [] None None None;
      make_port "gain" [control_class; input_class] [] []
        (Some gfloat_1) (Some gfloat_0) (Some gfloat_2);
      make_port "level" [control_class; output_class] [] [] None None None ]
    [].

Definition amp_klass : GstLV2Class := gst_lv2_base_init amp_plugin.

(** An element of [amp_klass] as the framework lays it out and
    [gst_lv2_init] initialises it. *)
Definition amp_element : GstLV2 :=
  gst_lv2_init
    {| group_in := []; group_out := [];
       audio_in := [ptr_buffer 100 0]; audio_out := [ptr_buffer 200 0];
       control_in := [gfloat_1]; control_out := [gfloat_0];
       lv2_plugin := amp_plugin; instance := None; activated := false |}
    amp_klass.

Definition amp_world : World :=
  {| self := amp_element; trace := []; instantiations := [Some 1; Some 2] |}.

(** A stereo effect in the shape of port groups: two audio inputs in the
    group "in", two audio outputs in the group "out", one gain control. *)
Definition stereo_in_group : SLV2Value := slv2_value_new_uri "http://example.org/stereo#in".
Definition stereo_out_group : SLV2Value := slv2_value_new_uri "http://example.org/stereo#out".

Definition stereo_plugin : SLV2Plugin :=
  make_plugin "http://example.org/stereo"
    [ make_port "in_l" [audio_class; input_class] [] [stereo_in_group] None None None;
      make_port "in_r" [audio_class; input_class] [] [stereo_in_group] None None None;
      make_port "out_l" [audio_class; output_class] [] [stereo_out_group] None None None;
      make_port "out_r" [audio_class; output_class] [] [stereo_out_group] None None None;
      make_port "gain" [control_class; input_class] [] []
        (Some gfloat_1) (Some gfloat_0) (Some gfloat_2) ]
    [ (stereo_in_group, lv2_symbol_pred, slv2_value_new_string "in");
      (stereo_out_group, lv2_symbol_pred, slv2_value_new_string "out") ].

Definition stereo_klass : GstLV2Class := gst_lv2_base_init stereo_plugin.

Definition stereo_world : World :=
  {| self :=
       {| group_in := [{| buffer := ptr_buffer 100 0 |}];
          group_out := [{| buffer := ptr_buffer 200 0 |}];
          audio_in := []; audio_out := [];
          control_in := [gfloat_1]; control_out := [];
          lv2_plugin := stereo_plugin; instance := Some 7; activated := true |};
     trace := []; instantiations := [] |}.

(** ** Well-formed classes and elements *)

(** The counts of a class are the lengths of its arrays, as
    [gst_lv2_base_init] sets them. *)
Definition class_counts_consistent (klass : GstLV2Class) : Prop :=
  num_group_in klass = Z.of_nat (length (in_groups klass))
  ∧ num_group_out klass = Z.of_nat (length (out_groups klass))
  ∧ num_audio_in klass = Z.of_nat (length (audio_in_ports klass))
  ∧ num_audio_out klass = Z.of_nat (length (audio_out_ports klass))
  ∧ num_control_in klass = Z.of_nat (length (control_in_ports klass))
  ∧ num_control_out klass = Z.of_nat (length (control_out_ports klass)).

(** The framework gives the element one buffer per group and per
    ungrouped audio port of its class. *)
Definition buffers_allocated (klass : GstLV2Class) (lv2 : GstLV2) : Prop :=
  length (group_in lv2) = length (in_groups klass)
  ∧ length (group_out lv2) = length (out_groups klass)
  ∧ length (audio_in lv2) = length (audio_in_ports klass)
  ∧ length (audio_out lv2) = length (audio_out_ports klass).

(** The sample count of the contiguous buffer of a group, members times
    frames, is a [guint]. *)
Definition group_buffer_fits (nframes : Z) (g : GstLV2Group) : Prop :=
  Z.of_nat (length (group_ports g)) * nframes ≤ G_MAXUINT.

(** ** The calls of one processing cycle, in the words of the specification *)

(** Member [k] of a group is bound at offset [k * nframes] of the group's
    buffer. *)
Definition group_binding (h : SLV2Instance) (nframes : Z) (lv2_group : GstLV2Group)
    (gst_group : GstSignalProcessorGroup) : list Call :=
  imap (λ k member,
          slv2_instance_connect_port_call h (port_index member)
            (ptr_add (buffer gst_group) (Z.of_nat k * nframes)))
       (group_ports lv2_group).

Definition port_binding (h : SLV2Instance) (lv2_port : GstLV2Port) (data : Pointer)
    : Call :=
  slv2_instance_connect_port_call h (port_index lv2_port) data.

(** Grouped inputs, ungrouped audio inputs, grouped outputs, ungrouped
    audio outputs, then one run. *)
Definition process_calls (h : SLV2Instance) (nframes : Z) (klass : GstLV2Class)
    (lv2 : GstLV2) : list Call :=
  concat (zip_with (group_binding h nframes) (in_groups klass) (group_in lv2))
  ++ zip_with (port_binding h) (audio_in_ports klass) (audio_in lv2)
  ++ concat (zip_with (group_binding h nframes) (out_groups klass) (group_out lv2))
  ++ zip_with (port_binding h) (audio_out_ports klass) (audio_out lv2)
  ++ [slv2_instance_run_call h nframes].

(** The control bindings [gst_lv2_setup] makes on instance [h]: slot [i]
    of each control array to the port in position [i] of its bucket. *)
Definition control_bindings (h : SLV2Instance) (klass : GstLV2Class) : list Call :=
  imap (λ i desc,
          slv2_instance_connect_port_call h (port_index desc)
            (ptr_control_in (Z.of_nat i)))
       (control_in_ports klass)
  ++ imap (λ i desc,
             slv2_instance_connect_port_call h (port_index desc)
               (ptr_control_out (Z.of_nat i)))
          (control_out_ports klass).

(** One grouped and one ungrouped audio input, in that order. *)
Definition mixed_plugin : SLV2Plugin :=
  make_plugin "http://example.org/mixed"
    [ make_port "in_l" [audio_class; input_class] [] [stereo_in_group] None None None;
      make_port "side" [audio_class; input_class] [] [] None None None ]
    [ (stereo_in_group, lv2_symbol_pred, slv2_value_new_string "in") ].

(** ** Views of the port scan *)

(** A port outside every group that is neither an audio nor a control
    port. *)
Definition port_unsupported (port : SLV2Port) : bool :=
  bool_decide (slv2_port_get_value port in_group_pred = [])
  && negb (slv2_port_is_a port audio_class)
  && negb (slv2_port_is_a port control_class).

(** Every port descriptor the scan holds, in any bucket. *)
Definition scan_descs (st : PortScan) : list GstLV2Port :=
  (scan_in_groups st ≫= group_ports) ++ (scan_out_groups st ≫= group_ports)
  ++ scan_audio_in st ++ scan_audio_out st
  ++ scan_control_in st ++ scan_control_out st.

(** The LV2 port numbers found in the buckets of a class. *)
Definition class_port_indices (klass : GstLV2Class) : list Z :=
  port_index
    <$> (in_groups klass ≫= group_ports) ++ (out_groups klass ≫= group_ports)
        ++ audio_in_ports klass ++ audio_out_ports klass
        ++ control_in_ports klass ++ control_out_ports klass.

(** The port numbers from [j] on of the ports that are not dropped. *)
Fixpoint supported_indices (j : Z) (ports : list SLV2Port) : list Z :=
  match ports with
  | [] => []
  | port :: rest =>
      (if port_unsupported port then [] else [j]) ++ supported_indices (j + 1) rest
  end.

(** The pad slots given out in one direction: those of the groups, then
    those of the ungrouped audio ports. *)
Definition scan_pads (is_input : bool) (st : PortScan) : list Z :=
  if is_input
  then (group_pad <$> scan_in_groups st) ++ (port_pad <$> scan_audio_in st)
  else (group_pad <$> scan_out_groups st) ++ (port_pad <$> scan_audio_out st).

Definition scan_pad_index (is_input : bool) (st : PortScan) : Z :=
  if is_input then in_pad_index st else out_pad_index st.

(** The claim of two independent slot sequences per direction, in its
    weakest reading: the first group and the first ungrouped audio port of a
    direction both have slot 0. *)
Definition first_slots_zero (klass : GstLV2Class) : Prop :=
  (∀ g, in_groups klass !! 0%nat = Some g → group_pad g = 0)
  ∧ (∀ d, audio_in_ports klass !! 0%nat = Some d → port_pad d = 0)
  ∧ (∀ g, out_groups klass !! 0%nat = Some g → group_pad g = 0)
  ∧ (∀ d, audio_out_ports klass !! 0%nat = Some d → port_pad d = 0).

(** ** The category of a plugin, in the words of the specification *)

Definition count_ports (f : SLV2Port → bool) (p : SLV2Plugin) : Z :=
  Z.of_nat (length (filter (λ port, f port = true) (plugin_ports p))).

Definition is_audio_input (port : SLV2Port) : bool :=
  slv2_port_is_a port audio_class && slv2_port_is_a port input_class.
Definition is_audio_output (port : SLV2Port) : bool :=
  slv2_port_is_a port audio_class && slv2_port_is_a port output_class.
Definition is_control_output (port : SLV2Port) : bool :=
  slv2_port_is_a port control_class && slv2_port_is_a port output_class.

(** Zero audio inputs: source; audio inputs, zero audio outputs and zero
    control outputs: sink; audio inputs, zero audio outputs and a control
    output: analyzer sink; otherwise filter/effect. *)
Definition spec_category (p : SLV2Plugin) : string :=
  if count_ports is_audio_input p =? 0 then "Source/Audio/LV2"
  else if count_ports is_audio_output p =? 0 then
    if count_ports is_control_output p =? 0
    then "Sink/Audio/LV2" else "Sink/Analyzer/Audio/LV2"
  else "Filter/Effect/Audio/LV2".

(** The ports the counts of the class do take: those outside every group. *)
Definition ungrouped_audio (is_input : bool) (port : SLV2Port) : bool :=
  bool_decide (slv2_port_get_value port in_group_pred = [])
  && slv2_port_is_a port audio_class
  && bool_decide (slv2_port_is_a port input_class = is_input).
Definition ungrouped_control (is_input : bool) (port : SLV2Port) : bool :=
  bool_decide (slv2_port_get_value port in_group_pred = [])
  && negb (slv2_port_is_a port audio_class)
  && slv2_port_is_a port control_class
  && bool_decide (slv2_port_is_a port input_class = is_input).

Definition scan_group_pads (is_input : bool) (st : PortScan) : list Z :=
  group_pad <$> scan_groups is_input st.
Definition scan_audio_pads (is_input : bool) (st : PortScan) : list Z :=
  port_pad <$> (if is_input then scan_audio_in st else scan_audio_out st).

(** After [n] ports, the slots given out in each direction are the numbers
    below the pad counter of that direction, each once, and they increase
    along the groups and along the ungrouped audio ports. *)
Definition pads_inv (n : Z) (st : PortScan) : Prop :=
  ∀ is_input,
    0 ≤ scan_pad_index is_input st ≤ n
    ∧ scan_pads is_input st ≡ₚ seqZ 0 (scan_pad_index is_input st)
    ∧ StronglySorted Z.lt (scan_group_pads is_input st)
    ∧ StronglySorted Z.lt (scan_audio_pads is_input st).

(** An audio input, a port of a class the bridge does not know, and an
    audio output. *)
Definition event_plugin : SLV2Plugin :=
  make_plugin "http://example.org/event"
    [ make_port "in" [audio_class; input_class] [] [] None None None;
      make_port "midi"
        [slv2_value_new_uri "http://lv2plug.in/ns/ext/event#EventPort"; input_class]
        [] [] None None None;
      make_port "out" [audio_class; output_class] [] [] None None None ]
    [].

Definition scan_audio (is_input : bool) (st : PortScan) : list GstLV2Port :=
  if is_input then scan_audio_in st else scan_audio_out st.
Definition scan_control (is_input : bool) (st : PortScan) : list GstLV2Port :=
  if is_input then scan_control_in st else scan_control_out st.

Definition count_if (b : bool) : nat := if b then 1%nat else 0%nat.

(** ** Reading a parameter specification *)

Inductive GParamValue : Type :=
  | param_boolean (b : bool)
  | param_int (z : option Z)
  | param_float (f : gfloat).

Definition pspec_default (pspec : GParamSpec) : GParamValue :=
  match pspec with
  | g_param_spec_boolean _ d _ => param_boolean d
  | g_param_spec_int _ _ _ d _ => param_int d
  | g_param_spec_float _ _ _ d _ => param_float d
  end.

(** A boolean specification has no bounds. *)
Definition pspec_minimum (pspec : GParamSpec) : option GParamValue :=
  match pspec with
  | g_param_spec_boolean _ _ _ => None
  | g_param_spec_int _ lo _ _ _ => Some (param_int lo)
  | g_param_spec_float _ lo _ _ _ => Some (param_float lo)
  end.

Definition pspec_maximum (pspec : GParamSpec) : option GParamValue :=
  match pspec with
  | g_param_spec_boolean _ _ _ => None
  | g_param_spec_int _ _ hi _ _ => Some (param_int hi)
  | g_param_spec_float _ _ hi _ _ => Some (param_float hi)
  end.

(** A value of the plugin's range as the specification of the port holds
    it: converted to [gint] for an integer port. *)
Definition range_value (port : SLV2Port) (f : gfloat) : GParamValue :=
  if slv2_port_has_property port integer_prop
  then param_int (gfloat_to_gint f) else param_float f.

(** The claim on defaults outside the bounds, for the port numbered
    [portnum] of the class: the specification exists, keeps the default of
    the plugin's range, has its lower bound equal to the default when the
    default is below the lower bound of the range, its upper bound equal to
    the default when the default is above the upper bound of the range, and
    each correction is logged. *)
Definition default_kept_and_bounds_widened (klass : GstLV2Class) (portnum : Z)
    (port : SLV2Port) : Prop :=
  let def := default gfloat_0 (port_default port) in
  let lower := default gfloat_0 (port_minimum port) in
  let upper := default gfloat_1 (port_maximum port) in
  ∃ pspec warnings,
    gst_lv2_class_get_param_spec klass portnum = Some (pspec, warnings)
    ∧ pspec_default pspec = range_value port def
    ∧ (gfloat_lt def lower = true →
         pspec_minimum pspec = Some (pspec_default pspec)
         ∧ warn_lower_bound (plugin_uri (plugin klass)) lower def ∈ warnings)
    ∧ (gfloat_gt def upper = true →
         pspec_maximum pspec = Some (pspec_default pspec)
         ∧ warn_upper_bound (plugin_uri (plugin klass)) upper def ∈ warnings).

(** A "wet" control with range [0, 1] and default 1.5, and a toggled
    "mute" control with the same range and default. *)
Definition wet_port : SLV2Port :=
  make_port "wet" [control_class; input_class] [] []
    (Some gfloat_1_5) (Some gfloat_0) (Some gfloat_1).
Definition mute_port : SLV2Port :=
  make_port "mute" [control_class; input_class] [toggled_prop] []
    (Some gfloat_1_5) (Some gfloat_0) (Some gfloat_1).
(** An integer "steps" control with the same range and default. *)
Definition steps_port : SLV2Port :=
  make_port "steps" [control_class; input_class] [integer_prop] []
    (Some gfloat_1_5) (Some gfloat_0) (Some gfloat_1).

Definition reverb_plugin : SLV2Plugin :=
  make_plugin "http://example.org/reverb"
    [ make_port "in" [audio_class; input_class] [] [] None None None;
      make_port "out" [audio_class; output_class] [] [] None None None;
      wet_port; mute_port ]
    [].

(** ** Sample discovery *)

(** Two plugins whose URIs differ only in characters outside the valid
    set: both get the type name "http---example-org-fx-1". *)
Definition fx_plugin_a : SLV2Plugin := make_plugin "http://example.org/fx#1" [] [].
Definition fx_plugin_b : SLV2Plugin := make_plugin "http://example.org/fx/1" [] [].

Definition empty_type_system : GTypeSystem :=
  {| types := ∅; element_factories := [] |}.

(** ** Sequences of hook calls *)

(** The calls the framework and GObject make on an element. *)
Inductive HookCall : Type :=
  | hook_setup (sample_rate : Z)
  | hook_start
  | hook_stop
  | hook_cleanup
  | hook_process (nframes : Z)
  | hook_set_property (prop_id : Z) (value : GValue) (pspec_value_type : GType)
  | hook_get_property (prop_id : Z) (pspec_value_type : GType).

Definition run_hook (klass : GstLV2Class) (c : HookCall) : M unit :=
  match c with
  | hook_setup sample_rate => gst_lv2_setup klass sample_rate;; mret ()
  | hook_start => gst_lv2_start;; mret ()
  | hook_stop => gst_lv2_stop
  | hook_cleanup => gst_lv2_cleanup
  | hook_process nframes => gst_lv2_process klass nframes
  | hook_set_property prop_id value ty => gst_lv2_set_property klass prop_id value ty
  | hook_get_property prop_id ty => gst_lv2_get_property klass prop_id ty;; mret ()
  end.

Definition run_hooks (klass : GstLV2Class) (cs : list HookCall) : M unit :=
  for_each cs (run_hook klass).

(** An activated element holds an instance. *)
Definition instance_consistent (lv2 : GstLV2) : Prop :=
  activated lv2 = true → instance lv2 ≠ None.

(** What no hook changes: the arrays of buffer pointers, the plugin and
    the numbers of control input and control output slots.  The values of
    the control outputs are not part of it: they are the plugin's to write. *)
Definition same_layout (lv2 lv2' : GstLV2) : Prop :=
  group_in lv2' = group_in lv2 ∧ group_out lv2' = group_out lv2
  ∧ audio_in lv2' = audio_in lv2 ∧ audio_out lv2' = audio_out lv2
  ∧ length (control_in lv2') = length (control_in lv2)
  ∧ length (control_out lv2') = length (control_out lv2)
  ∧ lv2_plugin lv2' = lv2_plugin lv2.

(** A computation that only records calls: it returns in the world it
    started in, with calls added, or stops on undefined behaviour. *)
Definition only_emits {A : Type} (m : M A) : Prop :=
  ∀ w, match m w with
       | Returns _ w' => ∃ cs, w' = add_trace w cs
       | Faults f => f = undefined_behaviour
       end.

(** One whole life of an element. *)
Definition lifecycle (klass : GstLV2Class) (sample_rate : Z) : M (bool * bool) :=
  configured ← gst_lv2_setup klass sample_rate;
  started ← gst_lv2_start;
  gst_lv2_stop;;
  gst_lv2_cleanup;;
  mret (configured, started).

(** ** The buckets of a class, port by port *)

(** The numbers, counted from [j], of the ports that satisfy [f], in
    declared order. *)
Fixpoint indices_where (f : SLV2Port → bool) (j : Z) (ports : list SLV2Port) : list Z :=
  match ports with
  | [] => []
  | port :: rest => (if f port then [j] else []) ++ indices_where f (j + 1) rest
  end.

(** A member of the group [uri] of one direction: a port whose first
    inGroup value is [uri]. *)
Definition port_in_group (is_input : bool) (uri : SLV2Value) (port : SLV2Port) : bool :=
  bool_decide (head (slv2_port_get_value port in_group_pred) = Some uri)
  && bool_decide (slv2_port_is_a port input_class = is_input).

(** What the group branch of the port loop does to the group array of the
    port's direction. *)
Definition group_with_port (lv2plugin : SLV2Plugin) (uri : SLV2Value) (pad : Z)
    (desc : GstLV2Port) (groups : list GstLV2Group) : list GstLV2Group :=
  match gst_lv2_class_find_group groups uri with
  | Some i => alter (group_append_port desc) i groups
  | None =>
      groups
      ++ [ {| group_uri := uri; group_pad := pad;
              group_symbol :=
                head (slv2_plugin_get_value_for_subject lv2plugin uri lv2_symbol_pred);
              group_ports := [desc] |} ]
  end.

(** The groups of one direction hold, for the ports seen so far, the
    members [members uri] of each group URI. *)
Definition groups_inv (lv2plugin : SLV2Plugin) (members : SLV2Value → list Z)
    (groups : list GstLV2Group) : Prop :=
  NoDup (group_uri <$> groups)
  ∧ (∀ g, g ∈ groups →
       port_index <$> group_ports g = members (group_uri g)
       ∧ group_ports g ≠ []
       ∧ group_symbol g
         = head (slv2_plugin_get_value_for_subject lv2plugin (group_uri g)
                   lv2_symbol_pred))
  ∧ (∀ uri, uri ∉ group_uri <$> groups → members uri = []).

Definition pspec_flags (pspec : GParamSpec) : Z :=
  match pspec with
  | g_param_spec_boolean _ _ flags
  | g_param_spec_int _ _ _ _ flags
  | g_param_spec_float _ _ _ _ flags => flags
  end.

Definition pspec_name (pspec : GParamSpec) : string :=
  match pspec with
  | g_param_spec_boolean name _ _
  | g_param_spec_int name _ _ _ _
  | g_param_spec_float name _ _ _ _ => name
  end.

(** A fresh element of the class of [event_plugin], with one buffer per
    audio port, and an SLV2 that will hand out instance 7. *)
Definition event_world : World :=
  {| self := {| group_in := []; group_out := [];
                audio_in := [ptr_buffer 100 0]; audio_out := [ptr_buffer 200 0];
                control_in := []; control_out := [];
                lv2_plugin := event_plugin; instance := None;
                activated := false |};
     trace := []; instantiations := [Some 7] |}.

(** The calls the inner loop of [gst_lv2_process] makes for one group:
    member [k] at offset [k * nframes], the product taken in [guint]. *)
Definition group_connections (h : SLV2Instance) (nframes : Z)
    (lv2_group : GstLV2Group) (gst_group : GstSignalProcessorGroup) : list Call :=
  imap (λ k member,
          slv2_instance_connect_port_call h (port_index member)
            (ptr_add (buffer gst_group) (guint_mul (Z.of_nat k) nframes)))
       (group_ports lv2_group).

(** The port numbers of the [slv2_instance_connect_port] calls in a trace,
    in order. *)
Definition connected_ports (cs : list Call) : list Z :=
  omap (λ c, match c with
             | slv2_instance_connect_port_call _ port _ => Some port
             | _ => None
             end) cs.

(** * Lemmas on machine numbers *)

Lemma guint_wrap_small z : guint_range z → guint_wrap z = z.
Proof. unfold guint_range, guint_wrap, G_MAXUINT. intros ?. apply Z.mod_small. lia. Qed.

Lemma guint_sub_1 i : 1 ≤ i ≤ G_MAXUINT → guint_sub i 1 = i - 1.
Proof. intros ?. apply guint_wrap_small. unfold guint_range. lia. Qed.

Lemma guint_sub_0_1 : guint_sub 0 1 = G_MAXUINT.
Proof. reflexivity. Qed.

Lemma guint_add_small a b : guint_range (a + b) → guint_add a b = a + b.
Proof. apply guint_wrap_small. Qed.

Lemma guint_mul_small a b : guint_range (a * b) → guint_mul a b = a * b.
Proof. apply guint_wrap_small. Qed.

(** * Lemmas on the monad *)

Lemma add_trace_nil w : add_trace w [] = w.
Proof. destruct w. unfold add_trace. simpl. by rewrite app_nil_r. Qed.

Lemma add_trace_app w cs1 cs2 :
  add_trace (add_trace w cs1) cs2 = add_trace w (cs1 ++ cs2).
Proof. unfold add_trace. simpl. by rewrite app_assoc. Qed.

Lemma bind_returns {A B} (m : M A) (f : A → M B) (w w' : World) (a : A) :
  m w = Returns a w' → (m ≫= f) w = f a w'.
Proof. intros Hm. unfold mbind, M_bind. by rewrite Hm. Qed.

(** Run the first action of a sequence with the given lemma. *)
Tactic Notation "mstep" tactic3(tac) := erewrite bind_returns; [|tac].

Lemma emit_add_trace c w : emit c w = Returns () (add_trace w [c]).
Proof. reflexivity. Qed.

Lemma array_get_lookup {A} (l : list A) (i : nat) (a : A) (w : World) :
  l !! i = Some a → array_get l (Z.of_nat i) w = Returns a w.
Proof.
  intros Hl. unfold array_get.
  destruct (Z.leb_spec 0 (Z.of_nat i)); [|lia].
  by rewrite Nat2Z.id, Hl.
Qed.

Lemma array_get_lookup_Z {A} (l : list A) (i : Z) (a : A) (w : World) :
  0 ≤ i → l !! Z.to_nat i = Some a → array_get l i w = Returns a w.
Proof.
  intros Hi Hl. rewrite <- (Z2Nat.id i) by done. by apply array_get_lookup.
Qed.

(** * The property accessors *)

Section properties.
Context (klass : GstLV2Class).
Hypothesis nci_range : guint_range (num_control_in klass).

Lemma set_property_rejected i v ty w :
  guint_range i → ¬ (1 ≤ i ≤ num_control_in klass) →
  gst_lv2_set_property klass i v ty w
  = Returns () (add_trace w
      [g_return_if_fail_warning "prop_id < gsp_class->num_control_in"]).
Proof using nci_range.
  intros Hi Hout. unfold gst_lv2_set_property.
  destruct (decide (i = 0)) as [->|Hne].
  - rewrite guint_sub_0_1.
    destruct (Z.ltb_spec G_MAXUINT (num_control_in klass)); [|done].
    unfold guint_range in *. lia.
  - unfold guint_range in *. rewrite guint_sub_1 by lia.
    destruct (Z.ltb_spec (i - 1) (num_control_in klass)); [lia|done].
Qed.

Lemma set_property_stores i v ty w :
  1 ≤ i ≤ num_control_in klass →
  num_control_in klass ≤ Z.of_nat (length (control_in (self w))) →
  ty ≠ G_TYPE_OTHER →
  gst_lv2_set_property klass i v ty w
  = store_control_in (i - 1)
      match ty with
      | G_TYPE_BOOLEAN => if g_value_get_boolean v then gfloat_0 else gfloat_1
      | G_TYPE_INT => gint_to_gfloat (g_value_get_int v)
      | _ => g_value_get_float v
      end w.
Proof using nci_range.
  intros Hi Hlen Hty. unfold gst_lv2_set_property, guint_range in *.
  rewrite guint_sub_1 by lia.
  destruct (Z.ltb_spec (i - 1) (num_control_in klass)); [|lia].
  by destruct ty.
Qed.

Lemma store_control_in_ok k x w :
  0 ≤ k < Z.of_nat (length (control_in (self w))) →
  store_control_in k x w
  = Returns () {| self := set_control_in (<[Z.to_nat k := x]> (control_in (self w)))
                            (self w);
                  trace := trace w; instantiations := instantiations w |}.
Proof.
  intros Hk. unfold store_control_in, mbind, M_bind, get_self.
  by rewrite bool_decide_eq_true_2.
Qed.

Lemma get_property_control_in i ty w :
  1 ≤ i ≤ num_control_in klass →
  gst_lv2_get_property klass i ty w
  = get_property_value ty (control_in (self w)) (i - 1) w.
Proof using nci_range.
  intros Hi. unfold gst_lv2_get_property, mbind, M_bind, get_self, guint_range in *.
  rewrite guint_sub_1 by lia.
  by destruct (Z.ltb_spec (i - 1) (num_control_in klass)); [|lia].
Qed.

Lemma get_property_control_out i ty w :
  guint_range (num_control_in klass + num_control_out klass) →
  num_control_in klass < i ≤ num_control_in klass + num_control_out klass →
  gst_lv2_get_property klass i ty w
  = get_property_value ty (control_out (self w)) (i - 1 - num_control_in klass) w.
Proof using nci_range.
  intros Hsum Hi.
  unfold gst_lv2_get_property, mbind, M_bind, get_self, guint_range in *.
  rewrite guint_sub_1 by lia. rewrite guint_add_small by done.
  destruct (Z.ltb_spec (i - 1) (num_control_in klass)); [lia|].
  destruct
    (Z.ltb_spec (i - 1) (num_control_in klass + num_control_out klass)); [|lia].
  unfold guint_sub. rewrite guint_wrap_small; [done|]. unfold guint_range. lia.
Qed.

Lemma get_property_value_float controls k x w :
  0 ≤ k → controls !! Z.to_nat k = Some x →
  get_property_value G_TYPE_FLOAT controls k w = Returns (Some (g_value_float x)) w.
Proof.
  intros Hk Hx. unfold get_property_value, mbind, M_bind.
  by rewrite (array_get_lookup_Z _ _ x).
Qed.

Lemma get_property_value_boolean controls k x w :
  0 ≤ k → controls !! Z.to_nat k = Some x →
  get_property_value G_TYPE_BOOLEAN controls k w
  = Returns (Some (g_value_boolean (gfloat_gt x gfloat_0))) w.
Proof.
  intros Hk Hx. unfold get_property_value, mbind, M_bind.
  by rewrite (array_get_lookup_Z _ _ x).
Qed.

End properties.

(** C8: properties are addressed by a 1-based index over the control
    inputs followed by the control outputs.  Getting index [i] with
    [1 <= i <= num_control_in] reads [control_in[i-1]]; getting index [i]
    with [num_control_in < i <= num_control_in + num_control_out] reads
    [control_out[i-1-num_control_in]]; setting any index outside
    [1..num_control_in] (out of range, or a control output) logs the failed
    check and returns with the element, hence every control slot,
    unchanged. *)
Theorem property_index_space (klass : GstLV2Class) (w : World) :
  guint_range (num_control_in klass) →
  guint_range (num_control_in klass + num_control_out klass) →
  (∀ i ty, 1 ≤ i ≤ num_control_in klass →
     gst_lv2_get_property klass i ty w
     = get_property_value ty (control_in (self w)) (i - 1) w
     ∧ ∀ x, control_in (self w) !! Z.to_nat (i - 1) = Some x →
         gst_lv2_get_property klass i G_TYPE_FLOAT w
         = Returns (Some (g_value_float x)) w)
  ∧ (∀ i ty,
       num_control_in klass < i ≤ num_control_in klass + num_control_out klass →
       gst_lv2_get_property klass i ty w
       = get_property_value ty (control_out (self w)) (i - 1 - num_control_in klass) w
       ∧ ∀ x, control_out (self w) !! Z.to_nat (i - 1 - num_control_in klass) = Some x →
           gst_lv2_get_property klass i G_TYPE_FLOAT w
           = Returns (Some (g_value_float x)) w)
  ∧ (∀ i v ty, guint_range i → ¬ (1 ≤ i ≤ num_control_in klass) →
       ∃ w', gst_lv2_set_property klass i v ty w = Returns () w'
             ∧ self w' = self w
             ∧ trace w' = trace w
                 ++ [g_return_if_fail_warning "prop_id < gsp_class->num_control_in"]).
Proof.
  intros Hnci Hsum. split; [|split].
  - intros i ty Hi. split.
    + by apply get_property_control_in.
    + intros x Hx. rewrite get_property_control_in by done.
      apply get_property_value_float; [lia|done].
  - intros i ty Hi. split.
    + by apply get_property_control_out.
    + intros x Hx. rewrite get_property_control_out by done.
      apply get_property_value_float; [lia|done].
  - intros i v ty Hi Hout. eexists. split.
    + by apply set_property_rejected.
    + done.
Qed.

Lemma property_index_space_witness :
  gst_lv2_get_property amp_klass 1 G_TYPE_FLOAT amp_world
    = Returns (Some (g_value_float gfloat_1)) amp_world
  ∧ gst_lv2_get_property amp_klass 2 G_TYPE_FLOAT amp_world
    = Returns (Some (g_value_float gfloat_0)) amp_world
  ∧ ∃ w', gst_lv2_set_property amp_klass 2 (g_value_float gfloat_2) G_TYPE_FLOAT
            amp_world = Returns () w'
          ∧ self w' = self amp_world.
Proof.
  assert (H1 : guint_range (num_control_in amp_klass)) by (vm_compute; split; discriminate).
  assert (H2 : guint_range (num_control_in amp_klass + num_control_out amp_klass))
    by (vm_compute; split; discriminate).
  destruct (property_index_space amp_klass amp_world H1 H2) as (Hin & Hout & Hset).
  split; [|split].
  - apply (Hin 1 G_TYPE_FLOAT); [vm_compute; split; discriminate | reflexivity].
  - apply (Hout 2 G_TYPE_FLOAT); [vm_compute; split; [reflexivity | discriminate]
                                 | reflexivity].
  - destruct (Hset 2 (g_value_float gfloat_2) G_TYPE_FLOAT) as (w' & Hw' & Hself & _).
    + vm_compute; split; discriminate.
    + vm_compute. intros [_ H]. by apply H.
    + by exists w'.
Defined.

(** C10: for a boolean control input the setter stores 0.0 for TRUE and
    1.0 for FALSE, the getter reports TRUE exactly when the stored value is
    greater than 0.0, and so a get right after a set returns the negation
    of the value set. *)
Theorem boolean_property_reads_back_negated (klass : GstLV2Class) (w : World)
    (i : Z) (b : bool) :
  guint_range (num_control_in klass) →
  1 ≤ i ≤ num_control_in klass →
  num_control_in klass ≤ Z.of_nat (length (control_in (self w))) →
  ∃ w', gst_lv2_set_property klass i (g_value_boolean b) G_TYPE_BOOLEAN w
          = Returns () w'
        ∧ control_in (self w') !! Z.to_nat (i - 1)
          = Some (if b then gfloat_0 else gfloat_1)
        ∧ (∀ w2 x, control_in (self w2) !! Z.to_nat (i - 1) = Some x →
             gst_lv2_get_property klass i G_TYPE_BOOLEAN w2
             = Returns (Some (g_value_boolean (gfloat_gt x gfloat_0))) w2)
        ∧ gst_lv2_get_property klass i G_TYPE_BOOLEAN w'
          = Returns (Some (g_value_boolean (negb b))) w'.
Proof.
  intros Hnci Hi Hlen.
  assert (Hget : ∀ w2 x, control_in (self w2) !! Z.to_nat (i - 1) = Some x →
             gst_lv2_get_property klass i G_TYPE_BOOLEAN w2
             = Returns (Some (g_value_boolean (gfloat_gt x gfloat_0))) w2).
  { intros w2 x Hx. rewrite get_property_control_in by done.
    apply get_property_value_boolean; [lia|done]. }
  eexists. split; [|split; [|split]].
  - rewrite set_property_stores by done. simpl.
    apply store_control_in_ok. lia.
  - simpl. apply list_lookup_insert_eq. lia.
  - exact Hget.
  - erewrite Hget; [|simpl; apply list_lookup_insert_eq; lia].
    by destruct b.
Qed.

Lemma boolean_property_reads_back_negated_witness :
  ∃ w', gst_lv2_set_property amp_klass 1 (g_value_boolean true) G_TYPE_BOOLEAN
          amp_world = Returns () w'
        ∧ gst_lv2_get_property amp_klass 1 G_TYPE_BOOLEAN w'
          = Returns (Some (g_value_boolean false)) w'.
Proof.
  destruct (boolean_property_reads_back_negated amp_klass amp_world 1 true)
    as (w' & Hset & _ & _ & Hget).
  - vm_compute; split; discriminate.
  - vm_compute; split; discriminate.
  - vm_compute; discriminate.
  - by exists w'.
Defined.

(** * Loops that record calls *)

Lemma for_each_emits {A} (l : list A) (body : A → M unit) (calls : A → list Call) :
  (∀ a w, a ∈ l → body a w = Returns () (add_trace w (calls a))) →
  ∀ w, for_each l body w = Returns () (add_trace w (concat (calls <$> l))).
Proof.
  induction l as [|a l IH]; intros Hbody w; simpl.
  - by rewrite add_trace_nil.
  - unfold mbind, M_bind. rewrite Hbody by left.
    rewrite IH by (intros; apply Hbody; by right).
    by rewrite add_trace_app.
Qed.

Lemma fmap_seqZ_lookup {A B} (l : list A) (g : nat → A → B) (d : B) :
  (λ z : Z, from_option (g (Z.to_nat z)) d (l !! Z.to_nat z))
    <$> seqZ 0 (Z.of_nat (length l))
  = imap g l.
Proof.
  apply list_eq. intros i. rewrite list_lookup_fmap, list_lookup_imap.
  destruct (l !! i) as [a|] eqn:Hi.
  - apply lookup_lt_Some in Hi as Hlt.
    rewrite lookup_seqZ_lt by lia. simpl. by rewrite Z.add_0_l, Nat2Z.id, Hi.
  - apply lookup_ge_None in Hi. by rewrite lookup_seqZ_ge by lia.
Qed.

(** A counted loop over a C array whose body records [calls i a] for
    element [a] at position [i]. *)
Lemma for_upto_emits {A} (l : list A) (n : Z) (body : Z → M unit)
    (calls : nat → A → list Call) :
  n = Z.of_nat (length l) →
  (∀ i a w, l !! i = Some a →
     body (Z.of_nat i) w = Returns () (add_trace w (calls i a))) →
  ∀ w, for_upto n body w = Returns () (add_trace w (concat (imap calls l))).
Proof.
  intros -> Hbody w. unfold for_upto.
  rewrite <- (fmap_seqZ_lookup l calls []).
  apply for_each_emits. intros z w' Hz.
  apply elem_of_seqZ in Hz.
  destruct (l !! Z.to_nat z) as [a|] eqn:Hl.
  - simpl. rewrite <- (Hbody _ _ _ Hl). f_equal. lia.
  - apply lookup_ge_None in Hl. lia.
Qed.

Lemma imap_lookup_zip_with {A B C} (g : A → B → C) (d : C) (l : list A) (l2 : list B) :
  length l = length l2 →
  imap (λ i a, from_option (g a) d (l2 !! i)) l = zip_with g l l2.
Proof.
  revert l2. induction l as [|a l IH]; intros [|b l2] Hlen; simplify_eq/=; [done|].
  f_equal. by rewrite <- IH.
Qed.

Lemma concat_imap_singleton {A B} (f : nat → A → B) (l : list A) :
  concat (imap (λ k a, [f k a]) l) = imap f l.
Proof.
  revert f. induction l as [|a l IH]; intros f; simpl; [done|].
  f_equal. apply (IH (f ∘ S)).
Qed.

(** * gst_lv2_process *)

Lemma connect_group_emits h gst_groups i lv2_group gst_group nframes w :
  gst_groups !! i = Some gst_group →
  guint_range nframes →
  group_buffer_fits nframes lv2_group →
  connect_group (Some h) gst_groups (Z.of_nat i) lv2_group nframes w
  = Returns () (add_trace w (group_binding h nframes lv2_group gst_group)).
Proof.
  intros Hg Hn Hfit. unfold connect_group, group_binding.
  rewrite (for_upto_emits (group_ports lv2_group) _ _
             (λ k member, [slv2_instance_connect_port_call h (port_index member)
                             (ptr_add (buffer gst_group) (Z.of_nat k * nframes))])).
  - by rewrite concat_imap_singleton.
  - done.
  - intros k member w' Hk. unfold mbind, M_bind.
    rewrite (array_get_lookup _ _ _ _ Hk), (array_get_lookup _ _ _ _ Hg).
    simpl. rewrite emit_add_trace. rewrite guint_mul_small; [done|].
    apply lookup_lt_Some in Hk.
    unfold group_buffer_fits, guint_range in *. nia.
Qed.

Lemma groups_loop_emits h nframes (groups : list GstLV2Group)
    (gst_groups : list GstSignalProcessorGroup) n w :
  n = Z.of_nat (length groups) →
  length gst_groups = length groups →
  guint_range nframes →
  Forall (group_buffer_fits nframes) groups →
  for_upto n (λ i,
    lv2_group ← array_get groups i;
    connect_group (Some h) gst_groups i lv2_group nframes) w
  = Returns ()
      (add_trace w (concat (zip_with (group_binding h nframes) groups gst_groups))).
Proof.
  intros Hn Hlen Hframes Hfit.
  rewrite <- (imap_lookup_zip_with (group_binding h nframes) []) by done.
  apply for_upto_emits; [done|].
  intros i g w' Hi. unfold mbind, M_bind.
  rewrite (array_get_lookup _ _ _ _ Hi).
  destruct (gst_groups !! i) as [gg|] eqn:Hgg.
  - simpl. apply connect_group_emits; [done..|].
    rewrite Forall_lookup in Hfit. by eapply Hfit.
  - apply lookup_ge_None in Hgg. apply lookup_lt_Some in Hi. lia.
Qed.

Lemma ports_loop_emits h (ports : list GstLV2Port) (buffers : list Pointer) n w :
  n = Z.of_nat (length ports) →
  length buffers = length ports →
  for_upto n (λ i,
    lv2_port ← array_get ports i;
    data ← array_get buffers i;
    slv2_instance_connect_port (Some h) (port_index lv2_port) data) w
  = Returns () (add_trace w (zip_with (port_binding h) ports buffers)).
Proof.
  intros Hn Hlen.
  rewrite (for_upto_emits ports n _
             (λ i p, from_option (λ data, [port_binding h p data]) [] (buffers !! i)))
    by first [done | intros i p w' Hi; unfold mbind, M_bind;
                     rewrite (array_get_lookup _ _ _ _ Hi);
                     destruct (buffers !! i) as [data|] eqn:Hb;
                     [ by rewrite (array_get_lookup _ _ _ _ Hb)
                     | apply lookup_ge_None in Hb; apply lookup_lt_Some in Hi; lia ] ].
  f_equal. f_equal. clear Hn. revert buffers Hlen.
  induction ports as [|p ports IH]; intros [|b buffers] Hlen; simplify_eq/=; [done|].
  f_equal. by apply IH.
Qed.

(** C5: one processing cycle on a configured element binds the buffers of
    the grouped inputs, then of the ungrouped audio inputs, then of the
    grouped outputs, then of the ungrouped audio outputs; member [k] of a
    group is bound at offset [k * nframes] of the group's buffer; and the
    cycle ends with exactly one run for [nframes] frames.  The sample count
    of each group buffer is taken to fit a [guint], as the product in the
    code is computed in that type. *)
Theorem process_binds_buckets_in_order_then_runs (klass : GstLV2Class) (w : World)
    (nframes : Z) (h : SLV2Instance) :
  class_counts_consistent klass →
  buffers_allocated klass (self w) →
  instance (self w) = Some h →
  guint_range nframes →
  Forall (group_buffer_fits nframes) (in_groups klass ++ out_groups klass) →
  gst_lv2_process klass nframes w
  = Returns () (add_trace w (process_calls h nframes klass (self w))).
Proof.
  intros (Hgi & Hgo & Hai & Hao & _) (Bgi & Bgo & Bai & Bao) Hinst Hn Hfit.
  apply Forall_app in Hfit as [Hfi Hfo].
  unfold gst_lv2_process, process_calls.
  mstep reflexivity. rewrite Hinst.
  mstep (by apply groups_loop_emits).
  mstep (by apply ports_loop_emits).
  mstep (by apply groups_loop_emits).
  mstep (by apply ports_loop_emits).
  simpl. rewrite emit_add_trace. by rewrite !add_trace_app.
Qed.

Lemma process_binds_buckets_in_order_then_runs_witness :
  gst_lv2_process stereo_klass 64 stereo_world
  = Returns ()
      (add_trace stereo_world
         [ slv2_instance_connect_port_call 7 0 (ptr_buffer 100 0);
           slv2_instance_connect_port_call 7 1 (ptr_buffer 100 64);
           slv2_instance_connect_port_call 7 2 (ptr_buffer 200 0);
           slv2_instance_connect_port_call 7 3 (ptr_buffer 200 64);
           slv2_instance_run_call 7 64 ]).
Proof.
  apply (process_binds_buckets_in_order_then_runs stereo_klass stereo_world 64 7).
  - repeat split; reflexivity.
  - repeat split; reflexivity.
  - reflexivity.
  - vm_compute; split; discriminate.
  - repeat constructor; vm_compute; discriminate.
Defined.

(** * The lifecycle hooks *)

Lemma control_loops_emit h klass w :
  class_counts_consistent klass →
  (for_upto (num_control_in klass) (λ i,
      desc ← array_get (control_in_ports klass) i;
      slv2_instance_connect_port (Some h) (port_index desc) (ptr_control_in i));;
   for_upto (num_control_out klass) (λ i,
      desc ← array_get (control_out_ports klass) i;
      slv2_instance_connect_port (Some h) (port_index desc) (ptr_control_out i));;
   mret true) w
  = Returns true (add_trace w (control_bindings h klass)).
Proof.
  intros (_ & _ & _ & _ & Hci & Hco). unfold control_bindings.
  mstep (apply (for_upto_emits (control_in_ports klass) _ _
             (λ i desc, [slv2_instance_connect_port_call h (port_index desc)
                           (ptr_control_in (Z.of_nat i))]));
              [done | intros i d w' Hi; by mstep (by apply array_get_lookup)]).
  mstep (apply (for_upto_emits (control_out_ports klass) _ _
             (λ i desc, [slv2_instance_connect_port_call h (port_index desc)
                           (ptr_control_out (Z.of_nat i))]));
              [done | intros i d w' Hi; by mstep (by apply array_get_lookup)]).
  by rewrite !concat_imap_singleton, add_trace_app.
Qed.

(** The only state [gst_lv2_setup] checks is the activation flag. *)
Lemma setup_refused_when_activated klass sample_rate w :
  activated (self w) = true →
  gst_lv2_setup klass sample_rate w
  = Returns false (add_trace w [g_return_if_fail_warning "lv2->activated == FALSE"]).
Proof.
  intros Hact. unfold gst_lv2_setup, mbind, M_bind, get_self. by rewrite Hact.
Qed.

(** On an element that is not activated [gst_lv2_setup] instantiates the
    plugin whatever the instance field holds. *)
Lemma setup_when_not_activated klass sample_rate w h rest :
  class_counts_consistent klass →
  activated (self w) = false →
  instantiations w = Some h :: rest →
  gst_lv2_setup klass sample_rate w
  = Returns true
      {| self := set_instance (Some h) (self w);
         trace := trace w
                  ++ slv2_plugin_instantiate_call (plugin_uri (plugin klass))
                       sample_rate (Some h)
                     :: control_bindings h klass;
         instantiations := rest |}.
Proof.
  intros Hk Hact Hi. unfold gst_lv2_setup.
  mstep reflexivity. rewrite Hact. simpl.
  mstep (unfold slv2_plugin_instantiate; rewrite Hi; reflexivity).
  mstep reflexivity. rewrite (bool_decide_eq_true_2 (Some h ≠ None)) by done. simpl.
  etrans; [by apply (control_loops_emit h)|].
  unfold add_trace. simpl. by rewrite <- app_assoc.
Qed.

(** C1, on the configured and not activated element: two calls of
    [gst_lv2_setup] in a row, with no cleanup between them, both return
    TRUE; the second one instantiates the plugin again and overwrites the
    instance obtained by the first. *)
Theorem setup_twice_instantiates_twice :
  ∃ w1 w2,
    gst_lv2_setup amp_klass 44100 amp_world = Returns true w1
    ∧ instance (self w1) = Some 1 ∧ activated (self w1) = false
    ∧ gst_lv2_setup amp_klass 44100 w1 = Returns true w2
    ∧ instance (self w2) = Some 2
    ∧ trace w2
      = [ slv2_plugin_instantiate_call "http://example.org/amp" 44100 (Some 1);
          slv2_instance_connect_port_call 1 2 (ptr_control_in 0);
          slv2_instance_connect_port_call 1 3 (ptr_control_out 0);
          slv2_plugin_instantiate_call "http://example.org/amp" 44100 (Some 2);
          slv2_instance_connect_port_call 2 2 (ptr_control_in 0);
          slv2_instance_connect_port_call 2 3 (ptr_control_out 0) ].
Proof.
  do 2 eexists. split; [vm_compute; reflexivity|]. repeat split.
Qed.

(** * gst_lv2_base_init: the pad templates *)

Lemma base_init_counts_consistent lv2plugin :
  class_counts_consistent (gst_lv2_base_init lv2plugin).
Proof. by repeat split. Qed.

(** C6: the pad template of every ungrouped audio output port is added
    with the sink direction (the fourth loop repeats GST_PAD_SINK), while the
    pad template of every output group is added with the source direction.
    The templates are added in the order input groups, output groups,
    ungrouped inputs, ungrouped outputs. *)
Theorem ungrouped_output_templates_use_sink (lv2plugin : SLV2Plugin) :
  let klass := gst_lv2_base_init lv2plugin in
  (∀ (j : nat) desc, audio_out_ports klass !! j = Some desc →
     pad_templates klass
       !! (length (in_groups klass) + length (out_groups klass)
           + length (audio_in_ports klass) + j)%nat
     = Some {| templ_name :=
                 port_symbol
                   <$> slv2_plugin_get_port_by_index lv2plugin (port_index desc);
               templ_direction := GST_PAD_SINK;
               templ_index := Z.of_nat j;
               templ_channels := 1 |})
  ∧ (∀ (j : nat) group, out_groups klass !! j = Some group →
       pad_templates klass !! (length (in_groups klass) + j)%nat
       = Some {| templ_name := slv2_value_as_string <$> group_symbol group;
                 templ_direction := GST_PAD_SRC;
                 templ_index := Z.of_nat j;
                 templ_channels := Z.of_nat (length (group_ports group)) |}).
Proof.
  simpl. split.
  - intros j desc Hj.
    rewrite lookup_app_r by (rewrite length_imap; lia).
    rewrite lookup_app_r by (rewrite !length_imap; lia).
    rewrite lookup_app_r by (rewrite !length_imap; lia).
    rewrite !length_imap.
    match goal with |- _ !! ?n = _ => replace n with j by lia end.
    by rewrite list_lookup_imap, Hj.
  - intros j group Hj.
    rewrite lookup_app_r by (rewrite length_imap; lia).
    rewrite length_imap.
    match goal with |- _ !! ?n = _ => replace n with j by lia end.
    rewrite lookup_app_l by (rewrite length_imap; by eapply lookup_lt_Some).
    by rewrite list_lookup_imap, Hj.
Qed.

Lemma ungrouped_output_templates_use_sink_witness :
  pad_templates amp_klass !! 1%nat
  = Some {| templ_name := Some "out"; templ_direction := GST_PAD_SINK;
            templ_index := 0; templ_channels := 1 |}
  ∧ pad_templates stereo_klass !! 1%nat
    = Some {| templ_name := Some "out"; templ_direction := GST_PAD_SRC;
              templ_index := 0; templ_channels := 2 |}.
Proof.
  split.
  - apply (proj1 (ungrouped_output_templates_use_sink amp_plugin) 0%nat
             {| port_index := 1; port_pad := 0 |}).
    reflexivity.
  - apply (proj2 (ungrouped_output_templates_use_sink stereo_plugin) 0%nat
             {| group_uri := stereo_out_group; group_pad := 0;
                group_symbol := Some (slv2_value_new_string "out");
                group_ports := [ {| port_index := 2; port_pad := 0 |};
                                 {| port_index := 3; port_pad := 0 |} ] |}).
    reflexivity.
Defined.

(** * gst_lv2_base_init: the class tags *)

(** The tags depend on the three counts of ungrouped ports only. *)
Lemma base_init_klass_tags_by_counts lv2plugin :
  let klass := gst_lv2_base_init lv2plugin in
  klass_tags (details klass)
  = base_init_klass_tags (num_audio_in klass) (num_audio_out klass)
      (num_control_out klass).
Proof. reflexivity. Qed.


(** * The port scan *)

Lemma seqZ_snoc x : 0 ≤ x → seqZ 0 (x + 1) = seqZ 0 x ++ [x].
Proof.
  intros Hx. rewrite seqZ_app by lia.
  rewrite (seqZ_cons (0 + x) 1) by lia. by rewrite (seqZ_nil _ (Z.pred 1)) by lia.
Qed.

Lemma find_group_lt groups uri i :
  gst_lv2_class_find_group groups uri = Some i → (i < length groups)%nat.
Proof.
  unfold gst_lv2_class_find_group.
  destruct (list_find _ groups) as [[i' g]|] eqn:Hfind; intros; simplify_eq/=.
  apply list_find_Some in Hfind as (Hl & _). by eapply lookup_lt_Some.
Qed.

Lemma alter_append_port_descs desc i groups :
  (i < length groups)%nat →
  alter (group_append_port desc) i groups ≫= group_ports
  ≡ₚ (groups ≫= group_ports) ++ [desc].
Proof.
  revert i. induction groups as [|g groups IH]; intros [|i] Hi; csimpl in *; try lia.
  - solve_Permutation.
  - rewrite IH by lia. solve_Permutation.
Qed.

Lemma alter_append_port_pads desc (i : nat) (groups : list GstLV2Group) :
  group_pad <$> alter (group_append_port desc) i groups = group_pad <$> groups.
Proof.
  revert i. induction groups as [|g groups IH]; intros [|i]; csimpl; by rewrite ?IH.
Qed.

Lemma alter_append_port_new desc g (groups : list GstLV2Group) :
  alter (group_append_port desc) (length groups) (groups ++ [g])
  = groups ++ [group_append_port desc g].
Proof.
  replace (length groups) with (length groups + 0)%nat by lia.
  by rewrite alter_app_r.
Qed.

(** Run the scan of one port through all its cases. *)
Ltac scan_port_cases port :=
  unfold scan_port;
  destruct (slv2_port_get_value port in_group_pred) as [|uri uris] eqn:Hgroup;
  [ destruct (slv2_port_is_a port audio_class) eqn:Haudio;
    [|destruct (slv2_port_is_a port control_class) eqn:Hcontrol];
    destruct (slv2_port_is_a port input_class) eqn:Hinput
  | destruct (slv2_port_is_a port input_class) eqn:Hinput;
    unfold scan_groups;
    match goal with
    | |- context [gst_lv2_class_find_group ?gs ?u] =>
        let Hfind := fresh "Hfind" in
        destruct (gst_lv2_class_find_group gs u) as [i|] eqn:Hfind;
        [apply find_group_lt in Hfind|]
    end ];
  simpl.

(** An unsupported port leaves the scan as it is. *)
Lemma scan_port_unsupported lv2plugin j port st :
  port_unsupported port = true → scan_port lv2plugin j port st = st.
Proof.
  unfold port_unsupported. intros Hu.
  apply andb_prop in Hu as [Hu Hcontrol]. apply andb_prop in Hu as [Hgroup Haudio].
  apply bool_decide_eq_true in Hgroup. apply negb_true_iff in Haudio, Hcontrol.
  unfold scan_port. by rewrite Hgroup, Haudio, Hcontrol.
Qed.

(** Every other port adds one descriptor, with its own number. *)
Lemma scan_port_indices lv2plugin j port st :
  port_index <$> scan_descs (scan_port lv2plugin j port st)
  ≡ₚ (port_index <$> scan_descs st) ++ (if port_unsupported port then [] else [j]).
Proof.
  unfold port_unsupported, scan_descs.
  scan_port_cases port; rewrite ?Hgroup, ?Haudio, ?Hcontrol; simpl;
    rewrite ?alter_append_port_new, ?bind_app, ?bind_singleton;
    rewrite ?alter_append_port_descs by done;
    rewrite ?fmap_app; simpl; rewrite ?fmap_app; simpl;
    try solve_Permutation.
Qed.

Lemma scan_ports_indices lv2plugin j ports st :
  0 ≤ j → j + Z.of_nat (length ports) ≤ G_MAXUINT →
  port_index <$> scan_descs (scan_ports lv2plugin j ports st)
  ≡ₚ (port_index <$> scan_descs st) ++ supported_indices j ports.
Proof.
  revert j st. induction ports as [|port ports IH]; intros j st Hj Hlen.
  - simpl. by rewrite app_nil_r.
  - rewrite length_cons in Hlen. simpl.
    rewrite guint_add_small by (unfold guint_range; lia).
    rewrite IH by lia. rewrite scan_port_indices. by rewrite <- app_assoc.
Qed.

Lemma elem_of_supported_indices j ports z :
  z ∈ supported_indices j ports
  ↔ ∃ (i : nat) port,
      ports !! i = Some port ∧ port_unsupported port = false ∧ z = j + Z.of_nat i.
Proof.
  revert j. induction ports as [|port ports IH]; intros j; simpl.
  - split; [by intros ?%elem_of_nil | by intros (? & ? & ? & _)].
  - rewrite elem_of_app, IH. split.
    + intros [Hz|(i & port' & Hi & Hs & ->)].
      * destruct (port_unsupported port) eqn:Hu; [by apply elem_of_nil in Hz|].
        apply list_elem_of_singleton in Hz as ->. exists 0%nat, port.
        repeat split; [done|lia].
      * exists (S i), port'. repeat split; [done..|lia].
    + intros ([|i] & port' & Hi & Hs & ->); simplify_eq/=.
      * left. rewrite Hs. apply list_elem_of_singleton. lia.
      * right. exists i, port'. repeat split; [done..|lia].
Qed.

(** C9: an ungrouped port that is neither an audio nor a control port
    leaves every bucket and both pad counters as they are, and the scan goes
    on: the port numbers held in the buckets of the class are exactly the
    numbers of the other ports, each once.  So the number of a dropped port
    is in no bucket, and the number of every other port is in one. *)
Theorem unsupported_port_dropped (lv2plugin : SLV2Plugin) :
  Z.of_nat (length (plugin_ports lv2plugin)) ≤ G_MAXUINT →
  let klass := gst_lv2_base_init lv2plugin in
  (∀ j port st, port_unsupported port = true → scan_port lv2plugin j port st = st)
  ∧ class_port_indices klass ≡ₚ supported_indices 0 (plugin_ports lv2plugin)
  ∧ (∀ (i : nat) port, plugin_ports lv2plugin !! i = Some port →
       (port_unsupported port = true → Z.of_nat i ∉ class_port_indices klass)
       ∧ (port_unsupported port = false → Z.of_nat i ∈ class_port_indices klass)).
Proof.
  intros Hlen klass.
  assert (Hperm : class_port_indices klass
                  ≡ₚ supported_indices 0 (plugin_ports lv2plugin)).
  { change (class_port_indices klass)
      with (port_index
              <$> scan_descs (scan_ports lv2plugin 0 (plugin_ports lv2plugin)
                                scan_start)).
    by rewrite scan_ports_indices by lia. }
  split; [|split; [done|]].
  - intros j port st. apply scan_port_unsupported.
  - intros i port Hi. rewrite Hperm, elem_of_supported_indices. split.
    + intros Hu (i' & port' & Hi' & Hs & Heq).
      assert (i' = i) as -> by lia. simplify_eq. congruence.
    + intros Hs. exists i, port. split_and!; [done..|lia].
Qed.

Lemma unsupported_port_dropped_witness :
  class_port_indices (gst_lv2_base_init event_plugin) = [0; 2]
  ∧ (1 ∉ class_port_indices (gst_lv2_base_init event_plugin))
  ∧ (2 ∈ class_port_indices (gst_lv2_base_init event_plugin)).
Proof.
  assert (Hlen : Z.of_nat (length (plugin_ports event_plugin)) ≤ G_MAXUINT)
    by (vm_compute; discriminate).
  destruct (unsupported_port_dropped event_plugin Hlen) as (_ & _ & Hports).
  split; [reflexivity|]. split.
  - apply (proj1 (Hports 1%nat _ eq_refl)). reflexivity.
  - apply (proj2 (Hports 2%nat _ eq_refl)). reflexivity.
Defined.

(** * The pad slots *)

Lemma slots_below_counter (l1 l2 : list Z) (idx : Z) :
  l1 ++ l2 ≡ₚ seqZ 0 idx → ∀ x, x ∈ l1 ∨ x ∈ l2 → x < idx.
Proof.
  intros Hp x Hx. apply elem_of_app in Hx. rewrite Hp in Hx.
  apply elem_of_seqZ in Hx. lia.
Qed.

Lemma sorted_snoc_counter (l : list Z) (idx : Z) :
  (∀ x, x ∈ l → x < idx) → StronglySorted Z.lt l → StronglySorted Z.lt (l ++ [idx]).
Proof.
  intros Hlt Hs. apply StronglySorted_app_2; [|done|repeat constructor].
  intros x1 x2 Hx1 ->%list_elem_of_singleton. by apply Hlt.
Qed.

Lemma scan_port_pads lv2plugin j port st n :
  pads_inv n st → n < G_MAXUINT → pads_inv (n + 1) (scan_port lv2plugin j port st).
Proof.
  intros Hinv Hn.
  destruct (Hinv true) as (Hin & Hpin & Hgin & Hain).
  destruct (Hinv false) as (Hout & Hpout & Hgout & Haout).
  pose proof (slots_below_counter _ _ _ Hpin) as Hbin.
  pose proof (slots_below_counter _ _ _ Hpout) as Hbout.
  unfold scan_pads, scan_pad_index, scan_group_pads, scan_audio_pads, scan_groups in *.
  scan_port_cases port; intros [|];
    unfold scan_pads, scan_pad_index, scan_group_pads, scan_audio_pads, scan_groups;
    simpl;
    rewrite ?alter_append_port_new, ?alter_append_port_pads, ?fmap_app; simpl;
    rewrite ?guint_add_small by (unfold guint_range; lia);
    (split; [lia|]);
    rewrite ?seqZ_snoc by lia;
    (split; [ first [ done
                    | rewrite <- Hpin; solve_Permutation
                    | rewrite <- Hpout; solve_Permutation ] | ]);
    split;
    first [ done
          | apply sorted_snoc_counter; [intros; (apply Hbin || apply Hbout); auto|done] ].
Qed.

Lemma scan_ports_pads lv2plugin j ports st n :
  pads_inv n st → n + Z.of_nat (length ports) ≤ G_MAXUINT →
  pads_inv (n + Z.of_nat (length ports)) (scan_ports lv2plugin j ports st).
Proof.
  revert j st n. induction ports as [|port ports IH]; intros j st n Hinv Hlen.
  - simpl. by rewrite Z.add_0_r.
  - rewrite length_cons in *. simpl.
    replace (n + Z.of_nat (S (length ports)))
      with ((n + 1) + Z.of_nat (length ports)) by lia.
    apply IH; [|lia]. apply scan_port_pads; [done|lia].
Qed.

Lemma scan_start_pads : pads_inv 0 scan_start.
Proof. intros [|]; split_and!; by try constructor. Qed.

(** C2, amended: the pad slots of a direction come from one counter
    shared by the groups and the ungrouped audio ports of that direction.
    Taken together, the slots of the groups and of the ungrouped audio ports
    of a direction are exactly the numbers from 0 up to their count, each
    used once; and the slots increase along the groups and along the
    ungrouped audio ports, in the order of their arrays. *)
Theorem pad_slots_shared_per_direction (lv2plugin : SLV2Plugin) :
  Z.of_nat (length (plugin_ports lv2plugin)) ≤ G_MAXUINT →
  let klass := gst_lv2_base_init lv2plugin in
  ((group_pad <$> in_groups klass) ++ (port_pad <$> audio_in_ports klass)
     ≡ₚ seqZ 0 (num_group_in klass + num_audio_in klass)
   ∧ StronglySorted Z.lt (group_pad <$> in_groups klass)
   ∧ StronglySorted Z.lt (port_pad <$> audio_in_ports klass))
  ∧ ((group_pad <$> out_groups klass) ++ (port_pad <$> audio_out_ports klass)
       ≡ₚ seqZ 0 (num_group_out klass + num_audio_out klass)
     ∧ StronglySorted Z.lt (group_pad <$> out_groups klass)
     ∧ StronglySorted Z.lt (port_pad <$> audio_out_ports klass)).
Proof.
  intros Hlen klass.
  pose proof (scan_ports_pads lv2plugin 0 (plugin_ports lv2plugin) scan_start 0
                scan_start_pads ltac:(lia)) as Hinv.
  assert (Hcount : ∀ b st, scan_pads b st ≡ₚ seqZ 0 (scan_pad_index b st) →
            0 ≤ scan_pad_index b st →
            scan_pad_index b st = Z.of_nat (length (scan_pads b st))).
  { intros b st Hp Hnn. apply Permutation_length in Hp.
    rewrite length_seqZ in Hp. lia. }
  split.
  - destruct (Hinv true) as (Hr & Hp & Hg & Ha).
    pose proof (Hcount true _ Hp ltac:(lia)) as Hc.
    unfold scan_pads in Hc. rewrite length_app, !length_fmap in Hc.
    simpl. rewrite <- Nat2Z.inj_add, <- Hc. done.
  - destruct (Hinv false) as (Hr & Hp & Hg & Ha).
    pose proof (Hcount false _ Hp ltac:(lia)) as Hc.
    unfold scan_pads in Hc. rewrite length_app, !length_fmap in Hc.
    simpl. rewrite <- Nat2Z.inj_add, <- Hc. done.
Qed.

Lemma pad_slots_shared_per_direction_witness :
  (group_pad <$> in_groups (gst_lv2_base_init mixed_plugin))
  ++ (port_pad <$> audio_in_ports (gst_lv2_base_init mixed_plugin))
  ≡ₚ [0; 1].
Proof.
  apply (pad_slots_shared_per_direction mixed_plugin).
  vm_compute. discriminate.
Defined.

(** C2, counterexample: in [mixed_plugin] the group "in" comes first and
    takes slot 0 of the input direction, so the first ungrouped audio input
    has slot 1, not 0. *)
Lemma pad_slots_not_independent :
  ¬ ∀ lv2plugin, first_slots_zero (gst_lv2_base_init lv2plugin).
Proof.
  intros H. destruct (H mixed_plugin) as (_ & Haudio & _).
  specialize (Haudio {| port_index := 1; port_pad := 1 |} eq_refl).
  discriminate Haudio.
Qed.

(** * The counts behind the class tags *)

Lemma length_filter_cons {A} (f : A → bool) (x : A) (l : list A) :
  length (filter (λ a, f a = true) (x :: l))
  = (count_if (f x) + length (filter (λ a, f a = true) l))%nat.
Proof. rewrite filter_cons. by destruct (f x); case_decide. Qed.

Lemma scan_port_audio_count lv2plugin j port st b :
  length (scan_audio b (scan_port lv2plugin j port st))
  = (length (scan_audio b st) + count_if (ungrouped_audio b port))%nat.
Proof.
  unfold ungrouped_audio.
  scan_port_cases port; rewrite ?Hgroup, ?Haudio, ?Hcontrol, ?Hinput;
    destruct b; simpl; rewrite ?length_app; simpl; lia.
Qed.

Lemma scan_port_control_count lv2plugin j port st b :
  length (scan_control b (scan_port lv2plugin j port st))
  = (length (scan_control b st) + count_if (ungrouped_control b port))%nat.
Proof.
  unfold ungrouped_control.
  scan_port_cases port; rewrite ?Hgroup, ?Haudio, ?Hcontrol, ?Hinput;
    destruct b; simpl; rewrite ?length_app; simpl; lia.
Qed.

Lemma scan_ports_audio_count lv2plugin j ports st b :
  length (scan_audio b (scan_ports lv2plugin j ports st))
  = (length (scan_audio b st)
     + length (filter (λ port, ungrouped_audio b port = true) ports))%nat.
Proof.
  revert j st. induction ports as [|port ports IH]; intros j st.
  - simpl. lia.
  - rewrite length_filter_cons. simpl. rewrite IH, scan_port_audio_count. lia.
Qed.

Lemma scan_ports_control_count lv2plugin j ports st b :
  length (scan_control b (scan_ports lv2plugin j ports st))
  = (length (scan_control b st)
     + length (filter (λ port, ungrouped_control b port = true) ports))%nat.
Proof.
  revert j st. induction ports as [|port ports IH]; intros j st.
  - simpl. lia.
  - rewrite length_filter_cons. simpl. rewrite IH, scan_port_control_count. lia.
Qed.

(** X23: for every plugin the tags follow from the numbers of its ungrouped
    audio inputs, ungrouped audio outputs and ungrouped control outputs;
    ports in groups do not count. *)
Lemma klass_tags_count_ungrouped_ports lv2plugin :
  klass_tags (details (gst_lv2_base_init lv2plugin))
  = base_init_klass_tags
      (count_ports (ungrouped_audio true) lv2plugin)
      (count_ports (ungrouped_audio false) lv2plugin)
      (count_ports (ungrouped_control false) lv2plugin).
Proof.
  unfold count_ports. simpl.
  pose proof (scan_ports_audio_count lv2plugin 0 (plugin_ports lv2plugin)
                scan_start true) as Hai.
  pose proof (scan_ports_audio_count lv2plugin 0 (plugin_ports lv2plugin)
                scan_start false) as Hao.
  pose proof (scan_ports_control_count lv2plugin 0 (plugin_ports lv2plugin)
                scan_start false) as Hco.
  simpl in Hai, Hao, Hco. by rewrite Hai, Hao, Hco.
Qed.

(** C3, on the stereo effect whose audio ports are all in groups: it has
    two audio inputs and two audio outputs, which makes it a filter/effect
    in the words of the claim, and its first pad template is the sink pad
    "in" with two channels; yet the class is tagged as a source, because the
    counts the tags are chosen from leave grouped ports out. *)
Theorem grouped_stereo_effect_tagged_source :
  klass_tags (details stereo_klass) = "Source/Audio/LV2"
  ∧ spec_category stereo_plugin = "Filter/Effect/Audio/LV2"
  ∧ count_ports is_audio_input stereo_plugin = 2
  ∧ num_audio_in stereo_klass = 0
  ∧ pad_templates stereo_klass
    = [ {| templ_name := Some "in"; templ_direction := GST_PAD_SINK;
           templ_index := 0; templ_channels := 2 |};
        {| templ_name := Some "out"; templ_direction := GST_PAD_SRC;
           templ_index := 0; templ_channels := 2 |} ].
Proof. repeat split. Qed.

(** * gst_lv2_class_get_param_spec *)

(** C4, amended: what the specification of a port holds of the default
    and the bounds of the plugin's range, by the kind of the port.
    - A toggled port gets a boolean specification with default FALSE and
      no bounds; its range is not read and nothing is logged.
    - A port that is neither toggled nor integer gets a float
      specification whose default is the default of the range, unchanged;
      when the default is below the lower bound the minimum is the default,
      when it is above the upper bound the maximum is the default, and each
      such correction is logged.
    - An integer port that is not toggled is corrected and logged in the
      same way on the [gfloat] values, but what the specification holds is
      their conversion to [gint]: its default is the converted default, and
      a corrected bound is that same converted default.  The default of the
      range itself is kept only as far as the conversion keeps it. *)
Theorem default_and_bounds_by_port_kind (klass : GstLV2Class) (portnum : Z)
    (port : SLV2Port) :
  slv2_plugin_get_port_by_index (plugin klass) portnum = Some port →
  let def := default gfloat_0 (port_default port) in
  let lower := default gfloat_0 (port_minimum port) in
  let upper := default gfloat_1 (port_maximum port) in
  ∃ pspec warnings,
    gst_lv2_class_get_param_spec klass portnum = Some (pspec, warnings)
    ∧ (slv2_port_has_property port toggled_prop = true →
         pspec_default pspec = param_boolean false
         ∧ pspec_minimum pspec = None ∧ pspec_maximum pspec = None
         ∧ warnings = [])
    ∧ (slv2_port_has_property port toggled_prop = false →
       slv2_port_has_property port integer_prop = false →
         pspec_default pspec = param_float def
         ∧ (gfloat_lt def lower = true →
              pspec_minimum pspec = Some (param_float def)
              ∧ warn_lower_bound (plugin_uri (plugin klass)) lower def ∈ warnings)
         ∧ (gfloat_gt def upper = true →
              pspec_maximum pspec = Some (param_float def)
              ∧ warn_upper_bound (plugin_uri (plugin klass)) upper def ∈ warnings))
    ∧ (slv2_port_has_property port toggled_prop = false →
       slv2_port_has_property port integer_prop = true →
         pspec_default pspec = param_int (gfloat_to_gint def)
         ∧ (gfloat_lt def lower = true →
              pspec_minimum pspec = Some (param_int (gfloat_to_gint def))
              ∧ warn_lower_bound (plugin_uri (plugin klass)) lower def ∈ warnings)
         ∧ (gfloat_gt def upper = true →
              pspec_maximum pspec = Some (param_int (gfloat_to_gint def))
              ∧ warn_upper_bound (plugin_uri (plugin klass)) upper def ∈ warnings)).
Proof.
  intros Hport def lower upper.
  unfold gst_lv2_class_get_param_spec. rewrite Hport. simpl.
  exists (param_spec_of_port (plugin klass) port).1,
    (param_spec_of_port (plugin klass) port).2.
  split; [by destruct (param_spec_of_port _ _)|].
  unfold param_spec_of_port. fold def lower upper.
  destruct (slv2_port_has_property port toggled_prop).
  - split_and!; [|done..]. intros _. by split_and!.
  - destruct (gfloat_lt def lower) eqn:Hlt; destruct (gfloat_gt def upper) eqn:Hgt;
      destruct (slv2_port_has_property port integer_prop);
      simpl; split_and!; try done; intros _ _;
      (split_and!; [done|intros ?|intros ?]); try done;
      (split; [done|set_solver]).
Qed.

Lemma default_and_bounds_by_port_kind_witness :
  ∃ pspec warnings,
    gst_lv2_class_get_param_spec (gst_lv2_base_init reverb_plugin) 2
    = Some (pspec, warnings)
    ∧ pspec_default pspec = param_float gfloat_1_5
    ∧ pspec_maximum pspec = Some (param_float gfloat_1_5)
    ∧ warn_upper_bound "http://example.org/reverb" gfloat_1 gfloat_1_5 ∈ warnings.
Proof.
  destruct (default_and_bounds_by_port_kind (gst_lv2_base_init reverb_plugin) 2
              wet_port eq_refl)
    as (pspec & warnings & Hspec & _ & Hfloat & _).
  destruct (Hfloat eq_refl eq_refl) as (Hdef & _ & Hupper).
  destruct (Hupper eq_refl) as (Hmax & Hwarn).
  exists pspec, warnings. by split_and!.
Defined.

(** On an integer port with range [0, 1] and default 1.5 the correction is
    logged, yet the specification holds the bounds 0 and 1 and the default
    1: the conversion to [gint] has dropped the fraction. *)
Example steps_port_param_spec :
  param_spec_of_port reverb_plugin steps_port
  = (g_param_spec_int "steps" (Some 0) (Some 1) (Some 1)
       (Z.lor (Z.lor G_PARAM_READABLE (Z.lor G_PARAM_WRITABLE G_PARAM_CONSTRUCT))
              GST_PARAM_CONTROLLABLE),
     [warn_upper_bound "http://example.org/reverb" gfloat_1 gfloat_1_5]).
Proof. reflexivity. Qed.

Example wet_port_param_spec :
  gst_lv2_class_get_param_spec (gst_lv2_base_init reverb_plugin) 2
  = Some (g_param_spec_float "wet" gfloat_0 gfloat_1_5 gfloat_1_5
            (Z.lor (Z.lor G_PARAM_READABLE (Z.lor G_PARAM_WRITABLE G_PARAM_CONSTRUCT))
                   GST_PARAM_CONTROLLABLE),
          [warn_upper_bound "http://example.org/reverb" gfloat_1 gfloat_1_5]).
Proof. reflexivity. Qed.

Example mute_port_param_spec :
  gst_lv2_class_get_param_spec (gst_lv2_base_init reverb_plugin) 3
  = Some (g_param_spec_boolean "mute" false
            (Z.lor (Z.lor G_PARAM_READABLE (Z.lor G_PARAM_WRITABLE G_PARAM_CONSTRUCT))
                   GST_PARAM_CONTROLLABLE),
          []).
Proof. reflexivity. Qed.

(** C4, counterexample on a toggled port: the range of [mute_port] is
    never read, its specification is boolean with default FALSE, has no
    bounds, and nothing is logged, although the default 1.5 of the range is
    above the upper bound 1. *)
Lemma toggled_default_neither_kept_nor_reported :
  ¬ ∀ klass portnum port,
      slv2_plugin_get_port_by_index (plugin klass) portnum = Some port →
      slv2_port_is_a port control_class = true →
      default_kept_and_bounds_widened klass portnum port.
Proof.
  intros H.
  destruct (H (gst_lv2_base_init reverb_plugin) 3 mute_port eq_refl eq_refl)
    as (pspec & warnings & Hspec & Hdef & _).
  vm_compute in Hspec. injection Hspec as <- <-. discriminate Hdef.
Qed.

(** * lv2_plugin_discover *)

Section discover_properties.
Context (check_type_name element_register_ok : string → bool).

Local Abbreviation scan_plugin :=
  (discover_plugin check_type_name element_register_ok).
Local Abbreviation scan_loop :=
  (discover_loop check_type_name element_register_ok).

Lemma discover_plugin_registered lv2plugin ts :
  is_Some (types ts !! lv2_type_name lv2plugin) →
  scan_plugin lv2plugin ts = (false, ts).
Proof.
  intros [node Hnode]. unfold discover_plugin, g_type_from_name.
  by rewrite Hnode.
Qed.

Lemma discover_plugin_other lv2plugin ts name :
  lv2_type_name lv2plugin ≠ name →
  types (scan_plugin lv2plugin ts).2 !! name = types ts !! name.
Proof.
  intros Hne. unfold discover_plugin, g_type_from_name.
  destruct (types ts !! lv2_type_name lv2plugin); [done|].
  unfold g_type_register_static, gst_element_register.
  destruct (check_type_name _); simpl; [|done].
  destruct (element_register_ok _); simpl;
    by rewrite lookup_alter_ne, lookup_insert_ne.
Qed.

Lemma discover_plugin_keeps lv2plugin ts name node :
  types ts !! name = Some node →
  types (scan_plugin lv2plugin ts).2 !! name = Some node.
Proof.
  intros Hnode. destruct (decide (lv2_type_name lv2plugin = name)) as [<-|Hne].
  - by rewrite discover_plugin_registered.
  - by rewrite discover_plugin_other.
Qed.

Lemma discover_plugin_new lv2plugin ts :
  types ts !! lv2_type_name lv2plugin = None →
  check_type_name (lv2_type_name lv2plugin) = true →
  types (scan_plugin lv2plugin ts).2 !! lv2_type_name lv2plugin
  = Some {| class_data := Some lv2plugin; slv2_plugin_qdata := Some lv2plugin |}.
Proof.
  intros Hnone Hcheck. unfold discover_plugin, g_type_from_name.
  rewrite Hnone. unfold g_type_register_static, gst_element_register.
  rewrite Hcheck. simpl.
  destruct (element_register_ok _); simpl;
    by rewrite lookup_alter_eq, lookup_insert_eq.
Qed.

Lemma discover_loop_cons lv2plugin plugins ts :
  scan_loop (lv2plugin :: plugins) ts
  = ((scan_plugin lv2plugin ts).1
       :: (scan_loop plugins (scan_plugin lv2plugin ts).2).1,
     (scan_loop plugins (scan_plugin lv2plugin ts).2).2).
Proof.
  simpl. destruct (scan_plugin lv2plugin ts) as [r ts1]. simpl.
  by destruct (scan_loop plugins ts1).
Qed.

Lemma discover_loop_app plugins1 plugins2 ts :
  scan_loop (plugins1 ++ plugins2) ts
  = ((scan_loop plugins1 ts).1
       ++ (scan_loop plugins2 (scan_loop plugins1 ts).2).1,
     (scan_loop plugins2 (scan_loop plugins1 ts).2).2).
Proof.
  revert ts. induction plugins1 as [|p plugins1 IH]; intros ts.
  - simpl. by destruct (scan_loop plugins2 ts).
  - rewrite <- app_comm_cons, !discover_loop_cons, IH. done.
Qed.

Lemma discover_loop_length plugins ts :
  length (scan_loop plugins ts).1 = length plugins.
Proof.
  revert ts. induction plugins as [|p plugins IH]; intros ts; [done|].
  rewrite discover_loop_cons. simpl. by rewrite IH.
Qed.

Lemma discover_loop_keeps plugins ts name node :
  types ts !! name = Some node →
  types (scan_loop plugins ts).2 !! name = Some node.
Proof.
  revert ts. induction plugins as [|p plugins IH]; intros ts Hnode; [done|].
  rewrite discover_loop_cons. simpl. by apply IH, discover_plugin_keeps.
Qed.

Lemma discover_loop_other plugins ts name :
  Forall (λ p, lv2_type_name p ≠ name) plugins →
  types (scan_loop plugins ts).2 !! name = types ts !! name.
Proof.
  intros Hall. revert ts. induction Hall as [|p plugins Hp _ IH]; intros ts; [done|].
  rewrite discover_loop_cons. simpl. by rewrite IH, discover_plugin_other.
Qed.

(** C7: of two plugins in the scan whose URIs give the same type name,
    the later one is dropped: once the earlier one is through (its name
    being one the type system accepts, so that it is registered then if it
    was not before), the name is registered, the later plugin does not
    reach [g_type_register_static], the entry of the name is the same at
    the end of the scan as after the earlier plugin, and the scan returns
    TRUE.  When the name was free before the earlier plugin, the entry is
    the one registered for it. *)
Theorem duplicate_type_name_dropped (ts : GTypeSystem)
    (before between after : list SLV2Plugin) (first second : SLV2Plugin) :
  lv2_type_name first = lv2_type_name second →
  check_type_name (lv2_type_name first) = true →
  ∃ node rs ts',
    lv2_plugin_discover check_type_name element_register_ok
      (before ++ first :: between ++ second :: after) ts = (true, rs, ts')
    ∧ rs !! (length before + 1 + length between)%nat = Some false
    ∧ types (discover_loop check_type_name element_register_ok
               (before ++ [first]) ts).2 !! lv2_type_name first
      = Some node
    ∧ types ts' !! lv2_type_name first = Some node
    ∧ (types ts !! lv2_type_name first = None →
       Forall (λ p, lv2_type_name p ≠ lv2_type_name first) before →
       node = {| class_data := Some first; slv2_plugin_qdata := Some first |}).
Proof.
  intros Hname Hcheck.
  set (ts1 := (scan_loop before ts).2).
  set (ts2 := (scan_plugin first ts1).2).
  set (ts3 := (scan_loop between ts2).2).
  assert (Hfirst : ∃ node, types ts2 !! lv2_type_name first = Some node
            ∧ (types ts1 !! lv2_type_name first = None →
               node = {| class_data := Some first;
                         slv2_plugin_qdata := Some first |})).
  { subst ts2. destruct (types ts1 !! lv2_type_name first) as [node|] eqn:Hts1.
    - exists node. split; [|done]. by apply discover_plugin_keeps.
    - eexists. split; [by apply discover_plugin_new|done]. }
  destruct Hfirst as (node & Hnode & Hnew).
  assert (Hnode3 : types ts3 !! lv2_type_name second = Some node).
  { rewrite <- Hname. by apply discover_loop_keeps. }
  assert (Hsecond : scan_plugin second ts3 = (false, ts3)).
  { apply discover_plugin_registered. by rewrite Hnode3. }
  exists node. unfold lv2_plugin_discover.
  rewrite discover_loop_app, discover_loop_cons, discover_loop_app,
    discover_loop_cons.
  fold ts1. fold ts2. fold ts3. rewrite Hsecond. simpl.
  do 2 eexists. split; [reflexivity|]. split_and!.
  - rewrite lookup_app_r by (rewrite discover_loop_length; lia).
    rewrite discover_loop_length.
    replace (length before + 1 + length between - length before)%nat
      with (S (length between)) by lia.
    simpl. rewrite lookup_app_r by (rewrite discover_loop_length; lia).
    rewrite discover_loop_length. by rewrite Nat.sub_diag.
  - by rewrite discover_loop_app, discover_loop_cons.
  - apply discover_loop_keeps. by rewrite Hname.
  - intros Hfree Hbefore. apply Hnew. subst ts1.
    by rewrite discover_loop_other.
Qed.

End discover_properties.

Lemma duplicate_type_name_dropped_witness :
  ∃ node rs ts',
    lv2_plugin_discover (λ _, true) (λ _, true) [fx_plugin_a; fx_plugin_b]
      empty_type_system = (true, rs, ts')
    ∧ rs !! 1%nat = Some false
    ∧ types ts' !! "http---example-org-fx-1" = Some node
    ∧ node = {| class_data := Some fx_plugin_a; slv2_plugin_qdata := Some fx_plugin_a |}.
Proof.
  destruct (duplicate_type_name_dropped (λ _, true) (λ _, true) empty_type_system
              [] [] [] fx_plugin_a fx_plugin_b eq_refl eq_refl)
    as (node & rs & ts' & Hscan & Hsecond & _ & Hend & Hnew).
  exists node, rs, ts'. split_and!; [done..|].
  apply Hnew; [done|constructor].
Defined.

(** * More on the lifecycle hooks *)

(** The other hooks do check the instance. *)
Lemma start_refused_without_instance w :
  activated (self w) = false → instance (self w) = None →
  gst_lv2_start w
  = Returns false (add_trace w [g_return_if_fail_warning "lv2->instance != NULL"]).
Proof.
  intros Hact Hinst. unfold gst_lv2_start.
  mstep reflexivity. by rewrite Hact, Hinst.
Qed.

Lemma cleanup_refused_without_instance w :
  activated (self w) = false → instance (self w) = None →
  gst_lv2_cleanup w
  = Returns () (add_trace w [g_return_if_fail_warning "lv2->instance != NULL"]).
Proof.
  intros Hact Hinst. unfold gst_lv2_cleanup.
  mstep reflexivity. by rewrite Hact, Hinst.
Qed.

Lemma cleanup_frees_instance w h :
  activated (self w) = false → instance (self w) = Some h →
  gst_lv2_cleanup w
  = Returns () {| self := set_instance None (self w);
                  trace := trace w ++ [slv2_instance_free_call h];
                  instantiations := instantiations w |}.
Proof.
  intros Hact Hinst. unfold gst_lv2_cleanup.
  mstep reflexivity. by rewrite Hact, Hinst.
Qed.

(** Without the bound on the sample count of a group buffer the offset of
    a member is the product modulo 2^32: here members 0 and 2 of a group of
    three get the same address. *)
Example group_offset_wraps :
  connect_group (Some 7) [{| buffer := ptr_buffer 100 0 |}] 0
    {| group_uri := stereo_in_group; group_pad := 0; group_symbol := None;
       group_ports := [ {| port_index := 0; port_pad := 0 |};
                        {| port_index := 1; port_pad := 0 |};
                        {| port_index := 2; port_pad := 0 |} ] |}
    2147483648 stereo_world
  = Returns ()
      (add_trace stereo_world
         [ slv2_instance_connect_port_call 7 0 (ptr_buffer 100 0);
           slv2_instance_connect_port_call 7 1 (ptr_buffer 100 2147483648);
           slv2_instance_connect_port_call 7 2 (ptr_buffer 100 0) ]).
Proof. reflexivity. Qed.

(** * The type name *)

Lemma g_strcanon_charset s valid_chars substitutor :
  Forall (λ c, strchr valid_chars c = true ∨ c = substitutor)
    (list_ascii_of_string (g_strcanon s valid_chars substitutor)).
Proof.
  induction s as [|c s IH]; simpl; constructor; [|done].
  destruct (strchr valid_chars c) eqn:Hc; auto.
Qed.

(** X24: the type name made from the URI of a plugin consists of letters,
    digits, hyphens and plus signs only. *)
Lemma lv2_type_name_charset lv2plugin :
  Forall (λ c, strchr (G_CSET_A_2_Z +:+ G_CSET_a_2_z +:+ G_CSET_DIGITS +:+ "-+") c = true)
    (list_ascii_of_string (lv2_type_name lv2plugin)).
Proof.
  eapply Forall_impl; [apply g_strcanon_charset|].
  intros c [Hc| ->]; [done|reflexivity].
Qed.

(** * gst_lv2_class_init *)

Lemma imap_fst_seqZ {A B} (a : Z) (g : A → B) (l : list A) :
  (imap (λ i x, (a + Z.of_nat i, g x)) l).*1 = seqZ a (Z.of_nat (length l)).
Proof.
  apply list_eq. intros i. rewrite list_lookup_fmap, list_lookup_imap.
  destruct (l !! i) as [x|] eqn:Hi; simpl.
  - apply lookup_lt_Some in Hi. by rewrite lookup_seqZ_lt by lia.
  - apply lookup_ge_None in Hi. by rewrite lookup_seqZ_ge by lia.
Qed.

(** Every port number in a bucket is the number of a port of the plugin. *)
Lemma base_init_port_exists lv2plugin z :
  Z.of_nat (length (plugin_ports lv2plugin)) ≤ G_MAXUINT →
  z ∈ class_port_indices (gst_lv2_base_init lv2plugin) →
  is_Some (slv2_plugin_get_port_by_index lv2plugin z).
Proof.
  intros Hlen Hz.
  change (class_port_indices (gst_lv2_base_init lv2plugin))
    with (port_index
            <$> scan_descs (scan_ports lv2plugin 0 (plugin_ports lv2plugin)
                              scan_start)) in Hz.
  rewrite scan_ports_indices in Hz by lia. simpl in Hz.
  apply elem_of_supported_indices in Hz as (i & port & Hi & _ & ->).
  exists port. unfold slv2_plugin_get_port_by_index.
  destruct (Z.leb_spec 0 (0 + Z.of_nat i)); [|lia].
  by rewrite Z.add_0_l, Nat2Z.id.
Qed.

(** On the class of any plugin [gst_lv2_class_init] installs one property
    per control port, numbered from 1: the control inputs first, then the
    control outputs. *)
Lemma class_init_property_ids lv2plugin :
  Z.of_nat (length (plugin_ports lv2plugin)) ≤ G_MAXUINT →
  let klass := gst_lv2_base_init lv2plugin in
  ∃ props warnings,
    gst_lv2_class_init klass = Some (props, warnings)
    ∧ props.*1 = seqZ 1 (num_control_in klass + num_control_out klass).
Proof.
  intros Hlen klass.
  assert (Hspec : ∀ descs : list GstLV2Port,
            (∀ d, d ∈ descs → port_index d ∈ class_port_indices klass) →
            is_Some (mapM (λ d, gst_lv2_class_get_param_spec klass (port_index d))
                       descs)).
  { intros descs Hin. apply mapM_is_Some_2, Forall_forall. intros d Hd. simpl.
    destruct (base_init_port_exists lv2plugin (port_index d) Hlen (Hin d Hd))
      as [port Hport].
    unfold gst_lv2_class_get_param_spec. simpl. by rewrite Hport. }
  destruct (Hspec (control_in_ports klass)) as [ins Hins].
  { intros d Hd. unfold class_port_indices. apply list_elem_of_fmap_2.
    rewrite !elem_of_app. tauto. }
  destruct (Hspec (control_out_ports klass)) as [outs Houts].
  { intros d Hd. unfold class_port_indices. apply list_elem_of_fmap_2.
    rewrite !elem_of_app. tauto. }
  unfold gst_lv2_class_init. rewrite Hins, Houts. simpl.
  do 2 eexists. split; [reflexivity|].
  apply length_mapM in Hins, Houts.
  rewrite fmap_app.
  rewrite (imap_ext _ (λ i pw, (1 + Z.of_nat i, pw.1)) ins)
    by (intros; f_equal; lia).
  rewrite (imap_ext _ (λ i pw,
             (1 + Z.of_nat (length (control_in_ports klass)) + Z.of_nat i, pw.1)) outs)
    by (intros; simpl; f_equal; lia).
  rewrite !imap_fst_seqZ, <- Hins, <- Houts.
  rewrite (seqZ_app 1) by lia. done.
Qed.

(** * Computations that only record calls *)

Lemma bind_returns_inv {A B} (m : M A) (f : A → M B) (w w'' : World) (b : B) :
  (m ≫= f) w = Returns b w'' →
  ∃ a w', m w = Returns a w' ∧ f a w' = Returns b w''.
Proof.
  unfold mbind, M_bind. destruct (m w) as [a w'|e]; [|done]. eauto.
Qed.

Lemma bind_faults {A B} (m : M A) (f : A → M B) (w : World) (e : Fault) :
  m w = Faults e → (m ≫= f) w = Faults e.
Proof. intros Hm. unfold mbind, M_bind. by rewrite Hm. Qed.

Lemma only_emits_ret {A} (a : A) : only_emits (mret a).
Proof. intros w. exists []. by rewrite add_trace_nil. Qed.

Lemma only_emits_emit c : only_emits (emit c).
Proof. intros w. by exists [c]. Qed.

Lemma only_emits_fault {A} : only_emits (@fault A undefined_behaviour).
Proof. by intros w. Qed.

Lemma only_emits_bind {A B} (m : M A) (f : A → M B) :
  only_emits m → (∀ a, only_emits (f a)) → only_emits (m ≫= f).
Proof.
  intros Hm Hf w. specialize (Hm w). unfold mbind, M_bind.
  destruct (m w) as [a w'|e]; [|done]. destruct Hm as [cs ->].
  specialize (Hf a (add_trace w cs)).
  destruct (f a (add_trace w cs)) as [b w''|e]; [|done].
  destruct Hf as [cs' ->]. exists (cs ++ cs'). by rewrite add_trace_app.
Qed.

Lemma only_emits_array_get {A} (l : list A) i : only_emits (array_get l i).
Proof.
  unfold array_get. destruct (if 0 <=? i then _ else _).
  - apply only_emits_ret.
  - apply only_emits_fault.
Qed.

Lemma only_emits_with_instance inst c : only_emits (with_instance inst c).
Proof.
  destruct inst; [apply only_emits_emit|apply only_emits_fault].
Qed.

Lemma only_emits_for_each {A} (l : list A) (body : A → M unit) :
  (∀ a, only_emits (body a)) → only_emits (for_each l body).
Proof.
  intros Hbody. induction l as [|a l IH]; simpl.
  - apply only_emits_ret.
  - apply only_emits_bind; auto.
Qed.

Lemma only_emits_for_upto n (body : Z → M unit) :
  (∀ i, only_emits (body i)) → only_emits (for_upto n body).
Proof. apply only_emits_for_each. Qed.

Lemma only_emits_connect_group inst gst_groups i lv2_group nframes :
  only_emits (connect_group inst gst_groups i lv2_group nframes).
Proof.
  apply only_emits_for_upto. intros j.
  apply only_emits_bind; [apply only_emits_array_get|]. intros lv2_port.
  apply only_emits_bind; [apply only_emits_array_get|]. intros gst_group.
  apply only_emits_with_instance.
Qed.

Lemma only_emits_groups_loop inst n groups gst_groups nframes :
  only_emits (for_upto n (λ i,
    lv2_group ← array_get groups i;
    connect_group inst gst_groups i lv2_group nframes)).
Proof.
  apply only_emits_for_upto. intros i.
  apply only_emits_bind; [apply only_emits_array_get|]. intros g.
  apply only_emits_connect_group.
Qed.

Lemma only_emits_ports_loop inst n (ports : list GstLV2Port) (buffers : list Pointer) :
  only_emits (for_upto n (λ i,
    lv2_port ← array_get ports i;
    data ← array_get buffers i;
    slv2_instance_connect_port inst (port_index lv2_port) data)).
Proof.
  apply only_emits_for_upto. intros i.
  apply only_emits_bind; [apply only_emits_array_get|]. intros lv2_port.
  apply only_emits_bind; [apply only_emits_array_get|]. intros data.
  apply only_emits_with_instance.
Qed.

Lemma only_emits_get_self : only_emits get_self.
Proof. intros w. exists []. by rewrite add_trace_nil. Qed.

Lemma only_emits_process klass nframes : only_emits (gst_lv2_process klass nframes).
Proof.
  unfold gst_lv2_process.
  apply only_emits_bind; [apply only_emits_get_self|]. intros lv2.
  repeat (apply only_emits_bind;
          [first [apply only_emits_groups_loop | apply only_emits_ports_loop]|intros _]).
  apply only_emits_with_instance.
Qed.

Lemma only_emits_get_property_value ty controls i :
  only_emits (get_property_value ty controls i).
Proof.
  destruct ty; simpl;
    repeat first [ apply only_emits_bind; [|intros ?]
                 | apply only_emits_array_get
                 | apply only_emits_emit
                 | apply only_emits_ret
                 | apply only_emits_fault
                 | case_match ].
Qed.

Lemma only_emits_get_property klass i ty :
  only_emits (gst_lv2_get_property klass i ty).
Proof.
  unfold gst_lv2_get_property.
  apply only_emits_bind; [apply only_emits_get_self|]. intros lv2.
  repeat case_match;
    repeat first [ apply only_emits_get_property_value
                 | apply only_emits_bind; [|intros ?]
                 | apply only_emits_emit
                 | apply only_emits_ret ].
Qed.

Lemma only_emits_self {A} (m : M A) w a w' :
  only_emits m → m w = Returns a w' → self w' = self w.
Proof. intros Hm Hw. specialize (Hm w). rewrite Hw in Hm. by destruct Hm as [cs ->]. Qed.

(** * The lifecycle hooks, case by case *)

Lemma setup_fails_without_instance klass sample_rate w :
  activated (self w) = false →
  default None (head (instantiations w)) = None →
  gst_lv2_setup klass sample_rate w
  = Returns false
      {| self := set_instance None (self w);
         trace := trace w
                  ++ [ slv2_plugin_instantiate_call (plugin_uri (plugin klass))
                         sample_rate None;
                       g_return_if_fail_warning "lv2->instance != NULL" ];
         instantiations := tail (instantiations w) |}.
Proof.
  intros Hact Hi. unfold gst_lv2_setup.
  mstep reflexivity. rewrite Hact. simpl.
  mstep (unfold slv2_plugin_instantiate; rewrite Hi; reflexivity).
  mstep reflexivity. simpl. unfold mbind, M_bind, emit. simpl.
  by rewrite <- app_assoc.
Qed.

Lemma start_activates w h :
  activated (self w) = false → instance (self w) = Some h →
  gst_lv2_start w
  = Returns true {| self := set_activated true (self w);
                    trace := trace w ++ [slv2_instance_activate_call h];
                    instantiations := instantiations w |}.
Proof.
  intros Hact Hinst. unfold gst_lv2_start.
  mstep reflexivity. by rewrite Hact, Hinst.
Qed.

Lemma start_refused_when_activated w :
  activated (self w) = true →
  gst_lv2_start w
  = Returns false (add_trace w [g_return_if_fail_warning "lv2->activated == FALSE"]).
Proof.
  intros Hact. unfold gst_lv2_start. mstep reflexivity. by rewrite Hact.
Qed.

Lemma stop_deactivates w h :
  activated (self w) = true → instance (self w) = Some h →
  gst_lv2_stop w
  = Returns () {| self := set_activated false (self w);
                  trace := trace w ++ [slv2_instance_deactivate_call h];
                  instantiations := instantiations w |}.
Proof.
  intros Hact Hinst. unfold gst_lv2_stop.
  mstep reflexivity. by rewrite Hact, Hinst.
Qed.

Lemma stop_refused_when_not_activated w :
  activated (self w) = false →
  gst_lv2_stop w
  = Returns () (add_trace w [g_return_if_fail_warning "lv2->activated == TRUE"]).
Proof.
  intros Hact. unfold gst_lv2_stop. mstep reflexivity. by rewrite Hact.
Qed.

Lemma stop_refused_without_instance w :
  activated (self w) = true → instance (self w) = None →
  gst_lv2_stop w
  = Returns () (add_trace w [g_return_if_fail_warning "lv2->instance != NULL"]).
Proof.
  intros Hact Hinst. unfold gst_lv2_stop. mstep reflexivity. by rewrite Hact, Hinst.
Qed.

Lemma cleanup_refused_when_activated w :
  activated (self w) = true →
  gst_lv2_cleanup w
  = Returns () (add_trace w [g_return_if_fail_warning "lv2->activated == FALSE"]).
Proof.
  intros Hact. unfold gst_lv2_cleanup. mstep reflexivity. by rewrite Hact.
Qed.

(** X1: the three outcomes of [gst_lv2_setup] on a class whose counts are
    its array lengths.  On an activated element it logs the failed check,
    returns FALSE and changes nothing, without instantiating.  On an element
    that is not activated it instantiates once; when SLV2 returns NULL it
    stores NULL in the instance field, logs and returns FALSE without
    connecting any port; when SLV2 returns an instance it stores it, connects
    control input slot [i] to the port in position [i] of the control inputs,
    then the control outputs likewise, and returns TRUE. *)
Theorem setup_outcomes (klass : GstLV2Class) (sample_rate : Z) (w : World) :
  class_counts_consistent klass →
  (activated (self w) = true →
     gst_lv2_setup klass sample_rate w
     = Returns false
         (add_trace w [g_return_if_fail_warning "lv2->activated == FALSE"]))
  ∧ (activated (self w) = false →
     default None (head (instantiations w)) = None →
     gst_lv2_setup klass sample_rate w
     = Returns false
         {| self := set_instance None (self w);
            trace := trace w
                     ++ [ slv2_plugin_instantiate_call (plugin_uri (plugin klass))
                            sample_rate None;
                          g_return_if_fail_warning "lv2->instance != NULL" ];
            instantiations := tail (instantiations w) |})
  ∧ (∀ h rest,
       activated (self w) = false →
       instantiations w = Some h :: rest →
       gst_lv2_setup klass sample_rate w
       = Returns true
           {| self := set_instance (Some h) (self w);
              trace := trace w
                       ++ slv2_plugin_instantiate_call (plugin_uri (plugin klass))
                            sample_rate (Some h)
                          :: control_bindings h klass;
              instantiations := rest |}).
Proof.
  intros Hk. split_and!.
  - apply setup_refused_when_activated.
  - apply setup_fails_without_instance.
  - intros h rest. by apply setup_when_not_activated.
Qed.

Lemma setup_outcomes_witness :
  gst_lv2_setup amp_klass 48000 amp_world
  = Returns true
      {| self := set_instance (Some 1) amp_element;
         trace := [ slv2_plugin_instantiate_call "http://example.org/amp" 48000 (Some 1);
                    slv2_instance_connect_port_call 1 2 (ptr_control_in 0);
                    slv2_instance_connect_port_call 1 3 (ptr_control_out 0) ];
         instantiations := [Some 2] |}.
Proof.
  destruct (setup_outcomes amp_klass 48000 amp_world) as (_ & _ & Hok).
  - apply base_init_counts_consistent.
  - apply (Hok 1 [Some 2]); reflexivity.
Defined.

Lemma lifecycle_step_start w :
  ∃ b w', gst_lv2_start w = Returns b w'
          ∧ b = bool_decide (activated (self w) = false ∧ instance (self w) ≠ None)
          ∧ self w' = if b then set_activated true (self w) else self w.
Proof.
  destruct (activated (self w)) eqn:Hact; destruct (instance (self w)) as [h|] eqn:Hinst.
  - eexists false, _. split; [by apply start_refused_when_activated|].
    by rewrite bool_decide_eq_false_2 by (by intros [? _]).
  - eexists false, _. split; [by apply start_refused_when_activated|].
    by rewrite bool_decide_eq_false_2 by (by intros [? _]).
  - eexists true, _. split; [by eapply start_activates|].
    by rewrite bool_decide_eq_true_2.
  - eexists false, _. split; [by apply start_refused_without_instance|].
    by rewrite bool_decide_eq_false_2 by (by intros [_ ?]).
Qed.

Lemma lifecycle_step_stop w :
  ∃ w', gst_lv2_stop w = Returns () w'
        ∧ self w'
          = if bool_decide (activated (self w) = true ∧ instance (self w) ≠ None)
            then set_activated false (self w) else self w.
Proof.
  destruct (activated (self w)) eqn:Hact; destruct (instance (self w)) as [h|] eqn:Hinst.
  - eexists. split; [by eapply stop_deactivates|]. by rewrite bool_decide_eq_true_2.
  - eexists. split; [by apply stop_refused_without_instance|].
    by rewrite bool_decide_eq_false_2 by (by intros [_ ?]).
  - eexists. split; [by apply stop_refused_when_not_activated|].
    by rewrite bool_decide_eq_false_2 by (by intros [? _]).
  - eexists. split; [by apply stop_refused_when_not_activated|].
    by rewrite bool_decide_eq_false_2 by (by intros [? _]).
Qed.

Lemma lifecycle_step_cleanup w :
  ∃ w', gst_lv2_cleanup w = Returns () w'
        ∧ self w'
          = if bool_decide (activated (self w) = false ∧ instance (self w) ≠ None)
            then set_instance None (self w) else self w.
Proof.
  destruct (activated (self w)) eqn:Hact; destruct (instance (self w)) as [h|] eqn:Hinst.
  - eexists. split; [by apply cleanup_refused_when_activated|].
    by rewrite bool_decide_eq_false_2 by (by intros [? _]).
  - eexists. split; [by apply cleanup_refused_when_activated|].
    by rewrite bool_decide_eq_false_2 by (by intros [? _]).
  - eexists. split; [by eapply cleanup_frees_instance|]. by rewrite bool_decide_eq_true_2.
  - eexists. split; [by apply cleanup_refused_without_instance|].
    by rewrite bool_decide_eq_false_2 by (by intros [_ ?]).
Qed.

(** X2: [gst_lv2_start], [gst_lv2_stop] and [gst_lv2_cleanup] always
    return, whatever the state of the element.  [gst_lv2_start] returns TRUE
    exactly on an element that holds an instance and is not activated, and
    then sets the activation flag; [gst_lv2_stop] clears the flag exactly on
    an activated element that holds an instance; [gst_lv2_cleanup] clears
    the instance field exactly on an element that holds an instance and is
    not activated.  In every other state the hook leaves the element as it
    is. *)
Theorem lifecycle_guards (w : World) :
  (∃ b w', gst_lv2_start w = Returns b w'
           ∧ b = bool_decide (activated (self w) = false ∧ instance (self w) ≠ None)
           ∧ self w' = if b then set_activated true (self w) else self w)
  ∧ (∃ w', gst_lv2_stop w = Returns () w'
           ∧ self w'
             = if bool_decide (activated (self w) = true ∧ instance (self w) ≠ None)
               then set_activated false (self w) else self w)
  ∧ (∃ w', gst_lv2_cleanup w = Returns () w'
           ∧ self w'
             = if bool_decide (activated (self w) = false ∧ instance (self w) ≠ None)
               then set_instance None (self w) else self w).
Proof.
  split_and!.
  - apply lifecycle_step_start.
  - apply lifecycle_step_stop.
  - apply lifecycle_step_cleanup.
Qed.

(** * Sequences of hooks *)

Lemma set_instance_roundtrip lv2 h :
  instance lv2 = None → activated lv2 = false →
  set_instance None (set_activated false (set_activated true (set_instance (Some h) lv2)))
  = lv2.
Proof. destruct lv2. simpl. by intros -> ->. Qed.

(** X3: one whole life of an element.  On a fresh element (no instance,
    not activated) for which SLV2 hands out instance [h], the sequence setup,
    start, stop, cleanup succeeds at every step and leaves the element
    exactly as it was; SLV2 has seen one instantiation, the control bindings,
    one activation, one deactivation and one free of [h], in that order. *)
Theorem lifecycle_round_trip (klass : GstLV2Class) (sample_rate : Z) (w : World)
    (h : SLV2Instance) (rest : list (option SLV2Instance)) :
  class_counts_consistent klass →
  instance (self w) = None →
  activated (self w) = false →
  instantiations w = Some h :: rest →
  lifecycle klass sample_rate w
  = Returns (true, true)
      {| self := self w;
         trace := trace w
                  ++ slv2_plugin_instantiate_call (plugin_uri (plugin klass))
                       sample_rate (Some h)
                     :: control_bindings h klass
                  ++ [ slv2_instance_activate_call h;
                       slv2_instance_deactivate_call h;
                       slv2_instance_free_call h ];
         instantiations := rest |}.
Proof.
  intros Hk Hinst Hact Hi. unfold lifecycle.
  mstep (by apply (setup_when_not_activated klass sample_rate w h rest)).
  mstep (by apply (start_activates _ h)).
  mstep (by apply (stop_deactivates _ h)).
  mstep (by apply (cleanup_frees_instance _ h)).
  simpl. unfold mret, M_ret. f_equal. f_equal.
  - by apply set_instance_roundtrip.
  - rewrite <- !app_assoc. simpl. by rewrite <- ?app_assoc.
Qed.

Lemma lifecycle_round_trip_witness :
  lifecycle amp_klass 44100 amp_world
  = Returns (true, true)
      {| self := amp_element;
         trace := [ slv2_plugin_instantiate_call "http://example.org/amp" 44100 (Some 1);
                    slv2_instance_connect_port_call 1 2 (ptr_control_in 0);
                    slv2_instance_connect_port_call 1 3 (ptr_control_out 0);
                    slv2_instance_activate_call 1;
                    slv2_instance_deactivate_call 1;
                    slv2_instance_free_call 1 ];
         instantiations := [Some 2] |}.
Proof.
  apply (lifecycle_round_trip amp_klass 44100 amp_world 1 [Some 2]).
  - apply base_init_counts_consistent.
  - reflexivity.
  - reflexivity.
  - reflexivity.
Defined.

(** X4: when SLV2 returns no instance, [gst_lv2_setup] returns FALSE and
    a [gst_lv2_start] that follows is refused: it returns FALSE, activates
    nothing, and the element stays without instance and not activated. *)
Theorem start_refused_after_failed_setup (klass : GstLV2Class) (sample_rate : Z)
    (w : World) :
  activated (self w) = false →
  default None (head (instantiations w)) = None →
  ∃ w1 w2,
    gst_lv2_setup klass sample_rate w = Returns false w1
    ∧ gst_lv2_start w1 = Returns false w2
    ∧ instance (self w2) = None ∧ activated (self w2) = false
    ∧ trace w2
      = trace w
        ++ [ slv2_plugin_instantiate_call (plugin_uri (plugin klass)) sample_rate None;
             g_return_if_fail_warning "lv2->instance != NULL";
             g_return_if_fail_warning "lv2->instance != NULL" ].
Proof.
  intros Hact Hi. do 2 eexists. split; [by apply setup_fails_without_instance|].
  split; [by apply start_refused_without_instance|].
  simpl. split_and!; [done..|]. by rewrite <- app_assoc.
Qed.

Lemma start_refused_after_failed_setup_witness :
  ∃ w1 w2,
    gst_lv2_setup amp_klass 44100
      {| self := amp_element; trace := []; instantiations := [] |} = Returns false w1
    ∧ gst_lv2_start w1 = Returns false w2
    ∧ instance (self w2) = None.
Proof.
  destruct (start_refused_after_failed_setup amp_klass 44100
              {| self := amp_element; trace := []; instantiations := [] |}
              eq_refl eq_refl) as (w1 & w2 & H1 & H2 & H3 & _).
  by exists w1, w2.
Defined.

Lemma same_layout_refl lv2 : same_layout lv2 lv2.
Proof. by repeat split. Qed.

Lemma same_layout_trans lv2a lv2b lv2c :
  same_layout lv2a lv2b → same_layout lv2b lv2c → same_layout lv2a lv2c.
Proof.
  intros (? & ? & ? & ? & ? & ? & ?) (? & ? & ? & ? & ? & ? & ?).
  repeat split; congruence.
Qed.

Lemma only_emits_control_loops inst klass :
  only_emits
    (for_upto (num_control_in klass) (λ i,
       desc ← array_get (control_in_ports klass) i;
       slv2_instance_connect_port inst (port_index desc) (ptr_control_in i));;
     for_upto (num_control_out klass) (λ i,
       desc ← array_get (control_out_ports klass) i;
       slv2_instance_connect_port inst (port_index desc) (ptr_control_out i));;
     mret true).
Proof.
  repeat first [ apply only_emits_bind; [|intros ?]
               | apply only_emits_for_upto; intros ?
               | apply only_emits_array_get
               | apply only_emits_with_instance
               | apply only_emits_ret ].
Qed.

(** The element [gst_lv2_setup] leaves behind when it returns. *)
Lemma setup_self klass sample_rate w b w' :
  gst_lv2_setup klass sample_rate w = Returns b w' →
  self w' = if activated (self w) then self w
            else set_instance (default None (head (instantiations w))) (self w).
Proof.
  intros Hsetup.
  destruct (activated (self w)) eqn:Hact.
  - rewrite setup_refused_when_activated in Hsetup by done.
    injection Hsetup as _ Hw. by subst w'.
  - unfold gst_lv2_setup in Hsetup.
    apply bind_returns_inv in Hsetup as (lv2 & w0 & Hget & Hsetup).
    injection Hget as Hl Hw. subst lv2 w0. rewrite Hact in Hsetup. simpl in Hsetup.
    apply bind_returns_inv in Hsetup as (inst & w2 & Hinst & Hsetup).
    injection Hinst as Hi Hw. subst inst w2.
    apply bind_returns_inv in Hsetup as (u & w3 & Hput & Hsetup).
    injection Hput as Hw. subst w3.
    destruct (default None (head (instantiations w))) as [h|].
    + rewrite (bool_decide_eq_true_2 (Some h ≠ None)) in Hsetup by done.
      apply (only_emits_self _ _ _ _ (only_emits_control_loops (Some h) klass))
        in Hsetup.
      by rewrite Hsetup.
    + simpl in Hsetup. injection Hsetup as _ Hw'. by subst w'.
Qed.

Lemma store_control_in_self k x w w' :
  store_control_in k x w = Returns () w' →
  self w' = set_control_in (<[Z.to_nat k := x]> (control_in (self w))) (self w).
Proof.
  intros Hst. unfold store_control_in in Hst.
  apply bind_returns_inv in Hst as (lv2 & w0 & Hget & Hst).
  injection Hget as Hl Hw. subst lv2 w0. case_bool_decide; [|done].
  injection Hst as Hw. by subst w'.
Qed.

(** The element [gst_lv2_set_property] leaves behind when it returns: the
    same one, or the same one with one control input slot stored. *)
Lemma set_property_self klass prop_id value ty w w' :
  gst_lv2_set_property klass prop_id value ty w = Returns () w' →
  self w' = self w
  ∨ ∃ k x, self w' = set_control_in (<[k := x]> (control_in (self w))) (self w).
Proof.
  unfold gst_lv2_set_property. intros Hrun.
  destruct (negb _) in Hrun.
  { injection Hrun as Hw. subst w'. by left. }
  right. destruct ty; try done; apply store_control_in_self in Hrun; eauto.
Qed.

(** What one returning hook does to the element. *)
Lemma run_hook_step klass c w w' :
  run_hook klass c w = Returns () w' →
  (instance_consistent (self w) → instance_consistent (self w'))
  ∧ same_layout (self w) (self w').
Proof.
  unfold instance_consistent.
  destruct c as [sample_rate| | | |nframes|prop_id value ty|prop_id ty]; simpl; intros Hrun.
  - (* setup *)
    apply bind_returns_inv in Hrun as (b & w1 & Hsetup & Hret).
    injection Hret as Hw. subst w1. rewrite (setup_self _ _ _ _ _ Hsetup).
    destruct (activated (self w)) eqn:Hact; [split; [first [done|by auto|by intuition]|apply same_layout_refl]|].
    simpl. rewrite Hact. split; [first [done|by auto|by intuition]|by repeat split].
  - (* start *)
    apply bind_returns_inv in Hrun as (b & w1 & Hstart & Hret).
    injection Hret as Hw. subst w1.
    destruct (lifecycle_step_start w) as (b' & w1' & Hs & -> & Hself).
    rewrite Hs in Hstart. injection Hstart as _ Hw. subst w1'. rewrite Hself.
    case_bool_decide as Hc; simpl; [|split; [first [done|by auto|by intuition]|apply same_layout_refl]].
    split; [first [done|by auto|by intuition]|by repeat split].
  - (* stop *)
    destruct (lifecycle_step_stop w) as (w1' & Hs & Hself).
    rewrite Hs in Hrun. injection Hrun as Hw. subst w1'. rewrite Hself.
    case_bool_decide as Hc; simpl; [|split; [first [done|by auto|by intuition]|apply same_layout_refl]].
    split; [first [done|by auto|by intuition]|by repeat split].
  - (* cleanup *)
    destruct (lifecycle_step_cleanup w) as (w1' & Hs & Hself).
    rewrite Hs in Hrun. injection Hrun as Hw. subst w1'. rewrite Hself.
    case_bool_decide as Hc; simpl; [|split; [first [done|by auto|by intuition]|apply same_layout_refl]].
    destruct Hc as [Hact _]. rewrite Hact. split; [first [done|by auto|by intuition]|by repeat split].
  - (* process *)
    rewrite (only_emits_self _ _ _ _ (only_emits_process klass nframes) Hrun).
    split; [first [done|by auto|by intuition]|apply same_layout_refl].
  - (* set_property *)
    apply set_property_self in Hrun as [->|(k & x & ->)].
    + split; [first [done|by auto|by intuition]|apply same_layout_refl].
    + simpl. split; [first [done|by auto|by intuition]|]. repeat split. simpl. by rewrite length_insert.
  - (* get_property *)
    apply bind_returns_inv in Hrun as (v & w1 & Hget & Hret).
    injection Hret as Hw. subst w1.
    rewrite (only_emits_self _ _ _ _ (only_emits_get_property klass prop_id ty) Hget).
    split; [first [done|by auto|by intuition]|apply same_layout_refl].
Qed.

Lemma run_hooks_steps klass cs w w' :
  run_hooks klass cs w = Returns () w' →
  (instance_consistent (self w) → instance_consistent (self w'))
  ∧ same_layout (self w) (self w').
Proof.
  unfold run_hooks. revert w. induction cs as [|c cs IH]; intros w Hrun; simpl in Hrun.
  - injection Hrun as Hw. subst w'. split; [done|apply same_layout_refl].
  - apply bind_returns_inv in Hrun as ([] & w1 & Hc & Hcs).
    apply run_hook_step in Hc as [Hc1 Hc2]. apply IH in Hcs as [Hcs1 Hcs2].
    split; [auto|by eapply same_layout_trans].
Qed.

(** X5: an activated element always holds an instance.  Whatever hooks
    are called on an element, in whatever order and with whatever arguments
    (setup, start, stop, cleanup, process, set and get property), if the
    element satisfied "activated implies instance not NULL" before and the
    calls return, it satisfies it afterwards. *)
Theorem hooks_keep_instance_consistent (klass : GstLV2Class) (cs : list HookCall)
    (w w' : World) :
  instance_consistent (self w) →
  run_hooks klass cs w = Returns () w' →
  instance_consistent (self w').
Proof. intros Hinv Hrun. by apply (run_hooks_steps klass cs w w'). Qed.

Lemma hooks_keep_instance_consistent_witness :
  ∃ w',
    run_hooks amp_klass
      [ hook_start; hook_setup 44100; hook_setup 44100; hook_start; hook_cleanup;
        hook_process 64; hook_stop; hook_stop; hook_cleanup ] amp_world
    = Returns () w'
    ∧ instance_consistent (self w').
Proof.
  eexists. split; [vm_compute; reflexivity|].
  apply (hooks_keep_instance_consistent amp_klass
           [ hook_start; hook_setup 44100; hook_setup 44100; hook_start; hook_cleanup;
             hook_process 64; hook_stop; hook_stop; hook_cleanup ] amp_world).
  - intros Hact. discriminate Hact.
  - vm_compute. reflexivity.
Defined.

(** X6: no hook touches the layout of the element.  After any sequence
    of hook calls that returns, the arrays of buffer pointers of the groups
    and of the ungrouped audio ports, the plugin and the numbers of control
    input and control output slots are what they were.  Nothing is said of
    the values in the control slots: the setter writes control inputs, and
    the control outputs are the plugin's to write during a run. *)
Theorem hooks_keep_layout (klass : GstLV2Class) (cs : list HookCall) (w w' : World) :
  run_hooks klass cs w = Returns () w' →
  same_layout (self w) (self w').
Proof. intros Hrun. by apply (run_hooks_steps klass cs w w'). Qed.

Lemma hooks_keep_layout_witness :
  ∃ w',
    run_hooks amp_klass
      [ hook_setup 44100; hook_set_property 1 (g_value_float gfloat_2) G_TYPE_FLOAT;
        hook_start; hook_process 64; hook_get_property 2 G_TYPE_FLOAT ] amp_world
    = Returns () w'
    ∧ same_layout amp_element (self w')
    ∧ control_in (self w') = [gfloat_2].
Proof.
  eexists. split; [vm_compute; reflexivity|]. split; [|reflexivity].
  apply (hooks_keep_layout amp_klass
           [ hook_setup 44100; hook_set_property 1 (g_value_float gfloat_2) G_TYPE_FLOAT;
             hook_start; hook_process 64; hook_get_property 2 G_TYPE_FLOAT ] amp_world).
  vm_compute. reflexivity.
Defined.

Lemma bind_always_faults {A B} (m : M A) (k : A → M B) :
  only_emits m →
  (∀ a w', k a w' = Faults undefined_behaviour) →
  ∀ w, (m ≫= k) w = Faults undefined_behaviour.
Proof.
  intros Hm Hk w. specialize (Hm w). unfold mbind, M_bind.
  destruct (m w) as [a w'|e]; [apply Hk|by subst].
Qed.

(** X7: [gst_lv2_process] checks neither the instance nor the activation
    flag.  On an element whose instance field is NULL the cycle never
    completes: whatever the class and the frame count, it ends in undefined
    behaviour (a call through the NULL instance, at the latest the run
    call). *)
Theorem process_without_instance_undefined (klass : GstLV2Class) (nframes : Z)
    (w : World) :
  instance (self w) = None →
  gst_lv2_process klass nframes w = Faults undefined_behaviour.
Proof.
  intros Hinst. unfold gst_lv2_process.
  mstep reflexivity. rewrite Hinst.
  apply bind_always_faults; [apply only_emits_groups_loop|]. intros _ w1.
  apply bind_always_faults; [apply only_emits_ports_loop|]. intros _ w2.
  apply bind_always_faults; [apply only_emits_groups_loop|]. intros _ w3.
  apply bind_always_faults; [apply only_emits_ports_loop|]. intros _ w4.
  reflexivity.
Qed.

Lemma process_without_instance_undefined_witness :
  gst_lv2_process amp_klass 64 amp_world = Faults undefined_behaviour.
Proof. apply (process_without_instance_undefined amp_klass 64 amp_world). reflexivity. Defined.

(** * More on the property accessors *)

(** X8: a float written to a control input is read back unchanged, and
    nothing else moves.  For an index [i] in [1..num_control_in], setting the
    float [x] returns with slot [i-1] of the control inputs holding [x], every
    other control input slot and all control outputs as before, and no call
    or message recorded; a get of the same index then returns [x]. *)
Theorem set_get_float_round_trip (klass : GstLV2Class) (w : World) (i : Z) (x : gfloat) :
  guint_range (num_control_in klass) →
  1 ≤ i ≤ num_control_in klass →
  num_control_in klass ≤ Z.of_nat (length (control_in (self w))) →
  ∃ w',
    gst_lv2_set_property klass i (g_value_float x) G_TYPE_FLOAT w = Returns () w'
    ∧ gst_lv2_get_property klass i G_TYPE_FLOAT w' = Returns (Some (g_value_float x)) w'
    ∧ control_in (self w') = <[Z.to_nat (i - 1) := x]> (control_in (self w))
    ∧ (∀ k : nat, k ≠ Z.to_nat (i - 1) →
         control_in (self w') !! k = control_in (self w) !! k)
    ∧ control_out (self w') = control_out (self w)
    ∧ trace w' = trace w.
Proof.
  intros Hnci Hi Hlen. eexists. split; [|split_and!].
  - rewrite set_property_stores by done. simpl. apply store_control_in_ok. lia.
  - rewrite get_property_control_in by done.
    apply get_property_value_float; [lia|]. simpl.
    apply list_lookup_insert_eq. lia.
  - done.
  - intros k Hk. simpl. by apply list_lookup_insert_ne.
  - done.
  - done.
Qed.

Lemma set_get_float_round_trip_witness :
  ∃ w',
    gst_lv2_set_property amp_klass 1 (g_value_float gfloat_1_5) G_TYPE_FLOAT amp_world
    = Returns () w'
    ∧ gst_lv2_get_property amp_klass 1 G_TYPE_FLOAT w'
      = Returns (Some (g_value_float gfloat_1_5)) w'.
Proof.
  destruct (set_get_float_round_trip amp_klass amp_world 1 gfloat_1_5)
    as (w' & Hset & Hget & _).
  - vm_compute; split; discriminate.
  - vm_compute; split; discriminate.
  - vm_compute; discriminate.
  - by exists w'.
Defined.

(** X9: [gst_lv2_get_property] only reads.  Whenever it returns, the
    element is unchanged; and for an index that addresses no control (0, or
    above [num_control_in + num_control_out]) it sets no value and logs that
    the place should not be reached. *)
Theorem get_property_reads_only (klass : GstLV2Class) (w : World) :
  guint_range (num_control_in klass) →
  guint_range (num_control_out klass) →
  guint_range (num_control_in klass + num_control_out klass) →
  (∀ i ty v w',
     gst_lv2_get_property klass i ty w = Returns v w' → self w' = self w)
  ∧ (∀ i ty,
       guint_range i →
       ¬ (1 ≤ i ≤ num_control_in klass + num_control_out klass) →
       gst_lv2_get_property klass i ty w
       = Returns None (add_trace w [g_return_if_fail_warning "should not be reached"])).
Proof.
  intros Hnci Hnco Hsum. split.
  - intros i ty v w' Hget.
    by apply (only_emits_self _ _ _ _ (only_emits_get_property klass i ty) Hget).
  - intros i ty Hi Hout. unfold gst_lv2_get_property.
    mstep reflexivity. rewrite guint_add_small by done.
    unfold guint_range in *.
    assert (Hid : num_control_in klass + num_control_out klass ≤ guint_sub i 1).
    { destruct (decide (i = 0)) as [->|Hne].
      - rewrite guint_sub_0_1. lia.
      - rewrite guint_sub_1 by lia. lia. }
    destruct (Z.ltb_spec (guint_sub i 1) (num_control_in klass)); [lia|].
    destruct (Z.ltb_spec (guint_sub i 1)
                (num_control_in klass + num_control_out klass)); [lia|].
    reflexivity.
Qed.

Lemma get_property_reads_only_witness :
  gst_lv2_get_property amp_klass 3 G_TYPE_FLOAT amp_world
  = Returns None (add_trace amp_world [g_return_if_fail_warning "should not be reached"])
  ∧ gst_lv2_get_property amp_klass 0 G_TYPE_FLOAT amp_world
    = Returns None
        (add_trace amp_world [g_return_if_fail_warning "should not be reached"]).
Proof.
  destruct (get_property_reads_only amp_klass amp_world) as [_ Hout].
  - vm_compute; split; discriminate.
  - vm_compute; split; discriminate.
  - vm_compute; split; discriminate.
  - split; apply Hout.
    + vm_compute; split; discriminate.
    + vm_compute. intros [_ H]. by apply H.
    + vm_compute; split; discriminate.
    + vm_compute. intros [H _]. by apply H.
Defined.

(** * The buckets of a class, port by port *)

Lemma indices_where_app f j ports1 ports2 :
  indices_where f j (ports1 ++ ports2)
  = indices_where f j ports1 ++ indices_where f (j + Z.of_nat (length ports1)) ports2.
Proof.
  revert j. induction ports1 as [|port ports1 IH]; intros j.
  - simpl. by rewrite Z.add_0_r.
  - simpl. rewrite IH, <- app_assoc. do 3 f_equal. lia.
Qed.

Lemma elem_of_indices_where f j ports z :
  z ∈ indices_where f j ports
  ↔ ∃ (i : nat) port, ports !! i = Some port ∧ f port = true ∧ z = j + Z.of_nat i.
Proof.
  revert j. induction ports as [|port ports IH]; intros j; simpl.
  - split; [by intros ?%elem_of_nil | by intros (? & ? & ? & _)].
  - rewrite elem_of_app, IH. split.
    + intros [Hz|(i & port' & Hi & Hs & ->)].
      * destruct (f port) eqn:Hu; [|by apply elem_of_nil in Hz].
        apply list_elem_of_singleton in Hz as ->. exists 0%nat, port.
        split_and!; [done..|lia].
      * exists (S i), port'. split_and!; [done..|lia].
    + intros ([|i] & port' & Hi & Hs & ->); simplify_eq/=.
      * left. rewrite Hs. apply list_elem_of_singleton. lia.
      * right. exists i, port'. split_and!; [done..|lia].
Qed.

Lemma scan_port_audio_indices lv2plugin j port st b :
  port_index <$> scan_audio b (scan_port lv2plugin j port st)
  = (port_index <$> scan_audio b st) ++ (if ungrouped_audio b port then [j] else []).
Proof.
  unfold ungrouped_audio.
  scan_port_cases port; rewrite ?Hgroup, ?Haudio, ?Hcontrol, ?Hinput;
    destruct b; simpl; rewrite ?fmap_app, ?app_nil_r; done.
Qed.

Lemma scan_port_control_indices lv2plugin j port st b :
  port_index <$> scan_control b (scan_port lv2plugin j port st)
  = (port_index <$> scan_control b st) ++ (if ungrouped_control b port then [j] else []).
Proof.
  unfold ungrouped_control.
  scan_port_cases port; rewrite ?Hgroup, ?Haudio, ?Hcontrol, ?Hinput;
    destruct b; simpl; rewrite ?fmap_app, ?app_nil_r; done.
Qed.

Lemma scan_ports_audio_indices lv2plugin j ports st b :
  0 ≤ j → j + Z.of_nat (length ports) ≤ G_MAXUINT →
  port_index <$> scan_audio b (scan_ports lv2plugin j ports st)
  = (port_index <$> scan_audio b st) ++ indices_where (ungrouped_audio b) j ports.
Proof.
  revert j st. induction ports as [|port ports IH]; intros j st Hj Hlen.
  - simpl. by rewrite app_nil_r.
  - rewrite length_cons in Hlen. simpl.
    rewrite guint_add_small by (unfold guint_range; lia).
    rewrite IH by lia. by rewrite scan_port_audio_indices, <- app_assoc.
Qed.

Lemma scan_ports_control_indices lv2plugin j ports st b :
  0 ≤ j → j + Z.of_nat (length ports) ≤ G_MAXUINT →
  port_index <$> scan_control b (scan_ports lv2plugin j ports st)
  = (port_index <$> scan_control b st) ++ indices_where (ungrouped_control b) j ports.
Proof.
  revert j st. induction ports as [|port ports IH]; intros j st Hj Hlen.
  - simpl. by rewrite app_nil_r.
  - rewrite length_cons in Hlen. simpl.
    rewrite guint_add_small by (unfold guint_range; lia).
    rewrite IH by lia. by rewrite scan_port_control_indices, <- app_assoc.
Qed.

(** X10: the four buckets of ungrouped ports hold exactly the ports they
    are named after, in declared order.  The port numbers in
    [audio_in_ports] are the numbers of the ports that are in no group, are
    audio ports and are inputs; [audio_out_ports] likewise with "not an
    input"; [control_in_ports] and [control_out_ports] hold the ports in no
    group that are not audio ports but control ports, inputs and non-inputs
    respectively.  A port that is both an audio and a control port counts as
    audio; a port that is not an input counts as an output whatever its
    classes say. *)
Theorem ungrouped_buckets_by_port (lv2plugin : SLV2Plugin) :
  Z.of_nat (length (plugin_ports lv2plugin)) ≤ G_MAXUINT →
  let klass := gst_lv2_base_init lv2plugin in
  port_index <$> audio_in_ports klass
    = indices_where (ungrouped_audio true) 0 (plugin_ports lv2plugin)
  ∧ port_index <$> audio_out_ports klass
    = indices_where (ungrouped_audio false) 0 (plugin_ports lv2plugin)
  ∧ port_index <$> control_in_ports klass
    = indices_where (ungrouped_control true) 0 (plugin_ports lv2plugin)
  ∧ port_index <$> control_out_ports klass
    = indices_where (ungrouped_control false) 0 (plugin_ports lv2plugin).
Proof.
  intros Hlen klass. split_and!.
  - apply (scan_ports_audio_indices lv2plugin 0 _ scan_start true); lia.
  - apply (scan_ports_audio_indices lv2plugin 0 _ scan_start false); lia.
  - apply (scan_ports_control_indices lv2plugin 0 _ scan_start true); lia.
  - apply (scan_ports_control_indices lv2plugin 0 _ scan_start false); lia.
Qed.

Lemma ungrouped_buckets_by_port_witness :
  port_index <$> control_in_ports (gst_lv2_base_init reverb_plugin) = [2; 3]
  ∧ indices_where (ungrouped_control true) 0 (plugin_ports reverb_plugin) = [2; 3].
Proof.
  split; [|reflexivity].
  apply (ungrouped_buckets_by_port reverb_plugin). vm_compute. discriminate.
Defined.

(** * The groups of a class *)

Lemma alter_append_port_uris desc (i : nat) (groups : list GstLV2Group) :
  group_uri <$> alter (group_append_port desc) i groups = group_uri <$> groups.
Proof.
  revert i. induction groups as [|g groups IH]; intros [|i]; csimpl; by rewrite ?IH.
Qed.

Lemma scan_port_groups lv2plugin j port st b :
  scan_groups b (scan_port lv2plugin j port st)
  = match slv2_port_get_value port in_group_pred with
    | uri :: _ =>
        if bool_decide (slv2_port_is_a port input_class = b)
        then group_with_port lv2plugin uri (scan_pad_index b st)
               {| port_index := j; port_pad := 0 |} (scan_groups b st)
        else scan_groups b st
    | [] => scan_groups b st
    end.
Proof.
  unfold scan_port, group_with_port.
  destruct (slv2_port_get_value port in_group_pred) as [|uri uris].
  - destruct (slv2_port_is_a port audio_class);
      [|destruct (slv2_port_is_a port control_class)];
      destruct (slv2_port_is_a port input_class); by destruct b.
  - destruct (slv2_port_is_a port input_class); destruct b; simpl;
      destruct (gst_lv2_class_find_group _ uri); simpl;
      by rewrite ?alter_append_port_new.
Qed.

Lemma groups_inv_ext lv2plugin members members' groups :
  (∀ uri, members uri = members' uri) →
  groups_inv lv2plugin members groups → groups_inv lv2plugin members' groups.
Proof.
  intros Hext (Hnd & Hg & Hnone). split_and!; [done|..].
  - intros g Hin. rewrite <- Hext. by apply Hg.
  - intros uri Hu. rewrite <- Hext. by apply Hnone.
Qed.

Lemma group_with_port_inv lv2plugin members groups uri pad j :
  groups_inv lv2plugin members groups →
  groups_inv lv2plugin
    (λ u, members u ++ (if bool_decide (u = uri) then [j] else []))
    (group_with_port lv2plugin uri pad {| port_index := j; port_pad := 0 |} groups).
Proof.
  intros (Hnd & Hg & Hnone). unfold group_with_port, gst_lv2_class_find_group.
  destruct (list_find _ groups) as [[i gi]|] eqn:Hfind; simpl.
  - apply list_find_Some in Hfind as (Hi & Heq & _).
    apply bool_decide_eq_true in Heq. subst uri.
    assert (Hin : group_uri gi ∈ group_uri <$> groups).
    { apply list_elem_of_fmap_2. by eapply list_elem_of_lookup_2. }
    split_and!.
    + by rewrite alter_append_port_uris.
    + intros g' [k Hk]%list_elem_of_lookup.
      destruct (decide (k = i)) as [->|Hne].
      * rewrite list_lookup_alter_eq, Hi in Hk. simpl in Hk. injection Hk as <-. simpl.
        destruct (Hg gi) as (Hm & _ & Hsym); [by eapply list_elem_of_lookup_2|].
        rewrite fmap_app, Hm, bool_decide_eq_true_2 by done.
        split_and!; [done| |done]. by destruct (group_ports gi).
      * rewrite list_lookup_alter_ne in Hk by done.
        destruct (Hg g') as (Hm & Hne' & Hsym); [by eapply list_elem_of_lookup_2|].
        assert (group_uri g' ≠ group_uri gi).
        { intros Hu. apply Hne. eapply (NoDup_lookup _ k i (group_uri gi) Hnd).
          - by rewrite list_lookup_fmap, Hk, <- Hu.
          - by rewrite list_lookup_fmap, Hi. }
        by rewrite bool_decide_eq_false_2, app_nil_r.
    + intros u Hu. rewrite alter_append_port_uris in Hu.
      rewrite Hnone by done. rewrite bool_decide_eq_false_2; [done|].
      by intros ->.
  - apply list_find_None in Hfind.
    assert (Hout : uri ∉ group_uri <$> groups).
    { intros (g & Hu & Hin)%list_elem_of_fmap.
      rewrite Forall_forall in Hfind. apply (Hfind g Hin).
      apply bool_decide_eq_true. done. }
    split_and!.
    + rewrite fmap_app. apply NoDup_app. split_and!; [done| |apply NoDup_singleton].
      intros u Hu ->%list_elem_of_singleton. done.
    + intros g' [Hin| ->%list_elem_of_singleton]%elem_of_app.
      * destruct (Hg g' Hin) as (Hm & Hne' & Hsym).
        assert (group_uri g' ≠ uri).
        { intros Hu. apply Hout. rewrite <- Hu. by apply list_elem_of_fmap_2. }
        by rewrite bool_decide_eq_false_2, app_nil_r.
      * simpl. rewrite Hnone by done. by rewrite bool_decide_eq_true_2.
    + intros u Hu. rewrite fmap_app in Hu. apply not_elem_of_app in Hu as [Hu1 Hu2].
      rewrite Hnone by done. rewrite bool_decide_eq_false_2; [done|].
      intros ->. apply Hu2. by apply list_elem_of_singleton.
Qed.

Lemma scan_port_groups_inv lv2plugin j port st b members :
  groups_inv lv2plugin members (scan_groups b st) →
  groups_inv lv2plugin
    (λ u, members u ++ (if port_in_group b u port then [j] else []))
    (scan_groups b (scan_port lv2plugin j port st)).
Proof.
  intros Hinv. rewrite scan_port_groups. unfold port_in_group.
  destruct (slv2_port_get_value port in_group_pred) as [|uri uris]; simpl.
  - eapply groups_inv_ext; [|done]. intros u. by rewrite app_nil_r.
  - case_bool_decide as Hdir.
    + eapply groups_inv_ext; [|by apply group_with_port_inv].
      intros u. simpl. rewrite andb_true_r. f_equal.
      rewrite (bool_decide_ext (u = uri) (Some uri = Some u)); [done|naive_solver].
    + eapply groups_inv_ext; [|done]. intros u.
      by rewrite andb_false_r, app_nil_r.
Qed.

Lemma scan_ports_groups_inv lv2plugin j0 seen ports st b :
  0 ≤ j0 → j0 + Z.of_nat (length seen + length ports) ≤ G_MAXUINT →
  groups_inv lv2plugin (λ u, indices_where (port_in_group b u) j0 seen)
    (scan_groups b st) →
  groups_inv lv2plugin (λ u, indices_where (port_in_group b u) j0 (seen ++ ports))
    (scan_groups b (scan_ports lv2plugin (j0 + Z.of_nat (length seen)) ports st)).
Proof.
  revert seen st. induction ports as [|port ports IH]; intros seen st Hj Hlen Hinv.
  - simpl. by rewrite app_nil_r.
  - simpl in *. rewrite guint_add_small by (unfold guint_range; lia).
    replace (j0 + Z.of_nat (length seen) + 1)
      with (j0 + Z.of_nat (length (seen ++ [port]))) by (rewrite length_app; simpl; lia).
    rewrite (cons_middle port seen ports), app_assoc.
    apply IH; [done|rewrite length_app; simpl; lia|].
    eapply groups_inv_ext; [|by apply scan_port_groups_inv].
    intros u. simpl. rewrite indices_where_app. simpl. by rewrite app_nil_r.
Qed.

Lemma base_init_groups_inv lv2plugin b :
  Z.of_nat (length (plugin_ports lv2plugin)) ≤ G_MAXUINT →
  groups_inv lv2plugin
    (λ u, indices_where (port_in_group b u) 0 (plugin_ports lv2plugin))
    (scan_groups b (scan_ports lv2plugin 0 (plugin_ports lv2plugin) scan_start)).
Proof.
  intros Hlen.
  apply (scan_ports_groups_inv lv2plugin 0 [] (plugin_ports lv2plugin) scan_start b);
    [done|simpl; lia|].
  destruct b; (split_and!; [constructor|by intros g ?%elem_of_nil|done]).
Qed.

(** X11: the groups of a class are well formed.  In each direction no
    two groups have the same URI; every group has at least one member port;
    and the symbol of a group is the first lv2:symbol value the plugin gives
    for the group URI, or NULL when it gives none. *)
Theorem groups_well_formed (lv2plugin : SLV2Plugin) :
  Z.of_nat (length (plugin_ports lv2plugin)) ≤ G_MAXUINT →
  let klass := gst_lv2_base_init lv2plugin in
  NoDup (group_uri <$> in_groups klass)
  ∧ NoDup (group_uri <$> out_groups klass)
  ∧ (∀ g, g ∈ in_groups klass ++ out_groups klass →
       group_ports g ≠ []
       ∧ group_symbol g
         = head (slv2_plugin_get_value_for_subject lv2plugin (group_uri g)
                   lv2_symbol_pred)).
Proof.
  intros Hlen klass.
  destruct (base_init_groups_inv lv2plugin true Hlen) as (Hnd_in & Hg_in & _).
  destruct (base_init_groups_inv lv2plugin false Hlen) as (Hnd_out & Hg_out & _).
  split_and!; [done..|].
  intros g [Hin|Hin]%elem_of_app.
  - by destruct (Hg_in g Hin) as (_ & ? & ?).
  - by destruct (Hg_out g Hin) as (_ & ? & ?).
Qed.

Lemma groups_well_formed_witness :
  NoDup (group_uri <$> in_groups stereo_klass)
  ∧ NoDup (group_uri <$> out_groups stereo_klass).
Proof.
  destruct (groups_well_formed stereo_plugin) as (Hin & Hout & _).
  - vm_compute. discriminate.
  - by split.
Defined.

(** X12: the members of a group are the ports that name it.  The port
    numbers held by a group of the input direction are, in declared order,
    the numbers of the input ports whose first inGroup value is the URI of
    the group, whatever the classes of those ports; likewise for the groups
    of the output direction and the ports that are not inputs.  And every
    such port has its group: a URI named by some port of a direction is the
    URI of a group of that direction. *)
Theorem group_members_by_port (lv2plugin : SLV2Plugin) :
  Z.of_nat (length (plugin_ports lv2plugin)) ≤ G_MAXUINT →
  let klass := gst_lv2_base_init lv2plugin in
  (∀ g, g ∈ in_groups klass →
     port_index <$> group_ports g
     = indices_where (port_in_group true (group_uri g)) 0 (plugin_ports lv2plugin))
  ∧ (∀ g, g ∈ out_groups klass →
       port_index <$> group_ports g
       = indices_where (port_in_group false (group_uri g)) 0 (plugin_ports lv2plugin))
  ∧ (∀ uri,
       indices_where (port_in_group true uri) 0 (plugin_ports lv2plugin) ≠ [] →
       uri ∈ group_uri <$> in_groups klass)
  ∧ (∀ uri,
       indices_where (port_in_group false uri) 0 (plugin_ports lv2plugin) ≠ [] →
       uri ∈ group_uri <$> out_groups klass).
Proof.
  intros Hlen klass.
  destruct (base_init_groups_inv lv2plugin true Hlen) as (_ & Hg_in & Hnone_in).
  destruct (base_init_groups_inv lv2plugin false Hlen) as (_ & Hg_out & Hnone_out).
  split_and!.
  - intros g Hin. by destruct (Hg_in g Hin).
  - intros g Hin. by destruct (Hg_out g Hin).
  - intros uri Hne. destruct (decide (uri ∈ group_uri <$> in_groups klass)); [done|].
    by destruct Hne; apply Hnone_in.
  - intros uri Hne. destruct (decide (uri ∈ group_uri <$> out_groups klass)); [done|].
    by destruct Hne; apply Hnone_out.
Qed.

Lemma group_members_by_port_witness :
  Forall (λ g, port_index <$> group_ports g = [0; 1]) (in_groups stereo_klass).
Proof.
  apply Forall_forall. intros g Hg.
  destruct (group_members_by_port stereo_plugin) as (Hin & _).
  - vm_compute. discriminate.
  - rewrite (Hin g Hg).
    apply list_elem_of_singleton in Hg as ->. reflexivity.
Defined.

(** * The pad templates as a whole *)

Lemma imap_index_seqZ {A} (f : nat → A → PadTemplate) (l : list A) :
  (∀ j a, templ_index (f j a) = Z.of_nat j) →
  templ_index <$> imap f l = seqZ 0 (Z.of_nat (length l)).
Proof.
  intros Hf. apply list_eq. intros i. rewrite list_lookup_fmap, list_lookup_imap.
  destruct (l !! i) as [a|] eqn:Hi; simpl.
  - apply lookup_lt_Some in Hi. rewrite lookup_seqZ_lt by lia. by rewrite Hf.
  - apply lookup_ge_None in Hi. by rewrite lookup_seqZ_ge by lia.
Qed.

Lemma Forall_imap {A B} (P : B → Prop) (f : nat → A → B) (l : list A) :
  (∀ j a, a ∈ l → P (f j a)) → Forall P (imap f l).
Proof.
  intros Hf. apply Forall_lookup. intros i b. rewrite list_lookup_imap.
  destruct (l !! i) as [a|] eqn:Hi; intros; simplify_eq/=.
  apply Hf. by eapply list_elem_of_lookup_2.
Qed.

Lemma get_port_indices_where lv2plugin f pre rest :
  plugin_ports lv2plugin = pre ++ rest →
  slv2_plugin_get_port_by_index lv2plugin <$> indices_where f (Z.of_nat (length pre)) rest
  = Some <$> filter (λ port, f port = true) rest.
Proof.
  revert pre. induction rest as [|port rest IH]; intros pre Hports; [done|].
  simpl. rewrite filter_cons, fmap_app.
  replace (Z.of_nat (length pre) + 1) with (Z.of_nat (length (pre ++ [port])))
    by (rewrite length_app; simpl; lia).
  rewrite IH by (by rewrite <- app_assoc).
  destruct (f port) eqn:Hf; case_decide; try done. simpl. f_equal.
  unfold slv2_plugin_get_port_by_index.
  destruct (Z.leb_spec 0 (Z.of_nat (length pre))); [|lia].
  by rewrite Nat2Z.id, Hports, list_lookup_middle.
Qed.

Lemma port_template_names lv2plugin dir f (descs : list GstLV2Port) :
  port_index <$> descs = indices_where f 0 (plugin_ports lv2plugin) →
  templ_name <$> imap (port_pad_template lv2plugin dir) descs
  = (Some ∘ port_symbol) <$> filter (λ port, f port = true) (plugin_ports lv2plugin).
Proof.
  intros Hdescs.
  transitivity ((fmap port_symbol ∘ slv2_plugin_get_port_by_index lv2plugin)
                  <$> (port_index <$> descs)).
  - rewrite <- list_fmap_compose. apply list_eq. intros i.
    rewrite !list_lookup_fmap, list_lookup_imap. by destruct (descs !! i).
  - pose proof (get_port_indices_where lv2plugin f [] (plugin_ports lv2plugin) eq_refl)
      as Hget.
    change (Z.of_nat (length [])) with 0 in Hget.
    rewrite Hdescs, list_fmap_compose, Hget. by rewrite <- !list_fmap_compose.
Qed.

(** X13: the pad templates of a class.  The slot passed for a template is
    the position of its group or port in its own array, so the slots run
    from 0 in each of the four runs of templates (input groups, output
    groups, ungrouped audio inputs, ungrouped audio outputs); every template
    has at least one channel (a group has as many as it has members, an
    ungrouped port has one); and the templates of the ungrouped ports are
    named, in order, by the symbols of the ungrouped audio inputs and then of
    the ungrouped audio outputs of the plugin. *)
Theorem pad_templates_layout (lv2plugin : SLV2Plugin) :
  Z.of_nat (length (plugin_ports lv2plugin)) ≤ G_MAXUINT →
  let klass := gst_lv2_base_init lv2plugin in
  templ_index <$> pad_templates klass
    = seqZ 0 (num_group_in klass) ++ seqZ 0 (num_group_out klass)
      ++ seqZ 0 (num_audio_in klass) ++ seqZ 0 (num_audio_out klass)
  ∧ Forall (λ t, 1 ≤ templ_channels t) (pad_templates klass)
  ∧ templ_name
      <$> drop (length (in_groups klass) + length (out_groups klass))
            (pad_templates klass)
    = (Some ∘ port_symbol)
        <$> filter (λ port, ungrouped_audio true port = true) (plugin_ports lv2plugin)
            ++ filter (λ port, ungrouped_audio false port = true)
                 (plugin_ports lv2plugin).
Proof.
  intros Hlen klass.
  destruct (base_init_groups_inv lv2plugin true Hlen) as (_ & Hg_in & _).
  destruct (base_init_groups_inv lv2plugin false Hlen) as (_ & Hg_out & _).
  assert (Hgroup : ∀ g : GstLV2Group,
            group_ports g ≠ [] → 1 ≤ Z.of_nat (length (group_ports g))).
  { intros g Hne. destruct (group_ports g); [done|]. simpl. lia. }
  split_and!.
  - simpl. rewrite !fmap_app. by rewrite !imap_index_seqZ.
  - simpl. rewrite !Forall_app. split_and!; apply Forall_imap; intros j a Ha; simpl.
    + apply Hgroup. by destruct (Hg_in a Ha) as (_ & ? & _).
    + apply Hgroup. by destruct (Hg_out a Ha) as (_ & ? & _).
    + done.
    + done.
  - simpl. rewrite app_assoc, drop_app_length'
      by (by rewrite length_app, !length_imap).
    rewrite !fmap_app. f_equal.
    + apply port_template_names.
      apply (scan_ports_audio_indices lv2plugin 0 _ scan_start true); lia.
    + apply port_template_names.
      apply (scan_ports_audio_indices lv2plugin 0 _ scan_start false); lia.
Qed.

Lemma pad_templates_layout_witness :
  templ_index <$> pad_templates (gst_lv2_base_init mixed_plugin) = [0; 0]
  ∧ templ_name <$> pad_templates amp_klass = [Some "in"; Some "out"].
Proof.
  split.
  - apply (pad_templates_layout mixed_plugin). vm_compute. discriminate.
  - apply (pad_templates_layout amp_plugin). vm_compute. discriminate.
Defined.

(** * More on the parameter specifications *)

Lemma param_spec_flags_value lv2plugin port :
  pspec_flags (param_spec_of_port lv2plugin port).1
  = 1 + (if slv2_port_is_a port input_class then 6 else 0)
      + (if slv2_port_is_a port control_class then 512 else 0).
Proof.
  unfold param_spec_of_port.
  destruct (slv2_port_is_a port input_class), (slv2_port_is_a port control_class);
    repeat case_match; reflexivity.
Qed.

(** X14: name, type and flags of the specification of a port.  The
    property is named by the port's symbol; it is boolean when the port is
    toggled, else an integer when the port has the integer property, else a
    float.  It is always readable; it is writable, and set at construction,
    exactly when the port is an input; it is controllable exactly when the
    port is a control port; no other flag is set. *)
Theorem param_spec_shape (lv2plugin : SLV2Plugin) (port : SLV2Port) :
  let pspec := (param_spec_of_port lv2plugin port).1 in
  pspec_name pspec = port_symbol port
  ∧ value_type pspec
    = (if slv2_port_has_property port toggled_prop then G_TYPE_BOOLEAN
       else if slv2_port_has_property port integer_prop then G_TYPE_INT
       else G_TYPE_FLOAT)
  ∧ Z.land (pspec_flags pspec) G_PARAM_READABLE = G_PARAM_READABLE
  ∧ Z.land (pspec_flags pspec) G_PARAM_WRITABLE
    = (if slv2_port_is_a port input_class then G_PARAM_WRITABLE else 0)
  ∧ Z.land (pspec_flags pspec) G_PARAM_CONSTRUCT
    = (if slv2_port_is_a port input_class then G_PARAM_CONSTRUCT else 0)
  ∧ Z.land (pspec_flags pspec) GST_PARAM_CONTROLLABLE
    = (if slv2_port_is_a port control_class then GST_PARAM_CONTROLLABLE else 0)
  ∧ Z.land (pspec_flags pspec)
      (Z.lnot (Z.lor (Z.lor G_PARAM_READABLE G_PARAM_WRITABLE)
                 (Z.lor G_PARAM_CONSTRUCT GST_PARAM_CONTROLLABLE)))
    = 0.
Proof.
  intros pspec. subst pspec. split_and!.
  - unfold param_spec_of_port. by repeat case_match.
  - unfold param_spec_of_port. by repeat case_match.
  - rewrite param_spec_flags_value.
    by destruct (slv2_port_is_a port input_class), (slv2_port_is_a port control_class).
  - rewrite param_spec_flags_value.
    by destruct (slv2_port_is_a port input_class), (slv2_port_is_a port control_class).
  - rewrite param_spec_flags_value.
    by destruct (slv2_port_is_a port input_class), (slv2_port_is_a port control_class).
  - rewrite param_spec_flags_value.
    by destruct (slv2_port_is_a port input_class), (slv2_port_is_a port control_class).
  - rewrite param_spec_flags_value.
    by destruct (slv2_port_is_a port input_class), (slv2_port_is_a port control_class).
Qed.

Lemma SFltb_irrefl (x : spec_float) : SFltb x x = false.
Proof.
  unfold SFltb, SFcompare.
  destruct x as [[|]|[|]| |[|] m e]; try reflexivity;
    rewrite Z.compare_refl, Pos.compare_cont_refl; reflexivity.
Qed.

(** X15: the default handed to [g_param_spec_float] is never outside the
    bounds handed with it.  For a port that is neither toggled nor integer,
    whatever range the plugin declares (also one with the default outside the
    bounds, with the bounds the wrong way round, or with values missing), the
    float specification has a default that is not below its minimum and not
    above its maximum. *)
Theorem float_spec_default_within_bounds (lv2plugin : SLV2Plugin) (port : SLV2Port) :
  slv2_port_has_property port toggled_prop = false →
  slv2_port_has_property port integer_prop = false →
  ∃ name lower upper def flags,
    (param_spec_of_port lv2plugin port).1 = g_param_spec_float name lower upper def flags
    ∧ def = default gfloat_0 (port_default port)
    ∧ gfloat_lt def lower = false
    ∧ gfloat_gt def upper = false.
Proof.
  intros Htoggled Hinteger. unfold param_spec_of_port. rewrite Htoggled, Hinteger.
  destruct (gfloat_lt _ _) eqn:Hlt; destruct (gfloat_gt _ _) eqn:Hgt;
    do 5 eexists; (split; [reflexivity|]); (split; [reflexivity|]);
    split; first [done | apply SFltb_irrefl].
Qed.

Lemma float_spec_default_within_bounds_witness :
  ∃ name lower upper def flags,
    (param_spec_of_port reverb_plugin wet_port).1
    = g_param_spec_float name lower upper def flags
    ∧ def = gfloat_1_5
    ∧ gfloat_gt def upper = false.
Proof.
  destruct (float_spec_default_within_bounds reverb_plugin wet_port eq_refl eq_refl)
    as (name & lower & upper & def & flags & Hspec & Hdef & _ & Hgt).
  by exists name, lower, upper, def, flags.
Defined.




(** * More on gst_lv2_class_init *)

(** The specification built for a port number kept in a control bucket
    carries the flags of a control port of that direction. *)
Lemma control_bucket_param_spec lv2plugin b d pw :
  Z.of_nat (length (plugin_ports lv2plugin)) ≤ G_MAXUINT →
  d ∈ scan_control b (scan_ports lv2plugin 0 (plugin_ports lv2plugin) scan_start) →
  gst_lv2_class_get_param_spec (gst_lv2_base_init lv2plugin) (port_index d)
  = Some pw →
  pspec_flags pw.1 = 1 + (if b then 6 else 0) + 512.
Proof.
  intros Hlen Hd Hpw.
  apply (list_elem_of_fmap_2 port_index) in Hd.
  rewrite scan_ports_control_indices in Hd by lia.
  replace (port_index <$> scan_control b scan_start) with (@nil Z) in Hd
    by (by destruct b).
  simpl in Hd.
  apply elem_of_indices_where in Hd as (i & port & Hi & Hf & Heq).
  unfold gst_lv2_class_get_param_spec in Hpw. simpl in Hpw.
  rewrite Heq in Hpw. unfold slv2_plugin_get_port_by_index in Hpw.
  destruct (Z.leb_spec 0 (0 + Z.of_nat i)); [|lia].
  rewrite Z.add_0_l, Nat2Z.id, Hi in Hpw. simpl in Hpw.
  injection Hpw as <-. rewrite param_spec_flags_value.
  unfold ungrouped_control in Hf.
  apply andb_prop in Hf as [Hf Hin%bool_decide_eq_true].
  apply andb_prop in Hf as [_ ->]. by rewrite Hin.
Qed.

(** X17: the properties [gst_lv2_class_init] installs on the class of any
    plugin.  There is one per ungrouped control port, with the ids
    1, 2, ... in installation order, control inputs before control outputs.
    Every one is readable and controllable; those with an id up to
    [num_control_in] are also writable and set at construction, the others
    are read-only.  So the ids that can be written are the ones
    [gst_lv2_set_property] resolves in [control_in]. *)
Theorem class_init_properties (lv2plugin : SLV2Plugin) :
  Z.of_nat (length (plugin_ports lv2plugin)) ≤ G_MAXUINT →
  let klass := gst_lv2_base_init lv2plugin in
  ∃ props warnings,
    gst_lv2_class_init klass = Some (props, warnings)
    ∧ props.*1 = seqZ 1 (num_control_in klass + num_control_out klass)
    ∧ ∀ id pspec, (id, pspec) ∈ props →
        pspec_flags pspec
        = if bool_decide (id ≤ num_control_in klass)
          then Z.lor G_PARAM_READABLE
                 (Z.lor G_PARAM_WRITABLE
                    (Z.lor G_PARAM_CONSTRUCT GST_PARAM_CONTROLLABLE))
          else Z.lor G_PARAM_READABLE GST_PARAM_CONTROLLABLE.
Proof.
  intros Hlen klass.
  destruct (class_init_property_ids lv2plugin Hlen) as (props & ws & Hinit & Hids).
  exists props, ws. split_and!; [done..|].
  fold klass in Hinit. unfold gst_lv2_class_init in Hinit.
  destruct (mapM _ (control_in_ports klass)) as [ins|] eqn:Hins; [|done].
  destruct (mapM _ (control_out_ports klass)) as [outs|] eqn:Houts; [|done].
  simpl in Hinit. injection Hinit as <- _.
  pose proof (length_mapM _ _ _ Hins) as Hlen_in.
  apply mapM_Some in Hins, Houts.
  intros id pspec [Hin|Hin]%elem_of_app;
    apply elem_of_lookup_imap in Hin as (i & pw & Heq & Hi);
    injection Heq as -> ->.
  - destruct (Forall2_lookup_r _ _ _ _ _ Hins Hi) as (d & Hd & Hspec).
    apply lookup_lt_Some in Hi.
    rewrite bool_decide_eq_true_2 by (subst klass; simpl in *; lia).
    by rewrite (control_bucket_param_spec lv2plugin true d pw Hlen
                  (list_elem_of_lookup_2 _ _ _ Hd) Hspec).
  - destruct (Forall2_lookup_r _ _ _ _ _ Houts Hi) as (d & Hd & Hspec).
    rewrite bool_decide_eq_false_2 by (subst klass; simpl in *; lia).
    by rewrite (control_bucket_param_spec lv2plugin false d pw Hlen
                  (list_elem_of_lookup_2 _ _ _ Hd) Hspec).
Qed.

Lemma class_init_properties_witness :
  ∃ props warnings,
    gst_lv2_class_init (gst_lv2_base_init reverb_plugin) = Some (props, warnings)
    ∧ props.*1 = seqZ 1 (num_control_in (gst_lv2_base_init reverb_plugin)
                         + num_control_out (gst_lv2_base_init reverb_plugin))
    ∧ ∀ id pspec, (id, pspec) ∈ props →
        pspec_flags pspec
        = if bool_decide (id ≤ num_control_in (gst_lv2_base_init reverb_plugin))
          then Z.lor G_PARAM_READABLE
                 (Z.lor G_PARAM_WRITABLE
                    (Z.lor G_PARAM_CONSTRUCT GST_PARAM_CONTROLLABLE))
          else Z.lor G_PARAM_READABLE GST_PARAM_CONTROLLABLE.
Proof. apply (class_init_properties reverb_plugin). vm_compute. discriminate. Defined.


(** * More on lv2_plugin_discover *)

Section discover_scan.
Context (check_type_name element_register_ok : string → bool).

Local Abbreviation scan_one :=
  (discover_plugin check_type_name element_register_ok).
Local Abbreviation scan_all :=
  (discover_loop check_type_name element_register_ok).

(** A name GLib rejects is tried and leaves no trace. *)
Lemma discover_plugin_rejected lv2plugin ts :
  types ts !! lv2_type_name lv2plugin = None →
  check_type_name (lv2_type_name lv2plugin) = false →
  scan_one lv2plugin ts = (true, ts).
Proof.
  intros Hnone Hcheck. unfold discover_plugin, g_type_from_name.
  rewrite Hnone. unfold g_type_register_static. by rewrite Hcheck.
Qed.

Lemma discover_plugin_reached lv2plugin ts :
  (scan_one lv2plugin ts).1
  = bool_decide (types ts !! lv2_type_name lv2plugin = None).
Proof.
  unfold discover_plugin, g_type_from_name.
  destruct (types ts !! lv2_type_name lv2plugin); [done|].
  destruct (g_type_register_static _ _ _ _) as [type ts1].
  by destruct (gst_element_register _ _ _ _).
Qed.

Lemma discover_plugin_types lv2plugin ts name :
  types (scan_one lv2plugin ts).2 !! name
  = match types ts !! name with
    | Some node => Some node
    | None =>
        if decide (lv2_type_name lv2plugin = name) then
          if check_type_name name
          then Some {| class_data := Some lv2plugin;
                       slv2_plugin_qdata := Some lv2plugin |}
          else None
        else None
    end.
Proof.
  destruct (types ts !! name) as [node|] eqn:Hname.
  - by apply discover_plugin_keeps.
  - destruct (decide (lv2_type_name lv2plugin = name)) as [<-|Hne].
    + destruct (check_type_name _) eqn:Hcheck.
      * by apply discover_plugin_new.
      * by rewrite discover_plugin_rejected.
    + by rewrite discover_plugin_other.
Qed.

Lemma discover_plugin_factories lv2plugin ts :
  element_factories (scan_one lv2plugin ts).2
  = element_factories ts
    ++ (if bool_decide (types ts !! lv2_type_name lv2plugin = None)
           && check_type_name (lv2_type_name lv2plugin)
           && element_register_ok (lv2_type_name lv2plugin)
        then [(lv2_type_name lv2plugin, lv2_type_name lv2plugin)] else []).
Proof.
  unfold discover_plugin, g_type_from_name.
  destruct (types ts !! lv2_type_name lv2plugin); simpl.
  - by rewrite app_nil_r.
  - unfold g_type_register_static, gst_element_register.
    destruct (check_type_name _); simpl; [|by rewrite app_nil_r].
    destruct (element_register_ok _); simpl; [done|by rewrite app_nil_r].
Qed.

Lemma discover_loop_types plugins ts name :
  types (scan_all plugins ts).2 !! name
  = match types ts !! name with
    | Some node => Some node
    | None =>
        match list_find (λ p, lv2_type_name p = name) plugins with
        | Some (_, first) =>
            if check_type_name name
            then Some {| class_data := Some first;
                         slv2_plugin_qdata := Some first |}
            else None
        | None => None
        end
    end.
Proof.
  revert ts. induction plugins as [|p plugins IH]; intros ts.
  - simpl. by destruct (types ts !! name).
  - rewrite discover_loop_cons. simpl. rewrite IH, discover_plugin_types.
    destruct (types ts !! name) as [node|]; [done|].
    destruct (decide (lv2_type_name p = name)) as [Heq|Hne].
    + destruct (check_type_name name); [done|].
      by destruct (list_find _ plugins) as [[? ?]|].
    + by destruct (list_find _ plugins) as [[? ?]|].
Qed.

Lemma discover_loop_reached plugins ts (i : nat) lv2plugin :
  plugins !! i = Some lv2plugin →
  (scan_all plugins ts).1 !! i
  = Some (bool_decide
            (types ts !! lv2_type_name lv2plugin = None
             ∧ (check_type_name (lv2_type_name lv2plugin) = false
                ∨ lv2_type_name lv2plugin ∉ lv2_type_name <$> take i plugins))).
Proof.
  revert ts i. induction plugins as [|q plugins IH]; intros ts i Hi; [done|].
  rewrite discover_loop_cons. destruct i as [|i]; simpl in *.
  - injection Hi as ->. rewrite discover_plugin_reached. f_equal.
    apply bool_decide_ext. split; [|tauto].
    intros Hnone. split; [done|]. right. apply not_elem_of_nil.
  - rewrite (IH _ _ Hi). f_equal. apply bool_decide_ext.
    rewrite discover_plugin_types, not_elem_of_cons.
    destruct (types ts !! lv2_type_name lv2plugin) as [node|];
      [by split; intros [? _]|].
    destruct (decide (lv2_type_name q = lv2_type_name lv2plugin)) as [Heq|Hne].
    + destruct (check_type_name (lv2_type_name lv2plugin)) eqn:Hcheck.
      * split; [by intros [? _]|]. intros [_ [?|[? _]]]; congruence.
      * split; [|tauto]. intros _. split; [done|]. by left.
    + split; [|tauto]. intros [_ [?|?]]; split; [done|by left|done|].
      right. split; [congruence|done].
Qed.

Lemma discover_loop_factories plugins ts :
  ∃ new,
    element_factories (scan_all plugins ts).2 = element_factories ts ++ new
    ∧ NoDup new
    ∧ ∀ x, x ∈ new ↔
        ∃ p, p ∈ plugins ∧ x = (lv2_type_name p, lv2_type_name p)
             ∧ types ts !! lv2_type_name p = None
             ∧ check_type_name (lv2_type_name p) = true
             ∧ element_register_ok (lv2_type_name p) = true.
Proof.
  revert ts. induction plugins as [|q plugins IH]; intros ts.
  - exists []. simpl. rewrite app_nil_r. split_and!; [done|constructor|].
    intros x. split; [by intros ?%elem_of_nil|].
    by intros (p & ?%elem_of_nil & _).
  - rewrite discover_loop_cons. simpl.
    destruct (IH (scan_one q ts).2) as (new & Hnew & Hdup & Hin).
    rewrite Hnew, discover_plugin_factories, <- app_assoc.
    eexists. split; [reflexivity|].
    assert (Hlater : ∀ p,
              types (scan_one q ts).2 !! lv2_type_name p = None
              ↔ types ts !! lv2_type_name p = None
                ∧ (lv2_type_name q = lv2_type_name p →
                   check_type_name (lv2_type_name p) = false)).
    { intros p. rewrite discover_plugin_types.
      destruct (types ts !! lv2_type_name p); [by split; [|intros [? _]]|].
      destruct (decide _) as [Heq|Hne].
      - destruct (check_type_name _); split;
          [done|intros [_ Hrej]; by specialize (Hrej Heq)|by intros _; split|done].
      - split; [by intros _; split|done]. }
    destruct (bool_decide (types ts !! lv2_type_name q = None)
              && check_type_name (lv2_type_name q)
              && element_register_ok (lv2_type_name q)) eqn:Hq; simpl.
    + apply andb_prop in Hq as [Hq Hok].
      apply andb_prop in Hq as [Hfree%bool_decide_eq_true Hcheck].
      split.
      * constructor; [|done]. rewrite Hin. intros (p & _ & Heq & Hnone & _).
        injection Heq as Heq _. apply Hlater in Hnone as [_ Hrej].
        specialize (Hrej Heq). congruence.
      * intros x. rewrite elem_of_cons, Hin. split.
        -- intros [->|(p & Hp & -> & Hnone%Hlater & Hc & Ho)].
           ++ exists q. split_and!; [left|done..].
           ++ exists p. split_and!; [by right|done|tauto|done..].
        -- intros (p & [->|Hp]%elem_of_cons & -> & Hnone & Hc & Ho); [by left|].
           destruct (decide (lv2_type_name q = lv2_type_name p)) as [Heq|Hne].
           ++ left. by rewrite Heq.
           ++ right. exists p. split_and!; [done..| |done|done].
              apply Hlater. split; [done|]. by intros ?.
    + split; [done|]. intros x. rewrite Hin. split.
      * intros (p & Hp & -> & Hnone%Hlater & Hc & Ho).
        exists p. split_and!; [by right|done|tauto|done..].
      * intros (p & [->|Hp]%elem_of_cons & -> & Hnone & Hc & Ho).
        -- rewrite Hc, Ho, bool_decide_eq_true_2 in Hq by done. done.
        -- exists p. split_and!; [done..| |done|done].
           apply Hlater. split; [done|]. intros Heq.
           rewrite <- Heq in Hnone, Hc, Ho.
           rewrite Hc, Ho, bool_decide_eq_true_2 in Hq by done. done.
Qed.

(** When every name in the list is either registered already or one that
    GLib rejects, the scan changes nothing. *)
Lemma discover_loop_settled plugins ts :
  Forall (λ p, is_Some (types ts !! lv2_type_name p)
               ∨ check_type_name (lv2_type_name p) = false) plugins →
  scan_all plugins ts
  = ((λ p, bool_decide (types ts !! lv2_type_name p = None)) <$> plugins, ts).
Proof.
  induction 1 as [|p plugins Hp _ IH]; [done|].
  rewrite discover_loop_cons.
  assert (Hone : scan_one p ts
                 = (bool_decide (types ts !! lv2_type_name p = None), ts)).
  { destruct (types ts !! lv2_type_name p) as [node|] eqn:Hnode.
    - by rewrite discover_plugin_registered.
    - destruct Hp as [[? ?]|Hrej]; [done|]. by rewrite discover_plugin_rejected. }
  rewrite Hone. cbn [fst snd]. by rewrite IH.
Qed.

(** X18: what the scan leaves in the type system under any name.  An entry
    that was there before the scan is kept as it was.  A name that was free
    holds, after the scan, the entry of the first plugin of the list with
    that type name, with that plugin as class data and as "slv2-plugin"
    qdata, provided GLib accepts the name; it stays free when GLib rejects
    the name or no plugin of the list has it.  Whether
    [gst_element_register] succeeds makes no difference to the types. *)
Theorem discover_types_first_plugin_wins (plugins : list SLV2Plugin)
    (ts : GTypeSystem) (name : string) :
  types (lv2_plugin_discover check_type_name element_register_ok plugins ts).2
    !! name
  = match types ts !! name with
    | Some node => Some node
    | None =>
        match list_find (λ p, lv2_type_name p = name) plugins with
        | Some (_, first) =>
            if check_type_name name
            then Some {| class_data := Some first;
                         slv2_plugin_qdata := Some first |}
            else None
        | None => None
        end
    end.
Proof.
  unfold lv2_plugin_discover.
  pose proof (discover_loop_types plugins ts name) as Htypes.
  by destruct (scan_all plugins ts).
Qed.

(** X19: which plugins of the scan reach [g_type_register_static].  The
    plugin at position [i] does exactly when its type name was not
    registered before the scan and, in addition, either no plugin before it
    in the list has the same type name or GLib rejects the name (a rejected
    name is tried again by every plugin that has it).  The scan itself
    returns TRUE whatever happens. *)
Theorem discover_registration_attempts (plugins : list SLV2Plugin)
    (ts : GTypeSystem) :
  (lv2_plugin_discover check_type_name element_register_ok plugins ts).1
  = (true,
     imap (λ i p,
             bool_decide
               (types ts !! lv2_type_name p = None
                ∧ (check_type_name (lv2_type_name p) = false
                   ∨ lv2_type_name p ∉ lv2_type_name <$> take i plugins)))
       plugins).
Proof.
  unfold lv2_plugin_discover.
  pose proof (discover_loop_reached plugins ts) as Hreached.
  pose proof (discover_loop_length check_type_name element_register_ok
                plugins ts) as Hlen.
  destruct (scan_all plugins ts) as [rs ts']. simpl in *. f_equal.
  apply list_eq. intros i. rewrite list_lookup_imap.
  destruct (plugins !! i) as [p|] eqn:Hi; simpl.
  - by apply Hreached.
  - apply lookup_ge_None. apply lookup_ge_None in Hi. lia.
Qed.

(** X20: the element factories after the scan.  The factories that were
    there stay, in order, and the scan appends one factory per type it
    registered: no factory twice, and a factory (name, type) is appended
    exactly when name and type are the type name of a plugin of the list,
    that name was not registered before the scan, GLib accepts it and
    [gst_element_register] succeeds for it. *)
Theorem discover_factories (plugins : list SLV2Plugin) (ts : GTypeSystem) :
  ∃ new,
    element_factories
      (lv2_plugin_discover check_type_name element_register_ok plugins ts).2
    = element_factories ts ++ new
    ∧ NoDup new
    ∧ ∀ name type, (name, type) ∈ new ↔
        name = type
        ∧ name ∈ lv2_type_name <$> plugins
        ∧ types ts !! name = None
        ∧ check_type_name name = true
        ∧ element_register_ok name = true.
Proof.
  unfold lv2_plugin_discover.
  destruct (discover_loop_factories plugins ts) as (new & Hnew & Hdup & Hin).
  destruct (scan_all plugins ts) as [rs ts']. simpl in *.
  exists new. split_and!; [done..|].
  intros name type. rewrite Hin, list_elem_of_fmap. split.
  - intros (p & Hp & [= -> ->] & Hnone & Hc & Ho). split_and!; [done| |done..].
    by exists p.
  - intros (<- & (p & -> & Hp) & Hnone & Hc & Ho). by exists p.
Qed.

(** X21: a second scan of the same plugins changes nothing.  After a scan
    every type name of the list is registered or rejected by GLib, so the
    second scan leaves the types and the element factories as the first
    one left them, and the only plugins that reach
    [g_type_register_static] again are those whose name is still not
    registered. *)
Theorem discover_twice (plugins : list SLV2Plugin) (ts : GTypeSystem) :
  let ts' :=
    (lv2_plugin_discover check_type_name element_register_ok plugins ts).2 in
  lv2_plugin_discover check_type_name element_register_ok plugins ts'
  = (true,
     (λ p, bool_decide (types ts' !! lv2_type_name p = None)) <$> plugins,
     ts').
Proof.
  unfold lv2_plugin_discover.
  pose proof (discover_loop_types plugins ts) as Htypes.
  destruct (scan_all plugins ts) as [rs ts']. simpl in *.
  rewrite discover_loop_settled; [done|].
  apply Forall_forall. intros p Hp. rewrite Htypes.
  destruct (types ts !! lv2_type_name p) as [node|]; [by left; eexists|].
  destruct (list_find _ plugins) as [[j first]|] eqn:Hfind.
  - destruct (check_type_name (lv2_type_name p)); [by left; eexists|by right].
  - apply list_find_None in Hfind. rewrite Forall_forall in Hfind.
    by destruct (Hfind p Hp).
Qed.

End discover_scan.


(** * Setup and processing together *)

Lemma connected_ports_app cs1 cs2 :
  connected_ports (cs1 ++ cs2) = connected_ports cs1 ++ connected_ports cs2.
Proof. apply omap_app. Qed.

Lemma connected_ports_imap h (data : nat → Pointer) (descs : list GstLV2Port) :
  connected_ports
    (imap (λ i desc, slv2_instance_connect_port_call h (port_index desc) (data i))
       descs)
  = port_index <$> descs.
Proof.
  revert data. induction descs as [|d descs IH]; intros data; [done|].
  rewrite imap_cons. unfold connected_ports in *. simpl. f_equal.
  apply (IH (data ∘ S)).
Qed.

Lemma connected_ports_port_bindings h (descs : list GstLV2Port)
    (buffers : list Pointer) :
  length buffers = length descs →
  connected_ports (zip_with (port_binding h) descs buffers) = port_index <$> descs.
Proof.
  revert buffers. induction descs as [|d descs IH]; intros [|b buffers] Hlen;
    try done.
  unfold connected_ports in *. simpl in *. f_equal. apply IH. lia.
Qed.

Lemma supported_indices_NoDup j ports : NoDup (supported_indices j ports).
Proof.
  revert j. induction ports as [|port ports IH]; intros j; simpl; [constructor|].
  destruct (port_unsupported port); simpl; [done|].
  constructor; [|done].
  intros (i & port' & _ & _ & Heq)%elem_of_supported_indices. lia.
Qed.

Lemma connect_group_connects h gst_groups i lv2_group gst_group nframes w :
  gst_groups !! i = Some gst_group →
  connect_group (Some h) gst_groups (Z.of_nat i) lv2_group nframes w
  = Returns () (add_trace w (group_connections h nframes lv2_group gst_group)).
Proof.
  intros Hg. unfold connect_group, group_connections.
  rewrite (for_upto_emits (group_ports lv2_group) _ _
             (λ k member, [slv2_instance_connect_port_call h (port_index member)
                             (ptr_add (buffer gst_group)
                                (guint_mul (Z.of_nat k) nframes))])).
  - by rewrite concat_imap_singleton.
  - done.
  - intros k member w' Hk. unfold mbind, M_bind.
    rewrite (array_get_lookup _ _ _ _ Hk), (array_get_lookup _ _ _ _ Hg).
    simpl. by rewrite emit_add_trace.
Qed.

Lemma groups_loop_connects h nframes (groups : list GstLV2Group)
    (gst_groups : list GstSignalProcessorGroup) n w :
  n = Z.of_nat (length groups) →
  length gst_groups = length groups →
  for_upto n (λ i,
    lv2_group ← array_get groups i;
    connect_group (Some h) gst_groups i lv2_group nframes) w
  = Returns ()
      (add_trace w
         (concat (zip_with (group_connections h nframes) groups gst_groups))).
Proof.
  intros Hn Hlen.
  rewrite <- (imap_lookup_zip_with (group_connections h nframes) []) by done.
  apply for_upto_emits; [done|].
  intros i g w' Hi. unfold mbind, M_bind.
  rewrite (array_get_lookup _ _ _ _ Hi).
  destruct (gst_groups !! i) as [gg|] eqn:Hgg.
  - simpl. by apply connect_group_connects.
  - apply lookup_ge_None in Hgg. apply lookup_lt_Some in Hi. lia.
Qed.

Lemma connected_ports_group_connections h nframes (groups : list GstLV2Group)
    (gst_groups : list GstSignalProcessorGroup) :
  length gst_groups = length groups →
  connected_ports
    (concat (zip_with (group_connections h nframes) groups gst_groups))
  = port_index <$> (groups ≫= group_ports).
Proof.
  revert gst_groups.
  induction groups as [|g groups IH]; intros [|b gst_groups] Hlen; try done.
  csimpl in *. rewrite connected_ports_app, ?bind_cons, fmap_app. f_equal.
  - apply connected_ports_imap.
  - apply IH. lia.
Qed.

(** X22: setup and one processing cycle together connect every supported
    port exactly once.  On the class of any plugin and an element that is
    not activated and has its buffers laid out, [gst_lv2_setup] followed by
    [gst_lv2_process] both return, whatever the frame count, the second ends
    with the run, and the ports connected on the way are the ports of the
    plugin that are in a group, audio or control, each one once: no port is
    bound twice and a port of an unknown class outside every group is never
    bound. *)
Theorem setup_and_cycle_connect_each_port_once (lv2plugin : SLV2Plugin)
    (sample_rate nframes : Z) (w : World) (h : SLV2Instance)
    (rest : list (option SLV2Instance)) :
  Z.of_nat (length (plugin_ports lv2plugin)) ≤ G_MAXUINT →
  let klass := gst_lv2_base_init lv2plugin in
  activated (self w) = false →
  instantiations w = Some h :: rest →
  buffers_allocated klass (self w) →
  ∃ w1 w2 calls,
    gst_lv2_setup klass sample_rate w = Returns true w1
    ∧ gst_lv2_process klass nframes w1 = Returns () w2
    ∧ trace w2 = trace w ++ calls ++ [slv2_instance_run_call h nframes]
    ∧ connected_ports calls ≡ₚ supported_indices 0 (plugin_ports lv2plugin)
    ∧ NoDup (connected_ports calls).
Proof.
  intros Hlen klass Hact Hinst (Bgi & Bgo & Bai & Bao).
  pose proof (setup_when_not_activated klass sample_rate w h rest
                (base_init_counts_consistent lv2plugin) Hact Hinst) as Hsetup.
  set (w1 := {| self := set_instance (Some h) (self w);
                trace := trace w
                         ++ slv2_plugin_instantiate_call (plugin_uri (plugin klass))
                              sample_rate (Some h)
                            :: control_bindings h klass;
                instantiations := rest |}) in *.
  set (cycle :=
         concat (zip_with (group_connections h nframes) (in_groups klass)
                   (group_in (self w)))
         ++ zip_with (port_binding h) (audio_in_ports klass) (audio_in (self w))
         ++ concat (zip_with (group_connections h nframes) (out_groups klass)
                      (group_out (self w)))
         ++ zip_with (port_binding h) (audio_out_ports klass) (audio_out (self w))).
  assert (Hprocess : gst_lv2_process klass nframes w1
            = Returns () (add_trace w1 (cycle ++ [slv2_instance_run_call h nframes]))).
  { unfold gst_lv2_process, cycle.
    mstep reflexivity. change (instance (self w1)) with (Some h).
    change (group_in (self w1)) with (group_in (self w)).
    change (group_out (self w1)) with (group_out (self w)).
    change (audio_in (self w1)) with (audio_in (self w)).
    change (audio_out (self w1)) with (audio_out (self w)).
    mstep (by apply groups_loop_connects).
    mstep (by apply ports_loop_emits).
    mstep (by apply groups_loop_connects).
    mstep (by apply ports_loop_emits).
    simpl. rewrite emit_add_trace. rewrite !add_trace_app.
    by rewrite <- !app_assoc. }
  assert (Hports :
    connected_ports
      (slv2_plugin_instantiate_call (plugin_uri (plugin klass)) sample_rate (Some h)
         :: control_bindings h klass ++ cycle)
    ≡ₚ supported_indices 0 (plugin_ports lv2plugin)).
  { change (connected_ports (?c :: ?cs)) with (connected_ports cs).
    unfold control_bindings, cycle.
    rewrite !connected_ports_app, !connected_ports_imap,
      !connected_ports_group_connections, !connected_ports_port_bindings by done.
    pose proof (scan_ports_indices lv2plugin 0 (plugin_ports lv2plugin) scan_start)
      as Hperm.
    rewrite <- Hperm by lia. simpl. unfold scan_descs. rewrite !fmap_app.
    subst klass. simpl. solve_Permutation. }
  exists w1, (add_trace w1 (cycle ++ [slv2_instance_run_call h nframes])),
    (slv2_plugin_instantiate_call (plugin_uri (plugin klass)) sample_rate (Some h)
       :: control_bindings h klass ++ cycle).
  split_and!; [done|done| |exact Hports|].
  - simpl. rewrite <- ?app_assoc. simpl. by rewrite <- ?app_assoc.
  - rewrite Hports. apply supported_indices_NoDup.
Qed.

Lemma setup_and_cycle_connect_each_port_once_witness :
  ∃ w1 w2 calls,
    gst_lv2_setup (gst_lv2_base_init event_plugin) 44100 event_world
    = Returns true w1
    ∧ gst_lv2_process (gst_lv2_base_init event_plugin) 64 w1 = Returns () w2
    ∧ trace w2 = trace event_world ++ calls ++ [slv2_instance_run_call 7 64]
    ∧ connected_ports calls ≡ₚ [0; 2]
    ∧ NoDup (connected_ports calls).
Proof.
  apply (setup_and_cycle_connect_each_port_once event_plugin 44100 64
           event_world 7 []).
  - vm_compute. discriminate.
  - reflexivity.
  - reflexivity.
  - repeat split; reflexivity.
Defined.
